(** * ECDSA verification engine of note-crypto: a shallow embedding

    The development follows the TypeScript sources file by file:
    - [Binary]   the two big-integer byte utilities imported from the
                 external package [@oslojs/binary];
    - [MathTs]   [ecdsa/math.ts]: [euclideanMod], [inverseMod], [powmod],
                 [tonelliShanks];
    - [Curve]    [ecdsa/curve.ts]: affine and Jacobian points, the group
                 law of [ECDSANamedCurve];
    - [CurveSec] [ecdsa/curve-sec.ts]: the table of named curves;
    - [Ecdsa]    [ecdsa/ecdsa.ts]: keys, signatures, the SEC1 and
                 IEEE P1363 codecs and [verifyECDSASignature].

    A [bigint] is a [Z].  The operators [%] and [/] on [bigint] truncate
    towards zero ([Z.rem], [Z.quot]) and raise a [RangeError] on a zero
    divisor; [**] raises a [RangeError] on a negative exponent.  A
    [Uint8Array] is a [list byte].  A function that can [throw] returns a
    [result]; a function whose loops have no bound in the source takes a
    [fuel] and returns [None] when the fuel runs out. *)

From Stdlib Require Import String.
From Stdlib Require Import ZArith Znumtheory Lia List Bool Arith FinFun.
From Stdlib Require Import Strings.Byte.
From Stdlib Require Import Zmod.
From Stdlib Require Import Setoid Morphisms.
From Bignums Require Import BigZ.
Import ListNotations.

Local Open Scope Z_scope.

(** ** Exceptions and the result monad *)

(** The three JavaScript exception classes raised by the modelled code,
    each with its message. *)
Inductive exn : Type :=
| Error (msg : string)
| TypeError (msg : string)
| RangeError (msg : string).

Inductive result (A : Type) : Type :=
| Ok (a : A)
| Throw (e : exn).

Arguments Ok {A} a.
Arguments Throw {A} e.

Definition bind {A B : Type} (r : result A) (k : A -> result B) : result B :=
  match r with
  | Ok a => k a
  | Throw e => Throw e
  end.

Declare Scope result_scope.
Delimit Scope result_scope with result.
Notation "x <- r ;; k" := (bind r (fun x => k))
  (at level 61, r at next level, right associativity) : result_scope.
Notation "' pat <- r ;; k" := (bind r (fun x => match x with pat => k end))
  (at level 61, pat pattern, r at next level, right associativity) : result_scope.
Local Open Scope result_scope.

(** A computation under fuel: [None] is "the fuel ran out", [Some r] is the
    result [r] of a run that finished. *)
Definition fueled (A : Type) : Type := option (result A).

Definition fbind {A B : Type} (r : fueled A) (k : A -> fueled B) : fueled B :=
  match r with
  | None => None
  | Some (Throw e) => Some (Throw e)
  | Some (Ok a) => k a
  end.

Definition lift {A : Type} (r : result A) : fueled A := Some r.

Declare Scope fueled_scope.
Delimit Scope fueled_scope with fueled.
Notation "x <~ r ;; k" := (fbind r (fun x => k))
  (at level 61, r at next level, right associativity) : fueled_scope.
Notation "' pat <~ r ;; k" := (fbind r (fun x => match x with pat => k end))
  (at level 61, pat pattern, r at next level, right associativity) : fueled_scope.
Local Open Scope fueled_scope.

(** ** [bigint] operators that can raise *)

Definition bigint_rem (x y : Z) : result Z :=
  if y =? 0 then Throw (RangeError "Division by zero") else Ok (Z.rem x y).

Definition bigint_div (x y : Z) : result Z :=
  if y =? 0 then Throw (RangeError "Division by zero") else Ok (Z.quot x y).

Definition bigint_pow (x y : Z) : result Z :=
  if y <? 0 then Throw (RangeError "Exponent must be non-negative") else Ok (x ^ y).

(** ** The byte utilities of [@oslojs/binary] *)

Module Binary.

Definition byte_to_Z (b : byte) : Z := Z.of_N (Byte.to_N b).

Definition byte_of_Z (z : Z) : byte :=
  match Byte.of_N (Z.to_N (z mod 256)) with
  | Some b => b
  | None => x00
  end.

(** Number of bytes of the shortest big-endian writing of [value >= 0],
    at least one:
    [let byteLength = 1; while (value > 2n ** BigInt(byteLength * 8) - 1n) byteLength++]. *)
Definition byteLength (value : Z) : nat :=
  if value <=? 0 then 1%nat else Z.to_nat (Z.log2 value / 8 + 1).

(** Modelled from the spec: the big-integer byte utilities (spec section 6,
    "big-endian fixed/variable width conversion between arbitrary-precision
    integers and byte sequences") belong to the external package
    [@oslojs/binary], which is not under src/.  [bigIntBytes] writes the
    absolute value in the fewest bytes, most significant first:
    [encoded[i] = (value >> (byteLength - i - 1) * 8) & 0xff]. *)
Definition bigIntBytes (value : Z) : list byte :=
  let value := if value <? 0 then value * -1 else value in
  let len := byteLength value in
  map (fun i : nat =>
         byte_of_Z (Z.land (Z.shiftr value (Z.of_nat (len - i - 1) * 8)) 255))
      (seq 0 len).

(** The sum [decoded += BigInt(bytes[i]) << BigInt((byteLength - 1 - i) * 8)]
    over the bytes after the first [i]. *)
Fixpoint bigIntFromBytes_loop (len : nat) (i : nat) (bytes : list byte) (decoded : Z) : Z :=
  match bytes with
  | [] => decoded
  | b :: rest =>
      bigIntFromBytes_loop len (S i) rest
        (decoded + Z.shiftl (byte_to_Z b) (Z.of_nat (len - 1 - i) * 8))
  end.

(** Modelled from the spec: [bigIntFromBytes] of the same external package
    (not under src/) reads a byte sequence as a big-endian integer.  The
    spec says nothing of the empty sequence; the model gives it the value
    of the empty sum. *)
Definition bigIntFromBytes (bytes : list byte) : Z :=
  bigIntFromBytes_loop (List.length bytes) 0 bytes 0.

(** [k.toString(2).length]: the binary digits of [k], preceded by a minus
    sign when [k] is negative; ["0"] for zero. *)
Definition bitLength (k : Z) : nat :=
  match k with
  | Z0 => 1%nat
  | Zpos p => Pos.size_nat p
  | Zneg p => S (Pos.size_nat p)
  end.

End Binary.

(** ** [ecdsa/math.ts] *)

Module MathTs.

(** [const r = x % y; if (r < 0n) return r + y; return r;] *)
Definition euclideanMod (x y : Z) : result Z :=
  r <- bigint_rem x y ;;
  if r <? 0 then Ok (r + y) else Ok r.

(** The state of the [while (remainder !== 0n)] loop of [inverseMod]. *)
Record egcd_state : Type := mk_egcd {
  dividend : Z;
  divisor : Z;
  remainder : Z;
  quotient : Z;
  s1 : Z;
  s2 : Z;
  s3 : Z
}.

(** One turn of the loop body.  The divisor of the two divisions is the
    previous remainder, which the loop test found non-zero. *)
Definition egcd_step (st : egcd_state) : egcd_state :=
  let dividend' := divisor st in
  let divisor' := remainder st in
  let s1' := s2 st in
  let s2' := s3 st in
  let remainder' := Z.rem dividend' divisor' in
  let quotient' := Z.quot dividend' divisor' in
  let s3' := s1' - quotient' * s2' in
  mk_egcd dividend' divisor' remainder' quotient' s1' s2' s3'.

Fixpoint egcd_loop (turns : nat) (st : egcd_state) : egcd_state :=
  if remainder st =? 0 then st
  else match turns with
       | O => st
       | S turns' => egcd_loop turns' (egcd_step st)
       end.

(** A number of turns after which the loop of [inverseMod] has always
    stopped (lemma [egcd_loop_stops]): the remainder, which starts below
    [n], halves every two turns. *)
Definition egcd_turns (n : Z) : nat := Z.to_nat (2 * (Z.log2 n + 1)).

Definition not_coprime_msg : string := "a and n is not relatively prime".

Definition inverseMod (a n : Z) : result Z :=
  let n := if n <? 0 then n * -1 else n in
  a <- (if a <? 0 then euclideanMod a n else Ok a) ;;
  r0 <- bigint_rem a n ;;
  q0 <- bigint_div a n ;;
  let st := egcd_loop (egcd_turns n) (mk_egcd a n r0 q0 1 0 (1 - q0 * 0)) in
  if negb (divisor st =? 1) then Throw (Error not_coprime_msg)
  else if s2 st <? 0 then Ok (s2 st + n)
  else Ok (s2 st).

(** The [while (y > 0)] loop of [powmod], by recursion on the binary digits
    of the exponent: [y % 2n === 1n] is the lowest digit, [y >> 1n] drops
    it.  [p] is non-zero here: [x % p] has already been evaluated. *)
Fixpoint powmod_loop (y : positive) (res x p : Z) : result Z :=
  match y with
  | xH => euclideanMod (res * x) p
  | xO y' =>
      x' <- euclideanMod (x * x) p ;;
      powmod_loop y' res x' p
  | xI y' =>
      res' <- euclideanMod (res * x) p ;;
      x' <- euclideanMod (x * x) p ;;
      powmod_loop y' res' x' p
  end.

Definition powmod (x y p : Z) : result Z :=
  let res := 1 in
  x <- bigint_rem x p ;;
  match y with
  | Zpos y' => powmod_loop y' res x p
  | _ => Ok res
  end.

Definition no_root_msg : string := "Cannot find square root".

(** [while (q % 2n === 0n) { q = q / 2n; s++; }] *)
Fixpoint factor_loop (fuel : nat) (q s : Z) : fueled (Z * Z) :=
  if Z.rem q 2 =? 0 then
    match fuel with
    | O => None
    | S fuel' => factor_loop fuel' (Z.quot q 2) (s + 1)
    end
  else Some (Ok (q, s)).

(** [while (powmod(z, (p - 1n) / 2n, p) !== p - 1n) z++;] *)
Fixpoint nonresidue_loop (fuel : nat) (z p : Z) : fueled Z :=
  e <~ lift (powmod z (Z.quot (p - 1) 2) p) ;;
  if negb (e =? p - 1) then
    match fuel with
    | O => None
    | S fuel' => nonresidue_loop fuel' (z + 1) p
    end
  else Some (Ok z).

(** The inner search [let i = 1n; while (i <= m) { ... i++; }]: the value of
    [i] when the loop is left, by [break] or by its test. *)
Fixpoint order_loop (fuel : nat) (i t m p : Z) : fueled Z :=
  if i <=? m then
    if i =? m then Some (Throw (Error no_root_msg))
    else
      e <~ lift (bigint_pow 2 i) ;;
      u <~ lift (powmod t e p) ;;
      if u =? 1 then Some (Ok i)
      else match fuel with
           | O => None
           | S fuel' => order_loop fuel' (i + 1) t m p
           end
  else Some (Ok i).

(** [while (true) { if (t === 1n) return r; ... }] *)
Fixpoint main_loop (fuel : nat) (r t c m p : Z) : fueled Z :=
  if t =? 1 then Some (Ok r)
  else match fuel with
       | O => None
       | S fuel' =>
           i <~ order_loop fuel 1 t m p ;;
           e <~ lift (bigint_pow 2 (m - i - 1)) ;;
           b <~ lift (powmod c e p) ;;
           let m' := i in
           c' <~ lift (powmod b 2 p) ;;
           b2 <~ lift (powmod b 2 p) ;;
           t' <~ lift (euclideanMod (t * b2) p) ;;
           r' <~ lift (euclideanMod (r * b) p) ;;
           main_loop fuel' r' t' c' m' p
       end.

Definition tonelliShanks (fuel : nat) (n p : Z) : fueled Z :=
  if Z.rem p 4 =? 3 then lift (powmod n (Z.quot (p + 1) 4) p)
  else
    e <~ lift (powmod n (Z.quot (p - 1) 2) p) ;;
    if e =? p - 1 then Some (Throw (Error no_root_msg))
    else
      '(q, s) <~ factor_loop fuel (p - 1) 0 ;;
      z <~ nonresidue_loop fuel 2 p ;;
      r <~ lift (powmod n (Z.quot (q + 1) 2) p) ;;
      t <~ lift (powmod n q p) ;;
      c <~ lift (powmod z q p) ;;
      let m := s in
      main_loop fuel r t c m p.

End MathTs.

(** ** [ecdsa/curve.ts] *)

Module Curve.
Import Binary MathTs.

Record ECDSAPoint : Type := mk_point {
  point_x : Z;
  point_y : Z
}.

Record JacobianPoint : Type := mk_jacobian {
  jac_x : Z;
  jac_y : Z;
  jac_z : Z
}.

Definition isAtInfinity (point : JacobianPoint) : bool :=
  (jac_x point =? 0) && (jac_y point =? 1) && (jac_z point =? 0).

Definition pointAtInfinity : JacobianPoint := mk_jacobian 0 1 0.

Record ECDSANamedCurve : Type := mk_curve {
  curve_p : Z;
  curve_a : Z;
  curve_b : Z;
  curve_g : ECDSAPoint;
  curve_n : Z;
  curve_cofactor : Z;
  curve_size : nat;
  curve_objectIdentifier : string
}.

(** The constructor of the class, which takes the base point as two
    coordinates. *)
Definition new_curve (p a b gx gy n cofactor : Z) (size : nat)
    (objectIdentifier : string) : ECDSANamedCurve :=
  mk_curve p a b (mk_point gx gy) n cofactor size objectIdentifier.

Section Group.

Variable this : ECDSANamedCurve.

Definition fromAffine (point : ECDSAPoint) : JacobianPoint :=
  mk_jacobian (point_x point) (point_y point) 1.

Definition toAffine (point : JacobianPoint) : result (option ECDSAPoint) :=
  if isAtInfinity point then Ok None
  else
    inverseZ <- inverseMod (jac_z point) (curve_p this) ;;
    let inverseZ2 := inverseZ ^ 2 in
    ax <- euclideanMod (jac_x point * inverseZ2) (curve_p this) ;;
    ay <- euclideanMod (jac_y point * inverseZ2 * inverseZ) (curve_p this) ;;
    Ok (Some (mk_point ax ay)).

Definition doubleJacobian (point : JacobianPoint) : result JacobianPoint :=
  if isAtInfinity point then Ok point
  else if jac_y point =? 0 then Ok pointAtInfinity
  else
    s <- euclideanMod (4 * jac_x point * jac_y point ^ 2) (curve_p this) ;;
    m <- euclideanMod (3 * jac_x point ^ 2 + curve_a this * jac_z point ^ 4)
           (curve_p this) ;;
    resultx <- euclideanMod (m ^ 2 - 2 * s) (curve_p this) ;;
    resulty <- euclideanMod (m * (s - resultx) - 8 * jac_y point ^ 4)
                 (curve_p this) ;;
    resultz <- euclideanMod (2 * jac_y point * jac_z point) (curve_p this) ;;
    Ok (mk_jacobian resultx resulty resultz).

Definition addJacobian (point1 point2 : JacobianPoint) : result JacobianPoint :=
  if isAtInfinity point1 then Ok point2
  else if isAtInfinity point2 then Ok point1
  else
    let point1zz := jac_z point1 ^ 2 in
    let point2zz := jac_z point2 ^ 2 in
    u1 <- euclideanMod (jac_x point1 * point2zz) (curve_p this) ;;
    u2 <- euclideanMod (jac_x point2 * point1zz) (curve_p this) ;;
    s1 <- euclideanMod (jac_y point1 * point2zz * jac_z point2) (curve_p this) ;;
    s2 <- euclideanMod (jac_y point2 * point1zz * jac_z point1) (curve_p this) ;;
    if u1 =? u2 then
      if negb (s1 =? s2) then Ok pointAtInfinity
      else doubleJacobian point1
    else
      let h := u2 - u1 in
      let r := s2 - s1 in
      point3x <- euclideanMod (r ^ 2 - h ^ 3 - 2 * u1 * h ^ 2) (curve_p this) ;;
      point3y <- euclideanMod (r * (u1 * h ^ 2 - point3x) - s1 * h ^ 3)
                   (curve_p this) ;;
      point3z <- euclideanMod (h * jac_z point1 * jac_z point2) (curve_p this) ;;
      Ok (mk_jacobian point3x point3y point3z).

Definition add (point1 point2 : ECDSAPoint) : result (option ECDSAPoint) :=
  let jacobian1 := fromAffine point1 in
  let jacobian2 := fromAffine point2 in
  sum <- addJacobian jacobian1 jacobian2 ;;
  toAffine sum.

Definition double (point : ECDSAPoint) : result (option ECDSAPoint) :=
  let jacobian := fromAffine point in
  dbl <- doubleJacobian jacobian ;;
  toAffine dbl.

(** [kBytes[kBytes.byteLength - 1 - Math.floor(i / 8)]] shifted and masked:
    [(byte >> i % 8) & 0x01].  An index before the first byte reads
    [undefined], whose bits are all zero. *)
Definition multiply_bit (kBytes : list byte) (i : nat) : bool :=
  if (i / 8 <? List.length kBytes)%nat then
    match nth_error kBytes (List.length kBytes - 1 - i / 8) with
    | Some byte => Z.testbit (byte_to_Z byte) (Z.of_nat (i mod 8))
    | None => false
    end
  else false.

(** The [for (let i = 0; i < bitLength; i++)] loop of [multiply], with
    [todo] turns left. *)
Fixpoint multiply_loop (kBytes : list byte) (todo i : nat)
    (res temp : JacobianPoint) : result JacobianPoint :=
  match todo with
  | O => Ok res
  | S todo' =>
      res' <- (if multiply_bit kBytes i then addJacobian res temp else Ok res) ;;
      temp' <- doubleJacobian temp ;;
      multiply_loop kBytes todo' (S i) res' temp'
  end.

Definition multiply (k : Z) (point : ECDSAPoint) : result (option ECDSAPoint) :=
  let kBytes := bigIntBytes k in
  let bitLength := bitLength k in
  let res := pointAtInfinity in
  let temp := mk_jacobian (point_x point) (point_y point) 1 in
  res <- multiply_loop kBytes bitLength 0 res temp ;;
  toAffine res.

Definition is_null {A : Type} (o : option A) : bool :=
  match o with
  | None => true
  | Some _ => false
  end.

Definition isOnCurve (point : ECDSAPoint) : result bool :=
  outside <- (if negb (curve_cofactor this =? 1) then
                nq <- multiply (curve_n this) point ;;
                Ok (negb (is_null nq))
              else Ok false) ;;
  if outside : bool then Ok false
  else
    lhs <- euclideanMod (point_y point ^ 2) (curve_p this) ;;
    rhs <- euclideanMod
             (point_x point ^ 3 + curve_a this * point_x point + curve_b this)
             (curve_p this) ;;
    Ok (lhs =? rhs).

End Group.

End Curve.

(** ** [ecdsa/curve-sec.ts] *)

Module CurveSec.
Import Curve.

Definition secp192k1 : ECDSANamedCurve := new_curve
  0xfffffffffffffffffffffffffffffffffffffffeffffee37
  0x000000000000000000000000000000000000000000000000
  0x000000000000000000000000000000000000000000000003
  0xdb4ff10ec057e9ae26b07d0280b7f4341da5d1b1eae06c7d
  0x9b2f2f6d9c5628a7844163d015be86344082aa88d95e2f9d
  0xfffffffffffffffffffffffe26f2fc170f69466a74defd8d
  1
  24
  "1.3.132.0.31".

Definition secp192r1 : ECDSANamedCurve := new_curve
  0xfffffffffffffffffffffffffffffffeffffffffffffffff
  0xfffffffffffffffffffffffffffffffefffffffffffffffc
  0x64210519e59c80e70fa7e9ab72243049feb8deecc146b9b1
  0x188da80eb03090f67cbf20eb43a18800f4ff0afd82ff1012
  0x07192b95ffc8da78631011ed6b24cdd573f977a11e794811
  0xffffffffffffffffffffffff99def836146bc9b1b4d22831
  1
  24
  "1.2.840.10045.3.1.1".

Definition secp224k1 : ECDSANamedCurve := new_curve
  0xfffffffffffffffffffffffffffffffffffffffffffffffeffffe56d
  0x00000000000000000000000000000000000000000000000000000000
  0x00000000000000000000000000000000000000000000000000000005
  0xa1455b334df099df30fc28a169a467e9e47075a90f7e650eb6b7a45c
  0x7e089fed7fba344282cafbd6f7e319f7c0b0bd59e2ca4bdb556d61a5
  0x10000000000000000000000000001dce8d2ec6184caf0a971769fb1f7
  1
  28
  "1.3.132.0.32".

Definition secp224r1 : ECDSANamedCurve := new_curve
  0xffffffffffffffffffffffffffffffff000000000000000000000001
  0xfffffffffffffffffffffffffffffffefffffffffffffffffffffffe
  0xb4050a850c04b3abf54132565044b0b7d7bfd8ba270b39432355ffb4
  0xb70e0cbd6bb4bf7f321390b94a03c1d356c21122343280d6115c1d21
  0xbd376388b5f723fb4c22dfe6cd4375a05a07476444d5819985007e34
  0xffffffffffffffffffffffffffff16a2e0b8f03e13dd29455c5c2a3d
  1
  28
  "1.3.132.0.33".

Definition secp256k1 : ECDSANamedCurve := new_curve
  0xfffffffffffffffffffffffffffffffffffffffffffffffffffffffefffffc2f
  0x0000000000000000000000000000000000000000000000000000000000000000
  0x0000000000000000000000000000000000000000000000000000000000000007
  0x79be667ef9dcbbac55a06295ce870b07029bfcdb2dce28d959f2815b16f81798
  0x483ada7726a3c4655da4fbfc0e1108a8fd17b448a68554199c47d08ffb10d4b8
  0xfffffffffffffffffffffffffffffffebaaedce6af48a03bbfd25e8cd0364141
  1
  32
  "1.3.132.0.10".

Definition secp256r1 : ECDSANamedCurve := new_curve
  0xffffffff00000001000000000000000000000000ffffffffffffffffffffffff
  0xffffffff00000001000000000000000000000000fffffffffffffffffffffffc
  0x5ac635d8aa3a93e7b3ebbd55769886bc651d06b0cc53b0f63bce3c3e27d2604b
  0x6b17d1f2e12c4247f8bce6e563a440f277037d812deb33a0f4a13945d898c296
  0x4fe342e2fe1a7f9b8ee7eb4a7c0f9e162bce33576b315ececbb6406837bf51f5
  0xffffffff00000000ffffffffffffffffbce6faada7179e84f3b9cac2fc632551
  1
  32
  "1.2.840.10045.3.1.7".

Definition secp384r1 : ECDSANamedCurve := new_curve
  0xfffffffffffffffffffffffffffffffffffffffffffffffffffffffffffffffeffffffff0000000000000000ffffffff
  0xfffffffffffffffffffffffffffffffffffffffffffffffffffffffffffffffeffffffff0000000000000000fffffffc
  0xb3312fa7e23ee7e4988e056be3f82d19181d9c6efe8141120314088f5013875ac656398d8a2ed19d2a85c8edd3ec2aef
  0xaa87ca22be8b05378eb1c71ef320ad746e1d3b628ba79b9859f741e082542a385502f25dbf55296c3a545e3872760ab7
  0x3617de4a96262c6f5d9e98bf9292dc29f8f41dbd289a147ce9da3113b5f0b8c00a60b1ce1d7e819d7a431d7c90ea0e5f
  0xffffffffffffffffffffffffffffffffffffffffffffffffc7634d81f4372ddf581a0db248b0a77aecec196accc52973
  1
  48
  "1.3.132.0.34".

Definition secp521r1 : ECDSANamedCurve := new_curve
  0x01ffffffffffffffffffffffffffffffffffffffffffffffffffffffffffffffffffffffffffffffffffffffffffffffffffffffffffffffffffffffffffffffffff
  0x01fffffffffffffffffffffffffffffffffffffffffffffffffffffffffffffffffffffffffffffffffffffffffffffffffffffffffffffffffffffffffffffffffc
  0x0051953eb9618e1c9a1f929a21a0b68540eea2da725b99b315f3b8b489918ef109e156193951ec7e937b1652c0bd3bb1bf073573df883d2c34f1ef451fd46b503f00
  0x00c6858e06b70404e9cd9e3ecb662395b4429c648139053fb521f828af606b4d3dbaa14b5e77efe75928fe1dc127a2ffa8de3348b3c1856a429bf97e7e31c2e5bd66
  0x011839296a789a3bc0045c8a5fb42c7d1bd998f54449579b446817afbd17273e662c97ee72995ef42640c550b9013fad0761353c7086a272c24088be94769fd16650
  0x01fffffffffffffffffffffffffffffffffffffffffffffffffffffffffffffffffa51868783bf2f966b7fcc0148f709a5d03bb5c9b8899c47aebb6fb71e91386409
  1
  66
  "1.3.132.0.35".

(** The registry: every curve the module exports.  The NIST names of
    [curve-nist.ts] (P-192 to P-521) denote the five [r1] curves. *)
Definition registry : list ECDSANamedCurve :=
  [secp192k1; secp192r1; secp224k1; secp224r1;
   secp256k1; secp256r1; secp384r1; secp521r1].

End CurveSec.

(** ** [ecdsa/ecdsa.ts] *)

Module Ecdsa.
Import Binary MathTs Curve.

Record ECDSAPublicKey : Type := mk_key {
  key_curve : ECDSANamedCurve;
  key_x : Z;
  key_y : Z
}.

Record ECDSASignature : Type := mk_signature {
  sig_r : Z;
  sig_s : Z
}.

(** [new ECDSASignature(r, s)] *)
Definition new_signature (r s : Z) : result ECDSASignature :=
  if (r <? 1) || (s <? 1) then Throw (TypeError "Invalid signature")
  else Ok (mk_signature r s).

(** [new Uint8Array(length)] *)
Definition zeros (length : nat) : list byte := repeat x00 length.

(** [target.set(source, offset)] on typed arrays. *)
Definition set_bytes (target source : list byte) (offset : Z) : result (list byte) :=
  if (offset <? 0) || (Z.of_nat (List.length target) <? offset + Z.of_nat (List.length source))
  then Throw (RangeError "offset is out of bounds")
  else Ok (firstn (Z.to_nat offset) target ++ source
           ++ skipn (Z.to_nat offset + List.length source) target).

(** [bytes.slice(start, end)] for [0 <= start <= end]. *)
Definition slice (bytes : list byte) (start stop : nat) : list byte :=
  firstn (stop - start) (skipn start bytes).

(** [bytes[0] = value] on a typed array (nothing happens on an empty one). *)
Definition set_first (bytes : list byte) (value : byte) : list byte :=
  match bytes with
  | [] => []
  | _ :: rest => value :: rest
  end.

Definition encodeSEC1Uncompressed (this : ECDSAPublicKey) : result (list byte) :=
  let size := Z.of_nat (curve_size (key_curve this)) in
  let bytes := zeros (1 + curve_size (key_curve this) * 2) in
  let bytes := set_first bytes x04 in
  let xBytes := bigIntBytes (key_x this) in
  let yBytes := bigIntBytes (key_y this) in
  bytes <- set_bytes bytes xBytes (1 + size - Z.of_nat (List.length xBytes)) ;;
  bytes <- set_bytes bytes yBytes (1 + size * 2 - Z.of_nat (List.length yBytes)) ;;
  Ok bytes.

Definition encodeSEC1Compressed (this : ECDSAPublicKey) : result (list byte) :=
  let size := Z.of_nat (curve_size (key_curve this)) in
  let bytes := zeros (1 + curve_size (key_curve this)) in
  let bytes := if Z.rem (key_y this) 2 =? 0 then set_first bytes x02
               else set_first bytes x03 in
  let xBytes := bigIntBytes (key_x this) in
  bytes <- set_bytes bytes xBytes (1 + size - Z.of_nat (List.length xBytes)) ;;
  Ok bytes.

Definition invalid_key_msg : string := "Invalid public key".

(** The right-hand side [x ** 3n + curve.a * x + curve.b] reduced modulo
    [curve.p], as both compressed branches compute it. *)
Definition curve_rhs (curve : ECDSANamedCurve) (x : Z) : result Z :=
  euclideanMod (x ^ 3 + curve_a curve * x + curve_b curve) (curve_p curve).

Definition decodeSEC1PublicKey (fuel : nat) (curve : ECDSANamedCurve)
    (bytes : list byte) : fueled ECDSAPublicKey :=
  if (List.length bytes <? 1)%nat then Some (Throw (Error invalid_key_msg))
  else
    let first := nth 0 bytes x00 in
    if Byte.eqb first x04 then
      if negb (List.length bytes =? curve_size curve * 2 + 1)%nat
      then Some (Throw (Error invalid_key_msg))
      else
        let x := bigIntFromBytes (slice bytes 1 (curve_size curve + 1)) in
        let y := bigIntFromBytes (skipn (curve_size curve + 1) bytes) in
        Some (Ok (mk_key curve x y))
    else if Byte.eqb first x02 then
      if negb (List.length bytes =? curve_size curve + 1)%nat
      then Some (Throw (Error invalid_key_msg))
      else
        let x := bigIntFromBytes (skipn 1 bytes) in
        y2 <~ lift (curve_rhs curve x) ;;
        y <~ tonelliShanks fuel y2 (curve_p curve) ;;
        if Z.rem y 2 =? 0 then Some (Ok (mk_key curve x y))
        else Some (Ok (mk_key curve x (curve_p curve - y)))
    else if Byte.eqb first x03 then
      if negb (List.length bytes =? curve_size curve + 1)%nat
      then Some (Throw (Error invalid_key_msg))
      else
        let x := bigIntFromBytes (skipn 1 bytes) in
        y2 <~ lift (curve_rhs curve x) ;;
        y <~ tonelliShanks fuel y2 (curve_p curve) ;;
        if Z.rem y 2 =? 1 then Some (Ok (mk_key curve x y))
        else Some (Ok (mk_key curve x (curve_p curve - y)))
    else Some (Throw (Error "Unknown encoding format")).

Definition encodeIEEEP1363 (this : ECDSASignature) (curve : ECDSANamedCurve)
    : result (list byte) :=
  let size := Z.of_nat (curve_size curve) in
  let rs := zeros (curve_size curve * 2) in
  let rBytes := bigIntBytes (sig_r this) in
  if (curve_size curve <? List.length rBytes)%nat
  then Throw (Error "'r' is too large")
  else
    let sBytes := bigIntBytes (sig_s this) in
    if (curve_size curve <? List.length sBytes)%nat
    then Throw (Error "'s' is too large")
    else
      rs <- set_bytes rs rBytes (size - Z.of_nat (List.length rBytes)) ;;
      rs <- set_bytes rs sBytes (size * 2 - Z.of_nat (List.length sBytes)) ;;
      Ok rs.

Definition invalid_size_msg : string :=
  "Failed to decode signature: Invalid signature size".

Definition decodeIEEEP1363ECDSASignature (curve : ECDSANamedCurve)
    (bytes : list byte) : result ECDSASignature :=
  if negb (List.length bytes =? curve_size curve * 2)%nat
  then Throw (Error invalid_size_msg)
  else
    let r := bigIntFromBytes (slice bytes 0 (curve_size curve)) in
    let s := bigIntFromBytes (skipn (curve_size curve) bytes) in
    new_signature r s.

Definition verifyECDSASignature (publicKey : ECDSAPublicKey) (hash : list byte)
    (signature : ECDSASignature) : result bool :=
  let curve := key_curve publicKey in
  let q := mk_point (key_x publicKey) (key_y publicKey) in
  onCurve <- isOnCurve curve q ;;
  if negb onCurve then Ok false
  else
    nq <- multiply curve (curve_n curve) q ;;
    if negb (is_null nq) then Ok false
    else
      let e := slice hash 0 (curve_size curve) in
      let ez := bigIntFromBytes e in
      w1 <- inverseMod (sig_s signature) (curve_n curve) ;;
      u1 <- euclideanMod (ez * w1) (curve_n curve) ;;
      u1G <- multiply curve u1 (curve_g curve) ;;
      match u1G with
      | None => Ok false
      | Some u1G =>
          w2 <- inverseMod (sig_s signature) (curve_n curve) ;;
          u2 <- euclideanMod (sig_r signature * w2) (curve_n curve) ;;
          u2Q <- multiply curve u2 q ;;
          match u2Q with
          | None => Ok false
          | Some u2Q =>
              coord1 <- add curve u1G u2Q ;;
              match coord1 with
              | None => Ok false
              | Some coord1 =>
                  rn <- euclideanMod (sig_r signature) (curve_n curve) ;;
                  Ok (rn =? point_x coord1)
              end
          end
      end.

End Ecdsa.

(** * Specification-level definitions *)

Module BinarySpec.
Import Binary.

(** The integer a byte sequence denotes, most significant byte first. *)
Fixpoint be_value (bytes : list byte) : Z :=
  match bytes with
  | [] => 0
  | b :: rest => byte_to_Z b * 256 ^ Z.of_nat (List.length rest) + be_value rest
  end.

(** The [n] low base-256 digits of [v], most significant first. *)
Definition be_digits (n : nat) (v : Z) : list byte :=
  map (fun i : nat =>
         byte_of_Z (Z.land (Z.shiftr v (Z.of_nat (n - i - 1) * 8)) 255))
      (seq 0 n).

(** A byte sequence of at most [size] bytes, padded with zero bytes on
    the left to [size] bytes. *)
Definition padded (size : nat) (bytes : list byte) : list byte :=
  repeat x00 (size - List.length bytes) ++ bytes.

End BinarySpec.

Module MathSpec.
Import MathTs.

(** The invariant of the loop of [inverseMod] on the pair [(a, n)] with
    [n > 0]: the loop runs Euclid's algorithm on [(dividend, divisor)], [s1]
    and [s2] are the coefficients of [a] in the two, of opposite signs. *)
Record egcd_inv (a n : Z) (st : egcd_state) : Prop := {
  inv_divisor_pos : 0 < divisor st;
  inv_dividend_nonneg : 0 <= dividend st;
  inv_remainder : remainder st = dividend st mod divisor st;
  inv_quotient : quotient st = dividend st / divisor st;
  inv_s3 : s3 st = s1 st - quotient st * s2 st;
  inv_s1 : (n | s1 st * a - dividend st);
  inv_s2 : (n | s2 st * a - divisor st);
  inv_gcd : Z.gcd (dividend st) (divisor st) = Z.gcd a n;
  inv_sign : exists sg, (sg = 1 \/ sg = -1) /\ 0 <= sg * s1 st /\ sg * s2 st <= 0
               /\ s1 st * divisor st - s2 st * dividend st = sg * n;
  inv_order : s2 st = 0 \/ divisor st < dividend st
}.

(** Polynomials with integer coefficients, leading coefficient first,
    evaluated by Horner's rule; [quotient_by f r b] continues the synthetic
    division of a polynomial by [X - r]. *)
Fixpoint horner (f : list Z) (x acc : Z) : Z :=
  match f with
  | [] => acc
  | a :: f' => horner f' x (acc * x + a)
  end.

Definition poly_eval (f : list Z) (x : Z) : Z := horner f x 0.

Fixpoint quotient_by (f : list Z) (r b : Z) : list Z :=
  match f with
  | [] => []
  | a :: f' => b :: quotient_by f' r (b * r + a)
  end.

Definition root_mod (p : Z) (f : list Z) (r : Z) : Prop :=
  0 <= r < p /\ (poly_eval f r) mod p = 0.

(** The polynomial [X^(k+1) - 1]. *)
Definition power_minus_one (k : nat) : list Z := 1 :: repeat 0 k ++ [-1].

(** [n] is a quadratic residue modulo [p]: a non-zero square. *)
Definition quadratic_residue (n p : Z) : Prop :=
  n mod p <> 0 /\ exists y, (y * y) mod p = n mod p.

(** Congruence modulo [p]. *)
Definition congruent (p a b : Z) : Prop := a mod p = b mod p.

(** The invariant of the main loop of [tonelliShanks] looking for a square
    root of [n] modulo [p]: [r * r = t * n], the order of [c] is [2 ^ m] and
    the order of [t] divides [2 ^ (m - 1)]. *)
Record ts_inv (p n r t c m : Z) : Prop := {
  ts_r : 0 <= r < p;
  ts_t : 0 <= t < p;
  ts_m : 1 <= m;
  ts_root : congruent p (r * r) (t * n);
  ts_c : congruent p (c ^ (2 ^ (m - 1))) (-1);
  ts_order : congruent p (t ^ (2 ^ (m - 1))) 1
}.

End MathSpec.

(** * A fast evaluator for the Jacobian arithmetic

    The loop of [multiply] on a standard curve runs several hundred
    doublings and additions on integers of several hundred bits.  The
    functions below repeat [doubleJacobian], [addJacobian] and the loop of
    [multiply] on [bigZ], the machine-word integers of Bignums, for a
    positive modulus; [CurveEvalFacts] proves that they compute what the
    embedding computes. *)

Module CurveEval.
Import Binary MathTs Curve.

Record JacobianB : Type := mk_jacobianB {
  jacB_x : bigZ;
  jacB_y : bigZ;
  jacB_z : bigZ
}.

Definition of_jacobianB (j : JacobianB) : JacobianPoint :=
  mk_jacobian (BigZ.to_Z (jacB_x j)) (BigZ.to_Z (jacB_y j)) (BigZ.to_Z (jacB_z j)).

Definition to_jacobianB (j : JacobianPoint) : JacobianB :=
  mk_jacobianB (BigZ.of_Z (jac_x j)) (BigZ.of_Z (jac_y j)) (BigZ.of_Z (jac_z j)).

Definition bz (z : Z) : bigZ := BigZ.of_Z z.

Definition isAtInfinityB (point : JacobianB) : bool :=
  BigZ.eqb (jacB_x point) (bz 0) && BigZ.eqb (jacB_y point) (bz 1)
  && BigZ.eqb (jacB_z point) (bz 0).

Definition pointAtInfinityB : JacobianB := mk_jacobianB (bz 0) (bz 1) (bz 0).

Section GroupB.

Variables p a : bigZ.

Local Notation "x * y" := (BigZ.mul x y).
Local Notation "x + y" := (BigZ.add x y).
Local Notation "x - y" := (BigZ.sub x y).
Local Notation "x 'mod' y" := (BigZ.modulo x y).

Definition doubleJacobianB (point : JacobianB) : JacobianB :=
  if isAtInfinityB point then point
  else if BigZ.eqb (jacB_y point) (bz 0) then pointAtInfinityB
  else
    let x := jacB_x point in
    let y := jacB_y point in
    let z := jacB_z point in
    let yy := y * y in
    let zz := z * z in
    let s := (bz 4 * x * yy) mod p in
    let m := (bz 3 * (x * x) + a * (zz * zz)) mod p in
    let resultx := (m * m - bz 2 * s) mod p in
    mk_jacobianB resultx
      ((m * (s - resultx) - bz 8 * (yy * yy)) mod p)
      ((bz 2 * y * z) mod p).

Definition addJacobianB (point1 point2 : JacobianB) : JacobianB :=
  if isAtInfinityB point1 then point2
  else if isAtInfinityB point2 then point1
  else
    let point1zz := jacB_z point1 * jacB_z point1 in
    let point2zz := jacB_z point2 * jacB_z point2 in
    let u1 := (jacB_x point1 * point2zz) mod p in
    let u2 := (jacB_x point2 * point1zz) mod p in
    let s1 := (jacB_y point1 * point2zz * jacB_z point2) mod p in
    let s2 := (jacB_y point2 * point1zz * jacB_z point1) mod p in
    if BigZ.eqb u1 u2 then
      if negb (BigZ.eqb s1 s2) then pointAtInfinityB
      else doubleJacobianB point1
    else
      let h := u2 - u1 in
      let r := s2 - s1 in
      let hh := h * h in
      let hhh := hh * h in
      let point3x := (r * r - hhh - bz 2 * u1 * hh) mod p in
      mk_jacobianB point3x
        ((r * (u1 * hh - point3x) - s1 * hhh) mod p)
        ((h * jacB_z point1 * jacB_z point2) mod p).

Fixpoint multiply_loopB (kBytes : list byte) (todo i : nat)
    (res temp : JacobianB) : JacobianB :=
  match todo with
  | O => res
  | S todo' =>
      let res' := if multiply_bit kBytes i then addJacobianB res temp else res in
      let temp' := doubleJacobianB temp in
      multiply_loopB kBytes todo' (S i) res' temp'
  end.

End GroupB.

(** The Jacobian point the loop of [multiply] ends on. *)
Definition multiply_eval (this : ECDSANamedCurve) (k : Z) (point : ECDSAPoint)
    : JacobianPoint :=
  of_jacobianB
    (multiply_loopB (bz (curve_p this)) (bz (curve_a this))
       (bigIntBytes k) (bitLength k) 0 pointAtInfinityB
       (to_jacobianB (mk_jacobian (point_x point) (point_y point) 1))).

End CurveEval.

Module PowmodEval.
Import MathTs CurveEval.

(** Modular exponentiation on machine-word integers: the loop of [powmod]
    for a positive modulus. *)
Fixpoint powmod_loopB (y : positive) (res x p : bigZ) : bigZ :=
  match y with
  | xH => BigZ.modulo (BigZ.mul res x) p
  | xO y' => powmod_loopB y' res (BigZ.modulo (BigZ.mul x x) p) p
  | xI y' =>
      powmod_loopB y' (BigZ.modulo (BigZ.mul res x) p) (BigZ.modulo (BigZ.mul x x) p) p
  end.

Definition powmod_eval (x y p : Z) : Z :=
  match y with
  | Zpos y' => BigZ.to_Z (powmod_loopB y' (bz 1) (bz (Z.rem x p)) (bz p))
  | _ => 1
  end.

End PowmodEval.

(** * Concrete inputs used by the evaluations below *)

Module Inputs.
Import Curve CurveSec Ecdsa.

(** The base point of secp256r1 as a public key, and a signature whose [s]
    is the order of the curve. *)
Definition c1_key : ECDSAPublicKey :=
  mk_key secp256r1 (point_x (curve_g secp256r1)) (point_y (curve_g secp256r1)).
Definition c1_hash : list byte := repeat x00 32.
Definition c1_sig : ECDSASignature := mk_signature 1 (curve_n secp256r1).

(** A point [R] of secp256r1 whose abscissa is [n + 3], the key [Q = R - G],
    the digest [3] and the signature [(3, 3)]: then [u1 = u2 = 1] and
    [u1 * G + u2 * Q = R]. *)
Definition c2_R : ECDSAPoint := mk_point
  (curve_n secp256r1 + 3)
  0x484f0c0fda434ef0a808458914f328715d7a545e198ac7eee31dffe861b5d23f.
Definition c2_key : ECDSAPublicKey := mk_key secp256r1
  0x4850d2963fe5d2f3c1b251a96ba095ebadeee7b736b34c6a731a8666fcca67bf
  0x999c111ef77bf8d58fd61dcecf607598f61d6651366c9902400b7dd93112b636.
Definition c2_Q : ECDSAPoint := mk_point (key_x c2_key) (key_y c2_key).
(** The inverse of [s = 3] modulo the order of secp256r1. *)
Definition c2_w : Z :=
  77194726140237499175131631299605049019997970149423840228281506040712341362913.
Definition c2_hash : list byte := repeat x00 31 ++ [x03].
Definition c2_sig : ECDSASignature := mk_signature 3 3.

(** The compressed encoding [02 00 ... 00 01] on secp256r1: abscissa [1],
    for which [x ** 3 + a * x + b] is not a square modulo [p]. *)
Definition c3_bytes : list byte := x02 :: repeat x00 31 ++ [x01].
Definition c3_key : ECDSAPublicKey := mk_key secp256r1 1
  15336768052943181929565574511513837199939592344958544176595701596388746434104.

End Inputs.

(** * Primality certificates

    The moduli of the named curves are proved prime from Pocklington
    certificates: a list of steps, each proving one number [n] prime from a
    factored part [F] of [n - 1] with [(F + 1) ^ 2 > n], whose prime factors
    are small enough for trial division or were proved by an earlier step. *)

Module Primality.
Import PowmodEval.

(** Trial division by [d], [d + 1], ... up to the square root of [n]. *)
Fixpoint trial_loop (fuel : nat) (d n : Z) : bool :=
  if n <? d * d then true
  else match fuel with
       | O => false
       | S fuel' => if n mod d =? 0 then false else trial_loop fuel' (d + 1) n
       end.

Definition trial_prime (n : Z) : bool :=
  (1 <? n) && trial_loop (Z.to_nat (Z.sqrt n)) 2 n.

(** A step of a primality certificate: the number [n], a base [a] and the
    prime powers [q ^ e] whose product [F] divides [n - 1]. *)
Definition pock_step : Type := (Z * Z * list (Z * Z))%type.

Definition pock_product (entries : list (Z * Z)) : Z :=
  fold_right (fun qe acc => fst qe ^ snd qe * acc) 1 entries.

Fixpoint increasing (l : list Z) : bool :=
  match l with
  | [] => true
  | x :: rest =>
      match rest with
      | [] => true
      | y :: _ => (x <? y) && increasing rest
      end
  end.

Definition check_entry (proved : list Z) (n a : Z) (qe : Z * Z) : bool :=
  let (q, e) := qe in
  (if existsb (Z.eqb q) proved then true else trial_prime q)
  && (1 <=? e)
  && ((n - 1) mod q ^ e =? 0)
  && (Z.gcd (powmod_eval a ((n - 1) / q) n - 1) n =? 1).

Definition check_step (proved : list Z) (step : pock_step) : bool :=
  let '(n, a, entries) := step in
  let F := pock_product entries in
  (1 <? n)
  && (powmod_eval a (n - 1) n =? 1)
  && forallb (check_entry proved n a) entries
  && increasing (map fst entries)
  && (n <? (F + 1) * (F + 1)).

Fixpoint check_steps (proved : list Z) (steps : list pock_step) : bool :=
  match steps with
  | [] => true
  | step :: rest =>
      check_step proved step && check_steps (fst (fst step) :: proved) rest
  end.

(** The steps that lead to the moduli of the eight named curves. *)
Definition registry_certificate : list pock_step :=
[
  (8473813, 2, [(706151, 1)]);
  (138580737803, 2, [(8473813, 1)]);
  (16189543961, 2, [(2473, 1); (2683, 1)]);
  (10489845818524887021689201254173392444641, 2, [(16189543961, 1); (138580737803, 1)]);
  (6277101735386680763835789423207666416102355444459739541047, 2, [(10489845818524887021689201254173392444641, 1)]);
  (8413201, 5, [(3, 3); (5, 2); (41, 1)]);
  (252396031, 2, [(8413201, 1)]);
  (455827231987, 2, [(252396031, 1)]);
  (5933177618131140283, 2, [(455827231987, 1)]);
  (288626509448065367648032903, 2, [(5933177618131140283, 1)]);
  (108341181769254293, 2, [(54251, 1); (275729, 1)]);
  (6277101735386680763835789423207666416083908700390324961279, 2, [(108341181769254293, 1); (288626509448065367648032903, 1)]);
  (31670999344427766303479, 2, [(3001, 1); (10663, 1); (17293, 1)]);
  (30974237358850355444802463, 2, [(31670999344427766303479, 1)]);
  (9743875111334057846550285755748171501325144788037, 2, [(30974237358850355444802463, 1)]);
  (26959946667150639794667015087019630673637144422540572481099315275117, 2, [(9743875111334057846550285755748171501325144788037, 1)]);
  (2998279, 2, [(166571, 1)]);
  (67280421310721, 3, [(373, 1); (2998279, 1)]);
  (26959946667150639794667015087019630673557916260026308143510066298881, 11, [(2, 96); (67280421310721, 1)]);
  (107590001, 2, [(5, 4); (53, 1)]);
  (1206781, 2, [(20113, 1)]);
  (7240687, 2, [(1206781, 1)]);
  (255515944373312847190720520512484175977, 2, [(96557, 1); (7240687, 1); (107590001, 1)]);
  (205115282021455665897114700593932402728804164701536103180137503955397371, 2, [(255515944373312847190720520512484175977, 1)]);
  (115792089237316195423570985008687907853269984665640564039457584007908834671663, 2, [(205115282021455665897114700593932402728804164701536103180137503955397371, 1)]);
  (46076956964474543, 2, [(78283, 1); (704251, 1)]);
  (66417393611, 2, [(197, 1); (3677, 1)]);
  (11290956913871, 2, [(66417393611, 1)]);
  (774023187263532362759620327192479577272145303, 2, [(11290956913871, 1); (46076956964474543, 1)]);
  (835945042244614951780389953367877943453916927241, 2, [(774023187263532362759620327192479577272145303, 1)]);
  (115792089210356248762697446949407573530086143415290314195533631308867097853951, 2, [(835945042244614951780389953367877943453916927241, 1)]);
  (532247449, 2, [(363557, 1)]);
  (44925942675193, 2, [(532247449, 1)]);
  (35581458644053887931343, 2, [(44925942675193, 1)]);
  (23964610537191310276190549303, 2, [(35581458644053887931343, 1)]);
  (862725979338887169942859774909, 2, [(23964610537191310276190549303, 1)]);
  (20705423504133292078628634597817, 2, [(862725979338887169942859774909, 1)]);
  (413244619895455989650825325680172591660047, 2, [(20705423504133292078628634597817, 1)]);
  (12397338596863679689524759770405177749801411, 2, [(413244619895455989650825325680172591660047, 1)]);
  (246608641, 2, [(21407, 1)]);
  (105957871, 2, [(211, 1); (881, 1)]);
  (529709925838459440593, 2, [(105957871, 1); (246608641, 1)]);
  (19173790298027098165721053155794528970226934547887232785722672956982046098136719667167519737147526097, 2, [(529709925838459440593, 1); (12397338596863679689524759770405177749801411, 1)]);
  (39402006196394479212279040100143613805079739270465446667948293404245721771496870329047266088258938001861606973112319, 2, [(19173790298027098165721053155794528970226934547887232785722672956982046098136719667167519737147526097, 1)]);
  (9211861, 2, [(3, 3); (2437, 1)]);
  (24098228377, 2, [(9211861, 1)]);
  (674750394557, 2, [(24098228377, 1)]);
  (361725589517273017, 2, [(674750394557, 1)]);
  (173308343918874810521923841, 3, [(361725589517273017, 1)]);
  (8620289, 3, [(2, 8); (223, 1)]);
  (2534364967, 2, [(8620289, 1)]);
  (145295143558111, 3, [(2534364967, 1)]);
  (108140989558681, 3, [(1433, 1); (23609, 1)]);
  (2995763, 2, [(7, 3); (397, 1)]);
  (65427463921, 3, [(2995763, 1)]);
  (2400573761, 3, [(347, 1); (1663, 1)]);
  (308761441, 3, [(49481, 1)]);
  (6864797660130609714981900799081393217269435300143305409394463459185543183397656052122559640661454554977296311391480858037121987999716643812574028291115057151, 3, [(308761441, 1); (2400573761, 1); (65427463921, 1); (108140989558681, 1); (145295143558111, 1); (173308343918874810521923841, 1)])
].

End Primality.

(** * Cubics without a root modulo a prime *)

Module Cubic.
Import CurveEval.

(** An element [c0 + c1 X + c2 X^2] of the ring of polynomials modulo [p]
    and modulo the cubic [X^3 + a X + b]. *)
Record cubic_elt : Type := mk_cubic { cub0 : bigZ; cub1 : bigZ; cub2 : bigZ }.

Section CubicRing.

Variables p a b : bigZ.

Local Notation "x * y" := (BigZ.mul x y).
Local Notation "x + y" := (BigZ.add x y).
Local Notation "x - y" := (BigZ.sub x y).
Local Notation "x 'mod' y" := (BigZ.modulo x y).

(** The product, with [X^3] replaced by [- a X - b] and [X^4] by
    [- a X^2 - b X]. *)
Definition cubic_mul (c d : cubic_elt) : cubic_elt :=
  let e0 := cub0 c * cub0 d in
  let e1 := cub0 c * cub1 d + cub1 c * cub0 d in
  let e2 := cub0 c * cub2 d + cub1 c * cub1 d + cub2 c * cub0 d in
  let e3 := cub1 c * cub2 d + cub2 c * cub1 d in
  let e4 := cub2 c * cub2 d in
  mk_cubic ((e0 - b * e3) mod p)
           ((e1 - a * e3 - b * e4) mod p)
           ((e2 - a * e4) mod p).

Fixpoint cubic_pow_loop (y : positive) (res x : cubic_elt) : cubic_elt :=
  match y with
  | xH => cubic_mul res x
  | xO y' => cubic_pow_loop y' res (cubic_mul x x)
  | xI y' => cubic_pow_loop y' (cubic_mul res x) (cubic_mul x x)
  end.

End CubicRing.

(** [v * (X^p - X) = 1] in that ring: then [X^3 + a X + b] has no root
    modulo the prime [p]. *)
Definition no_root_check (p a b : Z) (v : Z * Z * Z) : bool :=
  match p with
  | Zpos p' =>
      let '(v0, v1, v2) := v in
      let one := mk_cubic (bz 1) (bz 0) (bz 0) in
      let X := mk_cubic (bz 0) (bz 1) (bz 0) in
      let h := cubic_pow_loop (bz p) (bz a) (bz b) p' one X in
      let g := mk_cubic (cub0 h) (BigZ.sub (cub1 h) (bz 1)) (cub2 h) in
      let w := cubic_mul (bz p) (bz a) (bz b) (mk_cubic (bz v0) (bz v1) (bz v2)) g in
      (BigZ.to_Z (cub0 w) =? 1) && (BigZ.to_Z (cub1 w) =? 0) && (BigZ.to_Z (cub2 w) =? 0)
  | _ => false
  end.

(** The value of an element at an integer [r]. *)
Definition cubic_value (r : Z) (c : cubic_elt) : Z :=
  BigZ.to_Z (cub0 c) + BigZ.to_Z (cub1 c) * r + BigZ.to_Z (cub2 c) * (r * r).

(** The inverses of [X^p - X] for the two named curves whose modulus is
    [1] modulo [4]. *)
Definition secp224k1_inverse : Z * Z * Z :=
  (0, 0, 14392281447714453329141049182099002829936563223837776000049905758642).

Definition secp224r1_inverse : Z * Z * Z :=
  (1261710631285627074303005901530361786216288604486499842249704943048,
   4447412785031720342771701563499662000791675740805516550464163634437,
   9439789507511725786058244597052783711805086828869674293526675889612).

End Cubic.

(** * Points on a curve *)

Module CurveSpec.
Import Curve MathSpec.

(** The point lies on the curve: reduced coordinates that satisfy the
    equation [y^2 = x^3 + a x + b] modulo [p]. *)
Definition on_curve (c : ECDSANamedCurve) (P : ECDSAPoint) : Prop :=
  0 <= point_x P < curve_p c /\ 0 <= point_y P < curve_p c /\
  congruent (curve_p c) (point_y P ^ 2)
            (point_x P ^ 3 + curve_a c * point_x P + curve_b c).

(** The same for an optional point, [null] being the point at infinity. *)
Definition on_curve_or_null (c : ECDSANamedCurve) (P : option ECDSAPoint) : Prop :=
  match P with
  | None => True
  | Some P => on_curve c P
  end.

(** A Jacobian point of the curve: the point at infinity [(0, 1, 0)], or
    reduced coordinates with [z <> 0] that satisfy
    [y^2 = x^3 + a x z^4 + b z^6] modulo [p]. *)
Definition jacobian_on_curve (c : ECDSANamedCurve) (J : JacobianPoint) : Prop :=
  J = pointAtInfinity \/
  (0 <= jac_x J < curve_p c /\ 0 <= jac_y J < curve_p c /\ 0 < jac_z J < curve_p c /\
   congruent (curve_p c) (jac_y J ^ 2)
     (jac_x J ^ 3 + curve_a c * jac_x J * jac_z J ^ 4 + curve_b c * jac_z J ^ 6)).

End CurveSpec.

(** * Inverses of [X^p - X] for the other named curves *)

Module CubicRegistry.

Definition secp192k1_inverse : Z * Z * Z :=
  (0,
   0,
   3998168169602074266251159217995508269206702776239881714655).

Definition secp192r1_inverse : Z * Z * Z :=
  (3076984081099336410538445874700673783096882824010410041625,
   4871298686935519674170250204910228760438566091784467946767,
   105597762148406811168096478311383789005400348177979944870).

Definition secp256k1_inverse : Z * Z * Z :=
  (0,
   0,
   46758632835564736012269203954919337884311706168562511263687580192619680188360).

Definition secp256r1_inverse : Z * Z * Z :=
  (76626890310466861426869089647039036757962535851890885406097439786770458211455,
   74462945259064871768191128030512052509059297803194871526163573358218695456204,
   34768139465301476436978405170953382516735956999154666452188405812258086013549).

Definition secp384r1_inverse : Z * Z * Z :=
  (23037766613497683937702734290281044719364893268180251583910224888989381657771069200037813904257325918671976092329602,
   8235438212423615602427778915669574859600037698862346933589434399495169446996583974901273360826717582835190849638831,
   12157362177932134139146813183752135342286725243554133716818896354380897714709611791313184492360272402950851405460538).

Definition secp521r1_inverse : Z * Z * Z :=
  (5556850081864827842302249485475501585472702946772625307642304195702912034363837867267334216347521692509406916620096684956176894315447091116492501000392161958,
   2592645775458497527836362227091103884154287512470494672274301275565663408730650270660448980645397363205839490313252565391972848223674401530161387302727484004,
   3919380404691066388712376322317341026252002696138380915147944189379687824774581460974855590730258562532022938584569429027963361353339635641909491533809725330).

End CubicRegistry.

(** * Signatures that verify *)

Module Signatures.
Import Curve CurveSec Ecdsa.

(** On secp256r1, the key [Q = 2 * G], the point [R = G + Q = 3 * G], the
    digest that is the abscissa of [R] as 32 bytes, and the signature
    [(r, s)] with [r = s =] that abscissa, which is below the order [n]: then
    [u1 = u2 = 1] and [u1 * G + u2 * Q = R]. *)
Definition sig2_key : ECDSAPublicKey := mk_key secp256r1
  0x7cf27b188d034f7e8a52380304b51ac3c08969e277f21b35a60b48fc47669978
  0x07775510db8ed040293d9ac69f7430dbba7dade63ce982299e04b79d227873d1.
Definition sig2_Q : ECDSAPoint := mk_point (key_x sig2_key) (key_y sig2_key).
Definition sig2_R : ECDSAPoint := mk_point
  0x5ecbe4d1a6330a44c8f7ef951d4bf165e6c6b721efada985fb41661bc6e7fd6c
  0x8734640c4998ff7e374b06ce1a64a2ecd82ab036384fb83d9a79b127a27d5032.
Definition sig2_r : Z := point_x sig2_R.
Definition sig2_hash : list byte :=
  [x5e; xcb; xe4; xd1; xa6; x33; x0a; x44;
   xc8; xf7; xef; x95; x1d; x4b; xf1; x65;
   xe6; xc6; xb7; x21; xef; xad; xa9; x85;
   xfb; x41; x66; x1b; xc6; xe7; xfd; x6c].
(** The inverse of [s] modulo the order of secp256r1. *)
Definition sig2_w : Z :=
  93457758721867997920248100966776331165632317925606066563969846035176507369043.

(** The same with the base point itself as the key: [R = G + G]. *)
Definition sig1_key : ECDSAPublicKey :=
  mk_key secp256r1 (point_x (curve_g secp256r1)) (point_y (curve_g secp256r1)).
Definition sig1_R : ECDSAPoint := mk_point
  0x7cf27b188d034f7e8a52380304b51ac3c08969e277f21b35a60b48fc47669978
  0x07775510db8ed040293d9ac69f7430dbba7dade63ce982299e04b79d227873d1.
Definition sig1_r : Z := point_x sig1_R.
Definition sig1_hash : list byte :=
  [x7c; xf2; x7b; x18; x8d; x03; x4f; x7e;
   x8a; x52; x38; x03; x04; xb5; x1a; xc3;
   xc0; x89; x69; xe2; x77; xf2; x1b; x35;
   xa6; x0b; x48; xfc; x47; x66; x99; x78].
Definition sig1_w : Z :=
  29929674377335052477781249265985074239232201669056697690576728156818358003039.

End Signatures.

(** * Facts about the byte utilities *)

Module BinaryFacts.
Import Binary BinarySpec.

Lemma byte_to_Z_range b : 0 <= byte_to_Z b < 256.
Proof.
  unfold byte_to_Z. pose proof (Byte.to_N_bounded b). lia.
Qed.

Lemma bigIntFromBytes_loop_be bytes : forall len i decoded,
  len = (i + List.length bytes)%nat ->
  bigIntFromBytes_loop len i bytes decoded = decoded + be_value bytes.
Proof.
  induction bytes as [|b rest IH]; intros len i decoded Hlen; cbn [bigIntFromBytes_loop be_value].
  - lia.
  - rewrite IH by (cbn [List.length] in Hlen; lia).
    cbn [List.length] in Hlen.
    replace (len - 1 - i)%nat with (List.length rest) by lia.
    rewrite Z.shiftl_mul_pow2 by lia.
    replace (Z.of_nat (List.length rest) * 8) with (8 * Z.of_nat (List.length rest)) by lia.
    rewrite Z.pow_mul_r by lia. change (2 ^ 8) with 256. lia.
Qed.

Lemma bigIntFromBytes_be bytes : bigIntFromBytes bytes = be_value bytes.
Proof.
  unfold bigIntFromBytes. now rewrite bigIntFromBytes_loop_be.
Qed.

Lemma byte_to_of_Z z : byte_to_Z (byte_of_Z z) = z mod 256.
Proof.
  unfold byte_to_Z, byte_of_Z.
  pose proof (Z.mod_pos_bound z 256 eq_refl) as Hb.
  destruct (Byte.of_N (Z.to_N (z mod 256))) as [b|] eqn:E.
  - apply Byte.to_of_N in E. rewrite E. lia.
  - apply Byte.of_N_None_iff in E. lia.
Qed.

Lemma be_value_app l1 : forall l2,
  be_value (l1 ++ l2) = be_value l1 * 256 ^ Z.of_nat (List.length l2) + be_value l2.
Proof.
  induction l1 as [|b l1 IH]; intros l2; cbn [app be_value].
  - lia.
  - rewrite IH, length_app, Nat2Z.inj_add, Z.pow_add_r by lia. ring.
Qed.

Lemma be_value_zeros k : be_value (repeat x00 k) = 0.
Proof.
  induction k as [|k IH]; cbn [repeat be_value]; [reflexivity|].
  rewrite IH. change (byte_to_Z x00) with 0. lia.
Qed.

Lemma be_value_padded k l : be_value (repeat x00 k ++ l) = be_value l.
Proof. rewrite be_value_app, be_value_zeros. lia. Qed.

Lemma be_digits_succ n v :
  be_digits (S n) v = byte_of_Z (Z.land (Z.shiftr v (Z.of_nat n * 8)) 255) :: be_digits n v.
Proof.
  unfold be_digits. cbn [seq map].
  replace (S n - 0 - 1)%nat with n by lia. f_equal.
  rewrite <- seq_shift, map_map. apply map_ext. intros i.
  now replace (S n - S i - 1)%nat with (n - i - 1)%nat by lia.
Qed.

Lemma be_digits_length n v : List.length (be_digits n v) = n.
Proof. unfold be_digits. now rewrite length_map, length_seq. Qed.

Lemma be_digits_value n v : 0 <= v -> be_value (be_digits n v) = v mod 256 ^ Z.of_nat n.
Proof.
  intros Hv. induction n as [|n IH].
  - cbn. now rewrite Z.mod_1_r.
  - rewrite be_digits_succ. cbn [be_value]. rewrite IH, be_digits_length, byte_to_of_Z.
    change 255 with (Z.ones 8). rewrite Z.land_ones by lia.
    rewrite Z.shiftr_div_pow2 by lia.
    replace (2 ^ (Z.of_nat n * 8)) with (256 ^ Z.of_nat n)
      by (change 256 with (2 ^ 8); rewrite <- Z.pow_mul_r by lia; f_equal; lia).
    change (2 ^ 8) with 256.
    rewrite Z.mod_mod by lia.
    rewrite Nat2Z.inj_succ, Z.pow_succ_r by lia.
    assert (Hpos : 0 < 256 ^ Z.of_nat n) by (apply Z.pow_pos_nonneg; lia).
    rewrite (Z.mul_comm 256), Z.rem_mul_r by lia. ring.
Qed.

Lemma bigIntBytes_digits v : 0 <= v -> bigIntBytes v = be_digits (byteLength v) v.
Proof.
  intros Hv. unfold bigIntBytes. destruct (Z.ltb_spec v 0); [lia|]. reflexivity.
Qed.

Lemma byteLength_bound v : 0 <= v -> v < 256 ^ Z.of_nat (byteLength v).
Proof.
  intros Hv. unfold byteLength. destruct (Z.leb_spec v 0).
  - assert (v = 0) by lia. subst. reflexivity.
  - pose proof (Z.log2_nonneg v). pose proof (Z.log2_spec v ltac:(lia)) as [_ Hlt].
    assert (0 <= Z.log2 v / 8) by (apply Z.div_pos; lia).
    rewrite Z2Nat.id by lia.
    change 256 with (2 ^ 8). rewrite <- Z.pow_mul_r by lia.
    eapply Z.lt_le_trans; [exact Hlt|]. apply Z.pow_le_mono_r; [lia|].
    pose proof (Z.div_mod (Z.log2 v) 8 ltac:(lia)).
    pose proof (Z.mod_pos_bound (Z.log2 v) 8 eq_refl). lia.
Qed.

Lemma byteLength_le v size :
  0 <= v -> v < 256 ^ Z.of_nat size -> (1 <= size)%nat -> (byteLength v <= size)%nat.
Proof.
  intros Hv Hlt Hsize. unfold byteLength. destruct (Z.leb_spec v 0); [assumption|].
  change 256 with (2 ^ 8) in Hlt. rewrite <- Z.pow_mul_r in Hlt by lia.
  apply Z.log2_lt_pow2 in Hlt; [|lia].
  pose proof (Z.log2_nonneg v).
  assert (Z.log2 v / 8 < Z.of_nat size) by (apply Z.div_lt_upper_bound; lia).
  lia.
Qed.

Lemma bigIntBytes_length v : 0 <= v -> List.length (bigIntBytes v) = byteLength v.
Proof. intros Hv. now rewrite bigIntBytes_digits, be_digits_length. Qed.

Lemma bigIntBytes_value v : 0 <= v -> be_value (bigIntBytes v) = v.
Proof.
  intros Hv. rewrite bigIntBytes_digits, be_digits_value by assumption.
  apply Z.mod_small. split; [assumption|]. now apply byteLength_bound.
Qed.

End BinaryFacts.

(** * Facts about [ecdsa/math.ts] *)

Module MathFacts.
Import Binary MathTs MathSpec.

Lemma euclideanMod_pos x y : 0 < y -> euclideanMod x y = Ok (x mod y).
Proof.
  intros Hy. unfold euclideanMod, bigint_rem.
  destruct (Z.eqb_spec y 0) as [->|_]; [lia|]. cbn [bind].
  pose proof (Z.quot_rem' x y) as Hqr.
  destruct (Z.ltb_spec (Z.rem x y) 0) as [Hneg|Hpos]; f_equal.
  - assert (x < 0) by (destruct (Z.lt_ge_cases x 0); [assumption|];
      pose proof (Z.rem_nonneg x y ltac:(lia) ltac:(lia)); lia).
    pose proof (Z.rem_bound_pos_neg x y ltac:(lia) ltac:(lia)).
    apply (Z.mod_unique_pos x y (Z.quot x y - 1)); lia.
  - assert (Z.rem x y < y).
    { destruct (Z.lt_ge_cases x 0).
      - pose proof (Z.rem_bound_pos_neg x y ltac:(lia) ltac:(lia)). lia.
      - pose proof (Z.rem_bound_pos_pos x y ltac:(lia) ltac:(lia)). lia. }
    apply (Z.mod_unique_pos x y (Z.quot x y)); lia.
Qed.

Lemma rem_nonneg x y : 0 <= x -> 0 < y -> Z.rem x y = x mod y.
Proof. intros. apply Z.rem_mod_nonneg; lia. Qed.

Lemma quot_nonneg x y : 0 <= x -> 0 < y -> Z.quot x y = x / y.
Proof. intros. apply Z.quot_div_nonneg; lia. Qed.

Lemma egcd_step_inv a n st :
  egcd_inv a n st -> remainder st <> 0 -> egcd_inv a n (egcd_step st).
Proof.
  intros [Hd Hn Hr Hq Hs3 H1 H2 Hg (sg & Hsg & Hp1 & Hp2 & Hdet) Ho] Hne.
  assert (Hrpos : 0 < remainder st).
  { rewrite Hr in *. pose proof (Z.mod_pos_bound (dividend st) (divisor st) Hd). lia. }
  assert (Hqnn : 0 <= quotient st).
  { rewrite Hq. apply Z.div_pos; lia. }
  assert (Hdiv : dividend st = divisor st * quotient st + remainder st).
  { rewrite Hr, Hq. apply Z.div_mod. lia. }
  unfold egcd_step. constructor; cbn [dividend divisor remainder quotient s1 s2 s3].
  - assumption.
  - lia.
  - apply rem_nonneg; lia.
  - apply quot_nonneg; lia.
  - reflexivity.
  - assumption.
  - rewrite Hs3.
    replace ((s1 st - quotient st * s2 st) * a - remainder st)
      with ((s1 st * a - dividend st) - quotient st * (s2 st * a - divisor st)) by lia.
    apply Z.divide_sub_r; [assumption|]. now apply Z.divide_mul_r.
  - rewrite <- Hg, Hr, (Z.gcd_comm (divisor st)), Z.gcd_mod by lia.
    apply Z.gcd_comm.
  - exists (- sg). repeat split.
    + lia.
    + lia.
    + rewrite Hs3. nia.
    + rewrite Hs3. nia.
  - right. rewrite Hr. apply Z.mod_pos_bound. lia.
Qed.

Lemma egcd_loop_stops a n k :
  0 <= k ->
  forall st turns,
    egcd_inv a n st -> remainder st < 2 ^ k -> (Z.to_nat (2 * k) <= turns)%nat ->
    egcd_inv a n (egcd_loop turns st) /\ remainder (egcd_loop turns st) = 0.
Proof.
  intros Hk. pattern k. apply natlike_ind; [| |exact Hk]; clear k Hk.
  - intros st turns Hinv Hlt _.
    assert (remainder st = 0).
    { pose proof (inv_remainder _ _ _ Hinv).
      pose proof (Z.mod_pos_bound (dividend st) (divisor st) (inv_divisor_pos _ _ _ Hinv)).
      change (2 ^ 0) with 1 in Hlt. lia. }
    destruct turns; cbn; rewrite H; cbn; auto.
  - intros k Hk IH st turns Hinv Hlt Hturns.
    rewrite Z.pow_succ_r in Hlt by lia.
    destruct turns as [|[|turns]]; try lia.
    cbn [egcd_loop].
    destruct (Z.eqb_spec (remainder st) 0) as [E|E]; [auto|].
    pose proof (egcd_step_inv _ _ _ Hinv E) as Hinv1.
    destruct (Z.eqb_spec (remainder (egcd_step st)) 0) as [E1|E1]; [auto|].
    pose proof (egcd_step_inv _ _ _ Hinv1 E1) as Hinv2.
    apply IH; [assumption| |lia].
    (* the remainder after two turns is below half the remainder before *)
    pose proof (inv_remainder _ _ _ Hinv2) as R2. 
    pose proof (inv_divisor_pos _ _ _ Hinv2) as D2.
    pose proof (inv_remainder _ _ _ Hinv1) as R1.
    pose proof (inv_divisor_pos _ _ _ Hinv1) as D1.
    pose proof (inv_remainder _ _ _ Hinv) as R0.
    pose proof (inv_divisor_pos _ _ _ Hinv) as D0.
    cbn [egcd_step remainder divisor dividend quotient s1 s2 s3] in R2, D2, R1, D1 |- *.
    set (r0 := remainder st) in *. set (d0 := divisor st) in *.
    rewrite R2. rewrite R1 in *. clear R1 R2.
    pose proof (Z.mod_pos_bound r0 (d0 mod r0) D2).
    pose proof (Z.div_mod r0 (d0 mod r0) ltac:(lia)).
    pose proof (Z.mod_pos_bound d0 r0 D1).
    assert (1 <= r0 / (d0 mod r0)) by (apply Z.div_le_lower_bound; lia).
    nia.
Qed.

Lemma egcd_initial a n :
  0 < n ->
  let a' := if a <? 0 then a mod n else a in
  egcd_inv a n (mk_egcd a' n (Z.rem a' n) (Z.quot a' n) 1 0 (1 - Z.quot a' n * 0)).
Proof.
  intros Hn a'.
  assert (Ha' : 0 <= a').
  { subst a'. destruct (Z.ltb_spec a 0); [apply Z.mod_pos_bound|]; lia. }
  assert (Hcong : (n | a - a')).
  { subst a'. destruct (Z.ltb_spec a 0).
    - exists (a / n). pose proof (Z.div_mod a n ltac:(lia)). lia.
    - exists 0. lia. }
  constructor; cbn [dividend divisor remainder quotient s1 s2 s3].
  - assumption.
  - assumption.
  - apply rem_nonneg; lia.
  - apply quot_nonneg; lia.
  - reflexivity.
  - now rewrite Z.mul_1_l.
  - exists (-1). lia.
  - subst a'. destruct (Z.ltb_spec a 0); [|reflexivity].
    rewrite Z.gcd_mod by lia. apply Z.gcd_comm.
  - exists 1. lia.
  - now left.
Qed.

Lemma egcd_final a n st :
  egcd_inv a n st -> remainder st = 0 -> divisor st = Z.gcd a n.
Proof.
  intros Hinv H0. rewrite <- (inv_gcd _ _ _ Hinv).
  pose proof (inv_divisor_pos _ _ _ Hinv).
  rewrite Z.gcd_comm. symmetry. apply Z.divide_gcd_iff; [lia|].
  apply Z.mod_divide; [lia|]. now rewrite <- (inv_remainder _ _ _ Hinv).
Qed.

Lemma egcd_coefficient_bound a n st :
  1 < n -> egcd_inv a n st -> divisor st = 1 -> - n < s2 st < n.
Proof.
  intros Hn Hinv H1.
  destruct (inv_sign _ _ _ Hinv) as (sg & Hsg & Hp1 & Hp2 & Hdet).
  pose proof (inv_dividend_nonneg _ _ _ Hinv).
  destruct (inv_order _ _ _ Hinv) as [E|Hlt]; [lia|].
  rewrite H1 in *. destruct Hsg; subst sg; nia.
Qed.

Lemma inverseMod_unfold a n :
  0 < n ->
  let a' := if a <? 0 then a mod n else a in
  let st := egcd_loop (egcd_turns n)
              (mk_egcd a' n (Z.rem a' n) (Z.quot a' n) 1 0 (1 - Z.quot a' n * 0)) in
  inverseMod a n =
    if negb (divisor st =? 1) then Throw (Error not_coprime_msg)
    else if s2 st <? 0 then Ok (s2 st + n) else Ok (s2 st).
Proof.
  intros Hn a' st. unfold inverseMod.
  destruct (Z.ltb_spec n 0); [lia|].
  assert (E : (if a <? 0 then euclideanMod a n else Ok a) = Ok a').
  { subst a'. destruct (a <? 0); [now apply euclideanMod_pos|reflexivity]. }
  rewrite E. cbn [bind]. unfold bigint_rem, bigint_div.
  destruct (Z.eqb_spec n 0); [lia|]. reflexivity.
Qed.

Lemma inverseMod_neg_modulus a n : inverseMod a n = inverseMod a (Z.abs n).
Proof.
  unfold inverseMod.
  destruct (Z.ltb_spec n 0) as [H|H];
    destruct (Z.ltb_spec (Z.abs n) 0) as [H'|H']; try lia.
  - replace (n * -1) with (Z.abs n) by lia. reflexivity.
  - replace (Z.abs n) with n by lia. reflexivity.
Qed.

Lemma inverseMod_loop_result a n :
  0 < n ->
  let a' := if a <? 0 then a mod n else a in
  let st := egcd_loop (egcd_turns n)
              (mk_egcd a' n (Z.rem a' n) (Z.quot a' n) 1 0 (1 - Z.quot a' n * 0)) in
  egcd_inv a n st /\ remainder st = 0.
Proof.
  intros Hn a' st. subst st.
  apply (egcd_loop_stops a n (Z.log2 n + 1)).
  - pose proof (Z.log2_nonneg n). lia.
  - now apply egcd_initial.
  - cbn [remainder]. 
    assert (0 <= a') by (subst a'; destruct (Z.ltb_spec a 0); [apply Z.mod_pos_bound|]; lia).
    rewrite rem_nonneg by lia.
    pose proof (Z.mod_pos_bound a' n Hn).
    pose proof (Z.log2_spec n Hn). 
    replace (Z.log2 n + 1) with (Z.succ (Z.log2 n)) by lia. lia.
  - unfold egcd_turns. lia.
Qed.

(** [x % n] sees a non-negative [x] through its residue modulo [|n|]. *)
Lemma rem_nonneg_abs x n : 0 <= x -> n <> 0 -> Z.rem x n = x mod Z.abs n.
Proof.
  intros Hx Hn. rewrite <- (Z.rem_abs_r x n) by assumption.
  apply Z.rem_mod_nonneg; lia.
Qed.

Lemma rem_nonpos_abs x n : x <= 0 -> n <> 0 -> Z.rem x n = - ((- x) mod Z.abs n).
Proof.
  intros Hx Hn.
  replace x with (- - x) at 1 by lia.
  rewrite Z.rem_opp_l by assumption. f_equal. apply rem_nonneg_abs; lia.
Qed.

Lemma euclideanMod_add_modulus r n w :
  1 <= r -> 1 <= r + n ->
  euclideanMod ((r + n) * w) n = euclideanMod (r * w) n.
Proof.
  intros Hr Hrn. unfold euclideanMod, bigint_rem.
  destruct (Z.eqb_spec n 0) as [->|Hn]; [reflexivity|]. cbn [bind].
  enough (E : Z.rem ((r + n) * w) n = Z.rem (r * w) n) by now rewrite E.
  destruct (Z.le_ge_cases 0 w) as [Hw|Hw].
  - rewrite !rem_nonneg_abs by nia.
    replace ((r + n) * w) with (r * w + (Z.sgn n * w) * Z.abs n)
      by (rewrite <- (Z.sgn_abs n) at 1; ring_simplify; pose proof (Z.sgn_abs n); nia).
    apply Z.mod_add. lia.
  - rewrite !rem_nonpos_abs by nia. f_equal.
    replace (- ((r + n) * w)) with (- (r * w) + (- Z.sgn n * w) * Z.abs n)
      by (pose proof (Z.sgn_abs n); nia).
    apply Z.mod_add. lia.
Qed.

Lemma euclideanMod_add_modulus_1 r n :
  1 <= r -> 1 <= r + n -> euclideanMod (r + n) n = euclideanMod r n.
Proof.
  intros Hr Hrn. pose proof (euclideanMod_add_modulus r n 1 Hr Hrn) as E.
  now rewrite !Z.mul_1_r in E.
Qed.

Lemma inverseMod_correct (a n : Z) :
  1 < Z.abs n ->
  (Z.gcd a n = 1 ->
     exists s, inverseMod a n = Ok s /\ 0 <= s < Z.abs n /\ (n | a * s - 1)) /\
  (Z.gcd a n <> 1 -> inverseMod a n = Throw (Error not_coprime_msg)).
Proof.
  intros Hn. rewrite inverseMod_neg_modulus.
  assert (Hpos : 0 < Z.abs n) by lia.
  rewrite (inverseMod_unfold a (Z.abs n) Hpos).
  destruct (inverseMod_loop_result a (Z.abs n) Hpos) as [Hinv Hrem].
  cbv zeta in *.
  set (st := egcd_loop _ _) in *.
  pose proof (egcd_final _ _ _ Hinv Hrem) as Hdiv.
  rewrite Z.gcd_abs_r in Hdiv.
  split; intros Hg.
  - rewrite Hdiv, Hg. cbn [Z.eqb Pos.eqb negb].
    rewrite Hg in Hdiv.
    pose proof (egcd_coefficient_bound _ _ _ Hn Hinv Hdiv) as Hb.
    pose proof (inv_s2 _ _ _ Hinv) as Hs2. rewrite Hdiv in Hs2.
    apply (proj1 (Z.divide_abs_l _ _)) in Hs2.
    destruct (Z.ltb_spec (s2 st) 0).
    + eexists; split; [reflexivity|]. split; [lia|].
      replace (a * (s2 st + Z.abs n) - 1) with ((s2 st * a - 1) + a * Z.abs n) by lia.
      apply Z.divide_add_r; [assumption|].
      apply Z.divide_mul_r. apply Z.divide_abs_r. apply Z.divide_refl.
    + eexists; split; [reflexivity|]. split; [lia|].
      now rewrite Z.mul_comm.
  - rewrite Hdiv. destruct (Z.eqb_spec (Z.gcd a n) 1); [contradiction|reflexivity].
Qed.

Lemma inverseMod_one p : 1 < p -> inverseMod 1 p = Ok 1.
Proof.
  intros Hp.
  destruct (inverseMod_correct 1 p ltac:(lia)) as [H _].
  destruct (H (Z.gcd_1_l p)) as (s & -> & Hs & [k Hk]).
  f_equal. rewrite Z.abs_eq in Hs by lia.
  assert (k = 0) by nia. subst k. lia.
Qed.

End MathFacts.

(** * Arithmetic modulo a prime *)

Module NumberFacts.
Import MathSpec.

Lemma mul_mod_congr a a' b b' p :
  a mod p = a' mod p -> b mod p = b' mod p -> (a * b) mod p = (a' * b') mod p.
Proof.
  intros Ha Hb. destruct (Z.eq_dec p 0) as [->|Hp].
  - rewrite !Z.mod_0_r in *. now subst.
  - rewrite (Z.mul_mod a b), (Z.mul_mod a' b') by assumption. now rewrite Ha, Hb.
Qed.

Lemma pow_mod_congr a a' k p :
  a mod p = a' mod p -> (a ^ k) mod p = (a' ^ k) mod p.
Proof.
  intros Ha. rewrite <- (Z.mod_pow_l a), <- (Z.mod_pow_l a'). now rewrite Ha.
Qed.

Lemma rem_mod_congr x p : 0 < p -> (Z.rem x p) mod p = x mod p.
Proof.
  intros Hp. pose proof (Z.quot_rem' x p) as E.
  rewrite E at 2. rewrite Z.add_comm, Z.mul_comm. symmetry. apply Z.mod_add. lia.
Qed.


Lemma horner_quotient f x r : forall A B G,
  A - B = (x - r) * G ->
  horner f x A - horner f r B = (x - r) * horner (quotient_by f r B) x G.
Proof.
  induction f as [|a f IH]; intros A B G H; cbn [horner quotient_by].
  - assumption.
  - apply IH. nia.
Qed.

Lemma quotient_by_length f r : forall b, List.length (quotient_by f r b) = List.length f.
Proof. induction f; intros; cbn; auto. Qed.

Lemma mod_eq_divide a b p : 0 < p -> a mod p = b mod p <-> (p | a - b).
Proof.
  intros Hp. split; intros H.
  - apply Z.mod_divide; [lia|]. rewrite Zminus_mod, H, Z.sub_diag. apply Z.mod_0_l. lia.
  - apply Z.mod_divide in H; [|lia].
    replace a with (b + (a - b)) by ring.
    rewrite <- Z.add_mod_idemp_r, H, Z.add_0_r by lia. reflexivity.
Qed.

Lemma small_not_divide p d : 0 < Z.abs d < p -> ~ (p | d).
Proof.
  intros Hd [k Hk]. assert (k = 0) by nia. subst. lia.
Qed.

Section PrimeField.

Variable p : Z.
Hypothesis p_prime : Z.prime p.

Let p_ge_2 : 2 <= p := Z.prime_ge_2 p p_prime.

(** A polynomial whose leading coefficient is not zero modulo [p] has fewer
    roots modulo [p] than coefficients. *)
Lemma roots_bound : forall f l,
  hd 0 f mod p <> 0 ->
  NoDup l ->
  (forall r, In r l -> root_mod p f r) ->
  (List.length l < List.length f)%nat.
Proof.
  intros f. remember (List.length f) as n eqn:Hn. revert f Hn.
  induction n as [|n IH]; intros f Hn l Hlead Hnd Hroots.
  - destruct f; [|discriminate]. cbn [hd] in Hlead.
    rewrite Z.mod_0_l in Hlead by lia. contradiction.
  - destruct f as [|a f']; [discriminate|]. cbn [hd] in Hlead.
    destruct l as [|r l']; [cbn; lia|].
    cbn [List.length]. apply -> Nat.succ_lt_mono.
    destruct f' as [|a' f''].
    + (* constant polynomial: no root *)
      destruct (Hroots r (or_introl eq_refl)) as [_ Hr].
      unfold poly_eval in Hr. cbn in Hr. contradiction.
    + apply (IH (quotient_by (a' :: f'') r a)).
      * rewrite quotient_by_length. cbn [List.length] in Hn |- *. lia.
      * cbn [quotient_by hd]. assumption.
      * now inversion Hnd.
      * intros r' Hin.
        destruct (Hroots r (or_introl eq_refl)) as [Hr0 Hr].
        destruct (Hroots r' (or_intror Hin)) as [Hr'0 Hr'].
        split; [assumption|].
        assert (Hne : r' <> r) by (inversion Hnd; subst; congruence).
        pose proof (horner_quotient (a' :: f'') r' r a a 0 ltac:(lia)) as E.
        change (horner (a' :: f'') r' a) with (poly_eval (a :: a' :: f'') r') in E.
        change (horner (a' :: f'') r a) with (poly_eval (a :: a' :: f'') r) in E.
        fold (poly_eval (quotient_by (a' :: f'') r a) r') in E.
        assert (Hdiv : (p | (r' - r) * poly_eval (quotient_by (a' :: f'') r a) r')).
        { rewrite <- E. apply Z.divide_sub_r; apply Z.mod_divide; lia || assumption. }
        apply Z.divide_prime_mul in Hdiv; [|assumption].
        destruct Hdiv as [Hdiv|Hdiv].
        -- exfalso. revert Hdiv. apply small_not_divide. lia.
        -- apply Z.mod_divide; [lia|assumption].
Qed.

End PrimeField.

Lemma horner_zeros k x c : forall A,
  horner (repeat 0 k ++ [c]) x A = A * x ^ (Z.of_nat k + 1) + c.
Proof.
  induction k as [|k IH]; intros A.
  - cbn [repeat app horner]. change (Z.of_nat 0 + 1) with 1. rewrite Z.pow_1_r. reflexivity.
  - cbn [repeat app horner]. rewrite IH.
    replace (Z.of_nat (S k) + 1) with (Z.succ (Z.of_nat k + 1)) by lia.
    rewrite (Z.pow_succ_r x (Z.of_nat k + 1)) by lia. ring.
Qed.

Lemma power_minus_one_eval k x :
  poly_eval (power_minus_one k) x = x ^ (Z.of_nat k + 1) - 1.
Proof.
  unfold poly_eval, power_minus_one. cbn [horner]. rewrite horner_zeros. ring.
Qed.

Lemma range_NoDup n : NoDup (map Z.of_nat (seq 1 n)).
Proof.
  apply Finite.Injective_map_NoDup; [|apply seq_NoDup].
  intros a b. apply Nat2Z.inj.
Qed.

Lemma range_In n z : In z (map Z.of_nat (seq 1 n)) <-> 1 <= z <= Z.of_nat n.
Proof.
  rewrite in_map_iff. split.
  - intros (k & <- & Hk). apply in_seq in Hk. lia.
  - intros Hz. exists (Z.to_nat z). split; [lia|]. apply in_seq. lia.
Qed.

Section EulerCriterion.

Variable p : Z.
Hypothesis p_prime : Z.prime p.
Hypothesis p_odd : p mod 2 = 1.

Let p_ge_2 : 2 <= p := Z.prime_ge_2 p p_prime.

Lemma p_ge_3 : 3 <= p.
Proof. destruct (Z.eq_dec p 2) as [E|E]; [rewrite E in p_odd; discriminate|lia]. Qed.

Lemma half_double : 2 * ((p - 1) / 2) = p - 1.
Proof.
  pose proof (Z.div_mod p 2 ltac:(lia)) as H. rewrite p_odd in H.
  replace (p - 1) with (((p / 2)) * 2) by lia. rewrite Z.div_mul by lia. lia.
Qed.

(** The square roots of [1] modulo [p] are [1] and [p - 1]. *)
Lemma sqrt_one u : 0 <= u < p -> (u * u) mod p = 1 -> u = 1 \/ u = p - 1.
Proof.
  intros Hu H.
  assert (Hdiv : (p | (u - 1) * (u + 1))).
  { replace ((u - 1) * (u + 1)) with (u * u - 1) by ring.
    apply mod_eq_divide; [lia|]. rewrite H. symmetry. apply Z.mod_1_l. lia. }
  apply Z.divide_prime_mul in Hdiv; [|assumption].
  destruct Hdiv as [[k Hk]|[k Hk]].
  - left. assert (k = 0) by nia. lia.
  - right. assert (k = 1) by nia. lia.
Qed.

Lemma fermat_half a : a mod p <> 0 ->
  let u := a ^ ((p - 1) / 2) mod p in u = 1 \/ u = p - 1.
Proof.
  intros Ha u. apply sqrt_one.
  - apply Z.mod_pos_bound. lia.
  - subst u. rewrite <- Z.mul_mod by lia.
    rewrite <- Z.pow_add_r by (apply Z.div_pos; lia).
    replace ((p - 1) / 2 + (p - 1) / 2) with (p - 1) by (pose proof half_double; lia).
    now apply Z.fermat_nz.
Qed.

(** Some [z] in [[2, p)] has [z ^ ((p - 1) / 2) = -1 (mod p)]. *)
Lemma nonresidue_exists :
  exists z, 2 <= z < p /\ z ^ ((p - 1) / 2) mod p = p - 1.
Proof.
  pose proof p_ge_3 as H3. pose proof half_double as Hh.
  set (k := (p - 1) / 2) in *.
  assert (Hk : 1 <= k) by lia.
  set (l := map Z.of_nat (seq 1 (Z.to_nat (p - 1)))).
  destruct (Forall_Exists_dec (fun a => a ^ k mod p = 1)
              (fun a => Z.eq_dec (a ^ k mod p) 1) l) as [Hall|Hex].
  - exfalso.
    pose proof (roots_bound p p_prime (power_minus_one (Z.to_nat (k - 1))) l) as Hb.
    assert (Hlen : (List.length l < List.length (power_minus_one (Z.to_nat (k - 1))))%nat).
    { apply Hb.
      - cbn [power_minus_one hd]. rewrite Z.mod_1_l by lia. discriminate.
      - apply range_NoDup.
      - intros r Hin. rewrite Forall_forall in Hall. specialize (Hall r Hin).
        apply range_In in Hin. split; [lia|].
        rewrite power_minus_one_eval.
        replace (Z.of_nat (Z.to_nat (k - 1)) + 1) with k by lia.
        apply Z.mod_divide; [lia|]. apply mod_eq_divide; [lia|].
        rewrite Hall. symmetry. apply Z.mod_1_l. lia. }
    unfold l, power_minus_one in Hlen.
    rewrite length_map, length_seq in Hlen. cbn [List.length] in Hlen.
    rewrite length_app, repeat_length in Hlen. cbn [List.length] in Hlen. lia.
  - apply Exists_exists in Hex. destruct Hex as (z & Hin & Hz).
    apply range_In in Hin.
    assert (Hzp : z mod p <> 0) by (rewrite Z.mod_small; lia).
    destruct (fermat_half z Hzp) as [E|E]; [contradiction|].
    exists z. split; [|exact E].
    destruct (Z.eq_dec z 1) as [->|]; [|lia].
    rewrite Z.pow_1_l, Z.mod_1_l in Hz by lia. contradiction.
Qed.

(** Two numbers with the same square modulo [p] are equal or opposite. *)
Lemma sqrt_unique r x : 0 <= r < p -> x mod p <> 0 ->
  (r * r) mod p = (x * x) mod p -> r = x mod p \/ r = p - x mod p.
Proof.
  intros Hr Hx H.
  pose proof (Z.mod_pos_bound x p ltac:(lia)) as Hxb.
  assert (Hdiv : (p | (r - x mod p) * (r + x mod p))).
  { replace ((r - x mod p) * (r + x mod p)) with (r * r - (x mod p) * (x mod p)) by ring.
    apply mod_eq_divide; [lia|]. rewrite H. now rewrite <- Z.mul_mod by lia. }
  apply Z.divide_prime_mul in Hdiv; [|assumption].
  destruct Hdiv as [[k Hk]|[k Hk]].
  - left. assert (k = 0) by nia. lia.
  - right. assert (k = 1) by nia. lia.
Qed.

End EulerCriterion.

#[export] Instance congruent_equivalence p : Equivalence (congruent p).
Proof.
  unfold congruent. constructor.
  - intros a. reflexivity.
  - intros a b H. now symmetry.
  - intros a b c H1 H2. now transitivity (b mod p).
Qed.

#[export] Instance congruent_mul p : Proper (congruent p ==> congruent p ==> congruent p) Z.mul.
Proof. intros a a' Ha b b' Hb. now apply mul_mod_congr. Qed.

#[export] Instance congruent_pow p : Proper (congruent p ==> eq ==> congruent p) Z.pow.
Proof. intros a a' Ha e e' <-. now apply pow_mod_congr. Qed.

Lemma congruent_mod p a : congruent p (a mod p) a.
Proof.
  unfold congruent. destruct (Z.eq_dec p 0) as [->|Hp].
  - now rewrite !Z.mod_0_r.
  - now rewrite Z.mod_mod.
Qed.

Lemma eq_refl_congruent p a b : a = b -> congruent p a b.
Proof. now intros ->. Qed.

Lemma pow2_add x a b : 0 <= a -> 0 <= b -> x ^ (2 ^ (a + b)) = (x ^ (2 ^ a)) ^ (2 ^ b).
Proof.
  intros Ha Hb. rewrite Z.pow_add_r by assumption.
  rewrite Z.pow_mul_r by (apply Z.pow_nonneg; lia). reflexivity.
Qed.

#[export] Instance congruent_add p : Proper (congruent p ==> congruent p ==> congruent p) Z.add.
Proof.
  intros x x' Hx y y' Hy. unfold congruent in *.
  destruct (Z.eq_dec p 0) as [->|Hp].
  - rewrite !Z.mod_0_r in *. now subst.
  - rewrite (Z.add_mod x y), (Z.add_mod x' y') by assumption. now rewrite Hx, Hy.
Qed.

#[export] Instance congruent_sub p : Proper (congruent p ==> congruent p ==> congruent p) Z.sub.
Proof.
  intros x x' Hx y y' Hy. unfold congruent in *.
  destruct (Z.eq_dec p 0) as [->|Hp].
  - rewrite !Z.mod_0_r in *. now subst.
  - rewrite (Zminus_mod x y), (Zminus_mod x' y'). now rewrite Hx, Hy.
Qed.

Lemma congruent_divide p x y : 0 < p -> (p | x - y) -> congruent p x y.
Proof. intros Hp H. now apply mod_eq_divide. Qed.

End NumberFacts.

(** * [powmod] computes powers *)

Module PowmodFacts.
Import MathTs MathSpec MathFacts NumberFacts.

Lemma powmod_loop_spec p : 0 < p -> forall y res x,
  powmod_loop y res x p = Ok ((res * x ^ Z.pos y) mod p).
Proof.
  intros Hp. induction y as [y IH|y IH|]; intros res x; cbn [powmod_loop].
  - rewrite !euclideanMod_pos by assumption. cbn [bind]. rewrite IH. f_equal.
    rewrite Pos2Z.inj_xI.
    replace (x ^ (2 * Z.pos y + 1)) with (x * (x * x) ^ Z.pos y)
      by (rewrite Z.pow_add_r, Z.pow_mul_r, Z.pow_1_r, Z.pow_2_r by lia; ring).
    rewrite Z.mul_assoc.
    apply mul_mod_congr; [now rewrite Z.mod_mod by lia|].
    apply pow_mod_congr. now rewrite Z.mod_mod by lia.
  - rewrite !euclideanMod_pos by assumption. cbn [bind]. rewrite IH. f_equal.
    rewrite Pos2Z.inj_xO, Z.pow_mul_r, Z.pow_2_r by lia.
    apply mul_mod_congr; [reflexivity|].
    apply pow_mod_congr. now rewrite Z.mod_mod by lia.
  - rewrite euclideanMod_pos by assumption. now rewrite Z.pow_1_r.
Qed.

Lemma powmod_spec x y p : 1 < p -> 0 <= y -> powmod x y p = Ok (x ^ y mod p).
Proof.
  intros Hp Hy. unfold powmod, bigint_rem.
  destruct (Z.eqb_spec p 0); [lia|]. cbn [bind].
  destruct y as [|y|y]; [| |lia].
  - rewrite Z.pow_0_r, Z.mod_1_l by lia. reflexivity.
  - rewrite powmod_loop_spec by lia. f_equal. rewrite Z.mul_1_l.
    apply pow_mod_congr. apply rem_mod_congr. lia.
Qed.

End PowmodFacts.

(** * [tonelliShanks] finds square roots *)

Module TonelliFacts.
Import MathTs MathSpec MathFacts NumberFacts PowmodFacts.

Lemma factor_loop_spec : forall fuel q s,
  0 < q -> q < 2 ^ Z.of_nat fuel ->
  exists q' s', factor_loop fuel q s = Some (Ok (q', s')) /\
    s <= s' /\ q = q' * 2 ^ (s' - s) /\ 0 < q' /\ q' mod 2 = 1.
Proof.
  induction fuel as [|fuel IH]; intros q s Hq Hlt.
  - change (2 ^ Z.of_nat 0) with 1 in Hlt. lia.
  - cbn [factor_loop]. rewrite Z.rem_mod_nonneg by lia.
    pose proof (Z.mod_pos_bound q 2 eq_refl) as Hb.
    pose proof (Z.div_mod q 2 ltac:(lia)) as Hdm.
    destruct (Z.eqb_spec (q mod 2) 0) as [E|E].
    + rewrite Z.quot_div_nonneg by lia.
      rewrite Nat2Z.inj_succ, Z.pow_succ_r in Hlt by lia.
      destruct (IH (q / 2) (s + 1) ltac:(lia) ltac:(lia)) as (q' & s' & -> & Hs & Hq' & Hpos & Hodd).
      exists q', s'. split; [reflexivity|]. split; [lia|]. split; [|auto].
      replace (s' - s) with (Z.succ (s' - (s + 1))) by lia.
      rewrite Z.pow_succ_r by lia. lia.
    + exists q, s. split; [reflexivity|]. split; [lia|].
      rewrite Z.sub_diag, Z.pow_0_r. split; [lia|]. split; lia.
Qed.

Section Loops.

Variable p : Z.
Hypothesis p_prime : Z.prime p.
Hypothesis p_odd : p mod 2 = 1.

Let p_ge_3 : 3 <= p := p_ge_3 p p_prime p_odd.

Let k := (p - 1) / 2.

Lemma half_quot : Z.quot (p - 1) 2 = k.
Proof. apply Z.quot_div_nonneg; lia. Qed.

Lemma half_nonneg : 0 <= k.
Proof. apply Z.div_pos; lia. Qed.

Lemma nonresidue_loop_spec : forall gap fuel z0 z,
  z0 <= z -> z ^ k mod p = p - 1 ->
  Z.to_nat (z - z0) = gap -> (gap <= fuel)%nat ->
  exists z', nonresidue_loop fuel z0 p = Some (Ok z') /\ z' ^ k mod p = p - 1.
Proof.
  induction gap as [|gap IH]; intros fuel z0 z Hle Hz Hgap Hfuel.
  - assert (z0 = z) by lia. subst z0.
    exists z. split; [|assumption].
    destruct fuel; cbn [nonresidue_loop]; unfold lift;
      rewrite half_quot, powmod_spec by (lia || apply half_nonneg);
      cbn [fbind]; rewrite Hz, Z.eqb_refl; reflexivity.
  - destruct fuel as [|fuel]; [lia|].
    cbn [nonresidue_loop]. unfold lift.
    rewrite half_quot, powmod_spec by (lia || apply half_nonneg). cbn [fbind].
    destruct (Z.eqb_spec (z0 ^ k mod p) (p - 1)) as [E|E]; cbn [negb].
    + exists z0. split; [reflexivity|assumption].
    + apply (IH fuel (z0 + 1) z); lia.
Qed.

Lemma order_loop_spec t m : forall gap fuel i i0,
  1 <= i <= i0 -> i0 < m -> t ^ (2 ^ i0) mod p = 1 ->
  (forall j, 1 <= j < i -> t ^ (2 ^ j) mod p <> 1) ->
  Z.to_nat (i0 - i) = gap -> (gap <= fuel)%nat ->
  exists i', order_loop fuel i t m p = Some (Ok i') /\
    i <= i' <= i0 /\ t ^ (2 ^ i') mod p = 1 /\
    (forall j, 1 <= j < i' -> t ^ (2 ^ j) mod p <> 1).
Proof.
  induction gap as [|gap IH]; intros fuel i i0 Hi Hm Hi0 Hmin Hgap Hfuel.
  - assert (i = i0) by lia. subst i.
    exists i0. split; [|split; [lia|split; assumption]].
    destruct fuel; cbn [order_loop]; unfold lift, bigint_pow;
      (destruct (Z.leb_spec i0 m); [|lia]);
      (destruct (Z.eqb_spec i0 m); [lia|]);
      (destruct (Z.ltb_spec i0 0); [lia|]); cbn [fbind];
      rewrite powmod_spec by (lia || apply Z.pow_nonneg; lia);
      cbn [fbind]; rewrite Hi0; reflexivity.
  - destruct fuel as [|fuel]; [lia|].
    cbn [order_loop]. unfold lift, bigint_pow.
    destruct (Z.leb_spec i m); [|lia].
    destruct (Z.eqb_spec i m); [lia|].
    destruct (Z.ltb_spec i 0); [lia|]. cbn [fbind].
    rewrite powmod_spec by (lia || apply Z.pow_nonneg; lia). cbn [fbind].
    destruct (Z.eqb_spec (t ^ (2 ^ i) mod p) 1) as [E|E].
    + exists i. split; [reflexivity|]. split; [lia|]. split; assumption.
    + destruct (IH fuel (i + 1) i0) as (i' & Hr & Hb & H1 & H2); try lia; try assumption.
      * intros j Hj. destruct (Z.eq_dec j i) as [->|]; [assumption|apply Hmin; lia].
      * exists i'. split; [assumption|]. split; [lia|]. split; assumption.
Qed.

End Loops.

Section MainLoop.

Variables p n : Z.
Hypothesis p_prime : Z.prime p.
Hypothesis p_odd : p mod 2 = 1.

Let p_ge_3 : 3 <= p := p_ge_3 p p_prime p_odd.

Lemma congruent_minus_one u : 0 <= u < p -> congruent p u (-1) <-> u = p - 1.
Proof.
  intros Hu. unfold congruent. rewrite (Z.mod_small u) by lia.
  replace (-1 mod p) with (p - 1); [reflexivity|].
  apply (Z.mod_unique_pos _ _ (-1)); lia.
Qed.

Lemma congruent_one u : 0 <= u < p -> congruent p u 1 <-> u = 1.
Proof.
  intros Hu. unfold congruent. rewrite (Z.mod_small u), Z.mod_1_l by lia. reflexivity.
Qed.

Lemma congruent_square_one u :
  congruent p (u * u) 1 -> congruent p u 1 \/ congruent p u (-1).
Proof.
  intros H.
  assert (Hb : 0 <= u mod p < p) by (apply Z.mod_pos_bound; lia).
  destruct (sqrt_one p p_prime (u mod p) Hb) as [E|E].
  - rewrite <- Z.mul_mod by lia. unfold congruent in H. rewrite H. apply Z.mod_1_l. lia.
  - left. rewrite <- (congruent_mod p u). now apply congruent_one.
  - right. rewrite <- (congruent_mod p u). now apply congruent_minus_one.
Qed.

Lemma pow2_succ x a : 0 <= a -> x ^ (2 ^ (a + 1)) = x ^ (2 ^ a) * x ^ (2 ^ a).
Proof.
  intros Ha. rewrite Z.pow_add_r, Z.pow_1_r by lia.
  rewrite Z.pow_mul_r by (try apply Z.pow_nonneg; lia). apply Z.pow_2_r.
Qed.

Lemma ts_step r t c m i :
  ts_inv p n r t c m -> 1 <= i < m ->
  congruent p (t ^ (2 ^ i)) 1 -> ~ congruent p (t ^ (2 ^ (i - 1))) 1 ->
  let b := c ^ (2 ^ (m - i - 1)) mod p in
  ts_inv p n ((r * b) mod p) ((t * (b ^ 2 mod p)) mod p) (b ^ 2 mod p) i.
Proof.
  intros [Hr Ht Hm Hroot Hc Hord] Hi Hti Htj b.
  assert (Hpb : forall z, 0 <= z mod p < p) by (intros; apply Z.mod_pos_bound; lia).
  assert (Hu : congruent p (t ^ (2 ^ (i - 1))) (-1)).
  { destruct (congruent_square_one (t ^ (2 ^ (i - 1)))) as [E|E]; [|contradiction|assumption].
    rewrite <- pow2_succ by lia. now replace (i - 1 + 1) with i by lia. }
  assert (Hb : congruent p (b ^ (2 ^ i)) (-1)).
  { unfold b. rewrite congruent_mod. rewrite <- pow2_add by lia.
    now replace (m - i - 1 + i) with (m - 1) by lia. }
  assert (Hbb : congruent p ((b ^ 2) ^ (2 ^ (i - 1))) (-1)).
  { change (b ^ 2) with (b ^ (2 ^ 1)). rewrite <- pow2_add by lia.
    now replace (1 + (i - 1)) with i by lia. }
  constructor.
  - apply Hpb.
  - apply Hpb.
  - lia.
  - rewrite !congruent_mod.
    replace (r * b * (r * b)) with ((r * r) * b ^ 2) by ring.
    rewrite Hroot. apply eq_refl_congruent. ring.
  - rewrite congruent_mod. exact Hbb.
  - rewrite !congruent_mod. rewrite Z.pow_mul_l. rewrite Hu, Hbb. reflexivity.
Qed.

End MainLoop.

Section TonelliShanks.

Variable p : Z.
Hypothesis p_prime : Z.prime p.
Hypothesis p_odd : p mod 2 = 1.

Let p_ge_3 : 3 <= p := p_ge_3 p p_prime p_odd.

Lemma congruent_one_iff a : congruent p a 1 <-> a mod p = 1.
Proof. unfold congruent. now rewrite Z.mod_1_l by lia. Qed.

Lemma main_loop_spec n : forall bound fuel r t c m,
  ts_inv p n r t c m -> (Z.to_nat m <= bound)%nat -> (Z.to_nat m <= fuel)%nat ->
  exists r', main_loop fuel r t c m p = Some (Ok r') /\
    0 <= r' < p /\ congruent p (r' * r') n.
Proof.
  induction bound as [|bound IH]; intros fuel r t c m Hinv Hbound Hfuel.
  - pose proof (ts_m _ _ _ _ _ _ Hinv). lia.
  - pose proof Hinv as [Hr Ht Hm Hroot Hc Hord].
    destruct fuel as [|fuel]; [lia|].
    cbn [main_loop].
    destruct (Z.eqb_spec t 1) as [->|Ht1].
    + exists r. split; [reflexivity|]. split; [assumption|].
      now rewrite Hroot, Z.mul_1_l.
    + assert (Hnot1 : t ^ (2 ^ 0) mod p <> 1).
      { change (2 ^ 0) with 1. rewrite Z.pow_1_r, Z.mod_small by lia. exact Ht1. }
      assert (Hm2 : 2 <= m).
      { destruct (Z.eq_dec m 1) as [->|]; [|lia]. rewrite Z.sub_diag in Hord.
        now apply congruent_one_iff in Hord. }
      destruct (order_loop_spec p p_prime p_odd t m (Z.to_nat (m - 1 - 1)) (S fuel) 1 (m - 1))
        as (i & Hi & Hib & Hi1 & Himin); try lia.
      * now apply congruent_one_iff.
      * rewrite Hi. cbn [fbind]. unfold lift, bigint_pow.
        destruct (Z.ltb_spec (m - i - 1) 0); [lia|]. cbn [fbind].
        rewrite !powmod_spec by (try apply Z.pow_nonneg; lia). cbn [fbind].
        rewrite !euclideanMod_pos by lia. cbn [fbind].
        apply IH; [|lia|lia].
        apply ts_step; try assumption; try lia.
        -- now apply congruent_one_iff.
        -- rewrite congruent_one_iff.
           destruct (Z.eq_dec i 1) as [->|]; [exact Hnot1|apply Himin; lia].
Qed.


Let k := (p - 1) / 2.

Lemma euler_square x : x mod p <> 0 -> congruent p (((x * x) mod p) ^ k) 1.
Proof.
  intros Hx. rewrite congruent_mod, <- Z.pow_2_r, <- Z.pow_mul_r by (try apply Z.div_pos; lia).
  replace (2 * k) with (p - 1) by (pose proof (half_double p p_odd); lia).
  apply congruent_one_iff. now apply Z.fermat_nz.
Qed.

Lemma root_of_square r x :
  0 <= r < p -> x mod p <> 0 -> congruent p (r * r) ((x * x) mod p) ->
  r = x mod p \/ r = p - x mod p.
Proof.
  intros Hr Hx H. apply (sqrt_unique p p_prime); try assumption.
  rewrite congruent_mod in H. exact H.
Qed.

Lemma tonelliShanks_fast x fuel :
  p mod 4 = 3 -> x mod p <> 0 ->
  exists r, tonelliShanks fuel ((x * x) mod p) p = Some (Ok r) /\
    (r = x mod p \/ r = p - x mod p).
Proof.
  intros H4 Hx. unfold tonelliShanks.
  rewrite Z.rem_mod_nonneg, H4 by lia. change (3 =? 3) with true. cbv iota.
  rewrite Z.quot_div_nonneg by lia.
  rewrite powmod_spec by (try apply Z.div_pos; lia).
  eexists. split; [reflexivity|].
  apply root_of_square; [apply Z.mod_pos_bound; lia|assumption|].
  set (n0 := (x * x) mod p). set (e := (p + 1) / 4).
  assert (He : 0 <= e) by (apply Z.div_pos; lia).
  assert (Hk : 0 <= k) by (apply Z.div_pos; lia).
  assert (E : e + e = k + 1).
  { subst e k. pose proof (Z.div_mod p 4 ltac:(lia)) as Hd. rewrite H4 in Hd.
    replace (p + 1) with ((p / 4 + 1) * 4) by lia.
    replace (p - 1) with ((2 * (p / 4) + 1) * 2) by lia.
    rewrite !Z.div_mul by lia. lia. }
  rewrite !congruent_mod, <- Z.pow_add_r, E, Z.pow_add_r, Z.pow_1_r by lia.
  unfold n0 at 1. rewrite (euler_square x Hx), Z.mul_1_l. reflexivity.
Qed.

(** The general path with an explicit fuel: [z] is any number whose power
    [(p - 1) / 2] is [-1]; the search for it takes at most [z - 2] turns,
    the two other loops fewer turns than [p] has bits. *)
Lemma tonelliShanks_general_fuel x fuel z :
  p mod 4 <> 3 -> x mod p <> 0 ->
  2 <= z -> z ^ ((p - 1) / 2) mod p = p - 1 ->
  (Z.to_nat (z - 2) <= fuel)%nat -> p < 2 ^ Z.of_nat fuel ->
  exists r, tonelliShanks fuel ((x * x) mod p) p = Some (Ok r) /\
    (r = x mod p \/ r = p - x mod p).
Proof.
  intros H4 Hx Hz Hzk Hzfuel Hpow. unfold tonelliShanks.
  rewrite Z.rem_mod_nonneg by lia.
  destruct (Z.eqb_spec (p mod 4) 3) as [|_]; [contradiction|].
  set (n0 := (x * x) mod p).
  assert (Hk : 0 <= k) by (apply Z.div_pos; lia).
  pose proof (euler_square x Hx) as Heuler. fold n0 in Heuler.
  unfold lift at 1.
  rewrite (half_quot p p_prime p_odd), powmod_spec by lia. cbn [fbind].
  fold k. apply congruent_one_iff in Heuler. rewrite Heuler.
  destruct (Z.eqb_spec 1 (p - 1)) as [|_]; [lia|].
  destruct (factor_loop_spec fuel (p - 1) 0 ltac:(lia) ltac:(lia))
    as (q & s & -> & Hs & Hqs & Hq & Hqodd).
  cbn [fbind]. rewrite Z.sub_0_r in Hqs.
  assert (Hs1 : 1 <= s).
  { destruct (Z.eq_dec s 0) as [->|]; [|lia].
    rewrite Z.pow_0_r, Z.mul_1_r in Hqs.
    pose proof (Z.div_mod p 2 ltac:(lia)). pose proof (Z.div_mod q 2 ltac:(lia)). lia. }
  assert (Hkq : k = q * 2 ^ (s - 1)).
  { assert (E : 2 ^ s = 2 * 2 ^ (s - 1))
      by (rewrite <- Z.pow_succ_r by lia; f_equal; lia).
    subst k. rewrite Hqs, E.
    replace (q * (2 * 2 ^ (s - 1))) with (q * 2 ^ (s - 1) * 2) by ring.
    apply Z.div_mul. lia. }
  destruct (nonresidue_loop_spec p p_prime p_odd (Z.to_nat (z - 2)) fuel 2 z)
    as (z' & -> & Hz'); try lia; try assumption.
  cbn [fbind]. unfold lift.
  rewrite Z.quot_div_nonneg by lia.
  rewrite !powmod_spec by (try apply Z.div_pos; lia). cbn [fbind].
  assert (Hsbound : s < Z.of_nat fuel).
  { apply (Z.pow_lt_mono_r_iff 2); [lia|lia|].
    assert (0 < 2 ^ s) by (apply Z.pow_pos_nonneg; lia).
    assert (2 ^ s <= q * 2 ^ s) by nia. lia. }
  destruct (main_loop_spec n0 (Z.to_nat s) fuel
              (n0 ^ ((q + 1) / 2) mod p) (n0 ^ q mod p) (z' ^ q mod p) s)
    as (r & -> & Hr & Hroot); try lia.
  - assert (Hpb : forall u, 0 <= u mod p < p) by (intros; apply Z.mod_pos_bound; lia).
    assert (Hh : (q + 1) / 2 + (q + 1) / 2 = q + 1).
    { pose proof (Z.div_mod q 2 ltac:(lia)) as Hd. rewrite Hqodd in Hd.
      replace (q + 1) with ((q / 2 + 1) * 2) by lia. rewrite Z.div_mul by lia. lia. }
    constructor; try apply Hpb; try lia.
    + rewrite !congruent_mod, <- Z.pow_add_r, Hh, Z.pow_add_r, Z.pow_1_r
        by (try apply Z.div_pos; lia).
      reflexivity.
    + rewrite congruent_mod, <- Z.pow_mul_r, <- Hkq by (try apply Z.pow_nonneg; lia).
      unfold congruent. fold k in Hz'. rewrite Hz'.
      apply (Z.mod_unique_pos _ _ (-1)); lia.
    + rewrite congruent_mod, <- Z.pow_mul_r, <- Hkq by (try apply Z.pow_nonneg; lia).
      now apply congruent_one_iff.
  - exists r. split; [reflexivity|]. now apply root_of_square.
Qed.

Lemma tonelliShanks_general x fuel :
  p mod 4 <> 3 -> x mod p <> 0 -> (Z.to_nat p <= fuel)%nat ->
  exists r, tonelliShanks fuel ((x * x) mod p) p = Some (Ok r) /\
    (r = x mod p \/ r = p - x mod p).
Proof.
  intros H4 Hx Hfuel.
  destruct (nonresidue_exists p p_prime p_odd) as (z & Hz & Hzk).
  apply (tonelliShanks_general_fuel x fuel z); try assumption; try lia.
  apply Z.lt_le_trans with (2 ^ p); [apply Z.pow_gt_lin_r; lia|].
  apply Z.pow_le_mono_r; lia.
Qed.

Lemma tonelliShanks_root x fuel :
  x mod p <> 0 -> (Z.to_nat p <= fuel)%nat ->
  exists r, tonelliShanks fuel ((x * x) mod p) p = Some (Ok r) /\
    (r = x mod p \/ r = p - x mod p).
Proof.
  intros Hx Hfuel. destruct (Z.eq_dec (p mod 4) 3).
  - now apply tonelliShanks_fast.
  - now apply tonelliShanks_general.
Qed.

End TonelliShanks.

Lemma prime_17 : Z.prime 17.
Proof.
  split; [lia|]. intros n Hn [q Hq].
  assert (Hc : n = 2 \/ n = 3 \/ n = 4 \/ n = 5 \/ n = 6 \/ n = 7 \/ n = 8 \/ n = 9 \/
               n = 10 \/ n = 11 \/ n = 12 \/ n = 13 \/ n = 14 \/ n = 15 \/ n = 16) by lia.
  repeat (destruct Hc as [->|Hc]; [lia|]). subst n. lia.
Qed.

End TonelliFacts.

(** * The evaluator computes what the embedding computes *)

Module CurveEvalFacts.
Import Binary MathTs Curve CurveEval.
Import MathSpec MathFacts.

Lemma spec_bz z : BigZ.to_Z (bz z) = z.
Proof. apply BigZ.spec_of_Z. Qed.

(** Push [BigZ.to_Z] through the operations the evaluator uses. *)
Ltac bigz_push :=
  repeat first
    [ rewrite BigZ.spec_add | rewrite BigZ.spec_sub | rewrite BigZ.spec_mul
    | rewrite BigZ.spec_modulo | rewrite BigZ.spec_eqb | rewrite spec_bz ].

Lemma isAtInfinityB_spec j : isAtInfinityB j = isAtInfinity (of_jacobianB j).
Proof.
  unfold isAtInfinityB, isAtInfinity, of_jacobianB. cbn [jac_x jac_y jac_z].
  now bigz_push.
Qed.

Lemma of_pointAtInfinityB : of_jacobianB pointAtInfinityB = pointAtInfinity.
Proof.
  unfold of_jacobianB, pointAtInfinityB, pointAtInfinity. cbn [jacB_x jacB_y jacB_z].
  now rewrite !spec_bz.
Qed.

Lemma of_to_jacobianB j : of_jacobianB (to_jacobianB j) = j.
Proof.
  destruct j. unfold of_jacobianB, to_jacobianB. cbn [jacB_x jacB_y jacB_z jac_x jac_y jac_z].
  now rewrite !BigZ.spec_of_Z.
Qed.

Lemma pow_3_mul x : x ^ 3 = x * x * x.
Proof. ring. Qed.

Lemma pow_4_mul x : x ^ 4 = (x * x) * (x * x).
Proof. ring. Qed.

Section Simulation.

Variable this : ECDSANamedCurve.
Hypothesis p_pos : 0 < curve_p this.

Let p := bz (curve_p this).
Let a := bz (curve_a this).

Lemma doubleJacobianB_spec j :
  doubleJacobian this (of_jacobianB j) = Ok (of_jacobianB (doubleJacobianB p a j)).
Proof.
  unfold doubleJacobian, doubleJacobianB.
  rewrite <- isAtInfinityB_spec.
  destruct (isAtInfinityB j); [reflexivity|].
  cbn [of_jacobianB jac_x jac_y jac_z].
  rewrite BigZ.spec_eqb, spec_bz.
  destruct (BigZ.to_Z (jacB_y j) =? 0); [now rewrite of_pointAtInfinityB|].
  rewrite !euclideanMod_pos by assumption. cbn [bind].
  rewrite !euclideanMod_pos by assumption. cbn [bind].
  rewrite !euclideanMod_pos by assumption. cbn [bind].
  unfold of_jacobianB, p, a. cbv zeta. cbn [jacB_x jacB_y jacB_z].
  bigz_push.
  rewrite ?Z.pow_2_r, ?pow_3_mul, ?pow_4_mul. reflexivity.
Qed.

Lemma addJacobianB_spec j1 j2 :
  addJacobian this (of_jacobianB j1) (of_jacobianB j2) =
    Ok (of_jacobianB (addJacobianB p a j1 j2)).
Proof.
  unfold addJacobian, addJacobianB.
  rewrite <- !isAtInfinityB_spec.
  destruct (isAtInfinityB j1); [reflexivity|].
  destruct (isAtInfinityB j2); [reflexivity|].
  rewrite !euclideanMod_pos by assumption. cbn [bind]. cbv zeta.
  rewrite !BigZ.spec_eqb.
  cbn [of_jacobianB jac_x jac_y jac_z]. unfold p, a.
  bigz_push. rewrite ?Z.pow_2_r.
  match goal with |- context [if ?b then _ else _] => destruct b end.
  - match goal with |- context [if ?b then _ else _] => destruct b end.
    + now rewrite of_pointAtInfinityB.
    + apply doubleJacobianB_spec.
  - repeat (rewrite euclideanMod_pos by assumption; cbn [bind]).
    unfold of_jacobianB. cbn [jacB_x jacB_y jacB_z].
    bigz_push.
    rewrite ?Z.pow_2_r, ?pow_3_mul. reflexivity.
Qed.

Lemma multiply_loopB_spec kBytes todo : forall i res temp,
  multiply_loop this kBytes todo i (of_jacobianB res) (of_jacobianB temp) =
    Ok (of_jacobianB (multiply_loopB p a kBytes todo i res temp)).
Proof.
  induction todo as [|todo IH]; intros i res temp; cbn [multiply_loop multiply_loopB].
  - reflexivity.
  - rewrite doubleJacobianB_spec.
    destruct (multiply_bit kBytes i).
    + rewrite addJacobianB_spec. cbn [bind]. apply IH.
    + cbn [bind]. apply IH.
Qed.

Lemma multiply_by_eval k point :
  multiply this k point = toAffine this (multiply_eval this k point).
Proof.
  unfold multiply. cbv zeta.
  pose proof (multiply_loopB_spec (bigIntBytes k) (bitLength k) 0 pointAtInfinityB
                (to_jacobianB (mk_jacobian (point_x point) (point_y point) 1))) as E.
  rewrite of_pointAtInfinityB, of_to_jacobianB in E. rewrite E. reflexivity.
Qed.

End Simulation.

End CurveEvalFacts.

(** * Facts about [ecdsa/curve.ts] and the curve table *)

Module CurveFacts.
Import Binary MathTs Curve CurveSec CurveEval.
Import MathSpec MathFacts CurveEvalFacts.

Section CurveLaws.

Variable this : ECDSANamedCurve.
Hypothesis p_big : 1 < curve_p this.

Lemma doubleJacobian_total point : exists j, doubleJacobian this point = Ok j.
Proof.
  unfold doubleJacobian.
  destruct (isAtInfinity point); [eauto|].
  destruct (jac_y point =? 0); [eauto|].
  repeat (rewrite euclideanMod_pos by lia; cbn [bind]). eauto.
Qed.

Lemma toAffine_pointAtInfinity : toAffine this pointAtInfinity = Ok None.
Proof. reflexivity. Qed.

Lemma toAffine_fromAffine point :
  0 <= point_x point < curve_p this ->
  0 <= point_y point < curve_p this ->
  toAffine this (mk_jacobian (point_x point) (point_y point) 1) = Ok (Some point).
Proof.
  intros Hx Hy. unfold toAffine, isAtInfinity. cbn [jac_x jac_y jac_z].
  change (1 =? 0) with false. rewrite !andb_false_r.
  rewrite inverseMod_one by assumption. cbn [bind].
  rewrite !euclideanMod_pos by lia. cbn [bind].
  change (1 ^ 2) with 1. rewrite !Z.mul_1_r, !Z.mod_small by lia.
  now destruct point.
Qed.

Lemma multiply_zero point : multiply this 0 point = Ok None.
Proof.
  unfold multiply. change (bigIntBytes 0) with [x00]. change (bitLength 0) with 1%nat.
  cbv zeta. cbn [multiply_loop].
  change (multiply_bit [x00] 0) with false.
  destruct (doubleJacobian_total (mk_jacobian (point_x point) (point_y point) 1)) as [j ->].
  reflexivity.
Qed.

Lemma multiply_one point :
  0 <= point_x point < curve_p this ->
  0 <= point_y point < curve_p this ->
  multiply this 1 point = Ok (Some point).
Proof.
  intros Hx Hy.
  unfold multiply. change (bigIntBytes 1) with [x01]. change (bitLength 1) with 1%nat.
  cbv zeta. cbn [multiply_loop].
  change (multiply_bit [x01] 0) with true. cbv iota.
  change (addJacobian this pointAtInfinity ?t) with (Ok t). cbn [bind].
  destruct (doubleJacobian_total (mk_jacobian (point_x point) (point_y point) 1)) as [j ->].
  cbn [bind]. now apply toAffine_fromAffine.
Qed.

End CurveLaws.

Lemma isAtInfinity_eq j : isAtInfinity j = true -> j = pointAtInfinity.
Proof.
  destruct j as [x y z]. unfold isAtInfinity. cbn [jac_x jac_y jac_z].
  rewrite !andb_true_iff, !Z.eqb_eq. intros [[-> ->] ->]. reflexivity.
Qed.

Lemma multiply_null_by_eval c k point :
  0 < curve_p c ->
  isAtInfinity (multiply_eval c k point) = true ->
  multiply c k point = Ok None.
Proof.
  intros Hp H. rewrite multiply_by_eval by assumption.
  now rewrite (isAtInfinity_eq _ H).
Qed.

Lemma registry_order c : In c registry -> multiply c (curve_n c) (curve_g c) = Ok None.
Proof.
  intros Hin. apply multiply_null_by_eval.
  - cbn [registry In] in Hin.
    repeat (destruct Hin as [<-|Hin]; [reflexivity|]). contradiction.
  - cbn [registry In] in Hin.
    repeat (destruct Hin as [<-|Hin]; [vm_compute; reflexivity|]). contradiction.
Qed.

Lemma registry_modulus c : In c registry -> 1 < curve_p c.
Proof.
  intros Hin. cbn [registry In] in Hin.
  repeat (destruct Hin as [<-|Hin]; [reflexivity|]). contradiction.
Qed.

End CurveFacts.

(** * Soundness of the primality certificates *)

Module PrimalityFacts.
Import MathTs MathSpec MathFacts NumberFacts PowmodFacts.
Import CurveEval CurveEvalFacts PowmodEval Primality.

Lemma congruent_one_iff_gt1 P a : 1 < P -> congruent P a 1 <-> a mod P = 1.
Proof. intros HP. unfold congruent. now rewrite Z.mod_1_l by lia. Qed.


Lemma trial_loop_sound : forall fuel d n,
  2 <= d -> (forall m, 2 <= m < d -> ~ (m | n)) ->
  trial_loop fuel d n = true ->
  forall m, 2 <= m -> m * m <= n -> ~ (m | n).
Proof.
  induction fuel as [|fuel IH]; intros d n Hd Hnone; cbn [trial_loop].
  - destruct (Z.ltb_spec n (d * d)); [|discriminate].
    intros _ m Hm Hmm. apply Hnone. split; [lia|]. nia.
  - destruct (Z.ltb_spec n (d * d)).
    + intros _ m Hm Hmm. apply Hnone. split; [lia|]. nia.
    + destruct (Z.eqb_spec (n mod d) 0) as [|Hmod]; [discriminate|].
      apply IH; [lia|].
      intros m Hm. destruct (Z.eq_dec m d) as [->|].
      * intros Hdiv. apply Hmod. apply Z.mod_divide; [lia|assumption].
      * apply Hnone. lia.
Qed.

Lemma trial_prime_sound n : trial_prime n = true -> Z.prime n.
Proof.
  unfold trial_prime. rewrite andb_true_iff. intros [Hn Hloop].
  apply Z.ltb_lt in Hn.
  pose proof (trial_loop_sound _ 2 n ltac:(lia) ltac:(intros; lia) Hloop) as Hsmall.
  split; [assumption|].
  intros m Hm [c Hc].
  assert (Hcpos : 1 < c) by nia.
  destruct (Z.le_ge_cases m c).
  - apply (Hsmall m); [lia|nia|]. now exists c.
  - apply (Hsmall c); [lia|nia|]. exists m. lia.
Qed.

(** If [a ^ m = 1] and [a ^ n = 1] modulo [P] then [a ^ gcd(m, n) = 1]. *)
Lemma pow_gcd_one P a : 1 < P -> forall n, 0 <= n -> forall m, 0 <= m ->
  a ^ m mod P = 1 -> a ^ n mod P = 1 -> a ^ Z.gcd m n mod P = 1.
Proof.
  intros HP n Hn. pattern n. apply Z_lt_induction; [|exact Hn]. clear n Hn.
  intros n IH m Hm Ham Han.
  destruct (Z.eq_dec n 0) as [->|Hn0].
  - now rewrite Z.gcd_0_r, Z.abs_eq.
  - assert (Hn : 0 <= n).
    { destruct (Z.lt_ge_cases n 0) as [Hneg|]; [|assumption].
      rewrite Z.pow_neg_r, Z.mod_0_l in Han by lia. discriminate. }
    pose proof (Z.mod_pos_bound m n ltac:(lia)) as Hb.
    rewrite Z.gcd_comm, <- (Z.gcd_mod m n), Z.gcd_comm by lia.
    apply IH; try lia; try assumption.
    pose proof (Z.div_mod m n ltac:(lia)) as Hdm.
    assert (Hq : 0 <= m / n) by (apply Z.div_pos; lia).
    rewrite Hdm, Z.pow_add_r, Z.pow_mul_r in Ham by lia.
    apply congruent_one_iff_gt1 in Ham; [|assumption].
    apply congruent_one_iff_gt1; [assumption|].
    assert (E : congruent P (a ^ n) 1) by (apply congruent_one_iff_gt1; assumption).
    rewrite E, Z.pow_1_l, Z.mul_1_l in Ham by assumption. exact Ham.
Qed.

(** Every number above [1] has a prime divisor. *)
Lemma prime_divisor_exists n : 1 < n -> exists P, Z.prime P /\ (P | n).
Proof.
  intros Hn. assert (H0 : 0 <= n) by lia. revert Hn. pattern n.
  apply Z_lt_induction; [|exact H0]. clear n H0.
  intros n IH Hn.
  destruct (prime_dec n) as [Hp|Hnp].
  - exists n. split; [now apply prime_alt|apply Z.divide_refl].
  - destruct (not_prime_divide n Hn Hnp) as (d & Hd & Hdiv).
    destruct (IH d ltac:(lia) ltac:(lia)) as (P & HP & HPd).
    exists P. split; [assumption|]. now apply Z.divide_trans with d.
Qed.

(** A number above [1] all of whose prime divisors have a square above it
    is prime. *)
Lemma prime_by_large_divisors n :
  1 < n -> (forall P, Z.prime P -> (P | n) -> n < P * P) -> Z.prime n.
Proof.
  intros Hn Hlarge. apply prime_alt.
  destruct (prime_dec n) as [Hp|Hnp]; [assumption|exfalso].
  destruct (not_prime_divide n Hn Hnp) as (d & Hd & [c Hc]).
  assert (Hc1 : 1 < c) by nia.
  assert (Hsmall : exists w, 1 < w /\ w * w <= n /\ (w | n)).
  { destruct (Z.le_ge_cases d c).
    - exists d. split; [lia|]. split; [nia|]. now exists c.
    - exists c. split; [lia|]. split; [nia|]. exists d. lia. }
  destruct Hsmall as (w & Hw & Hww & Hwn).
  destruct (prime_divisor_exists w Hw) as (P & HP & HPw).
  pose proof (Z.prime_ge_2 P HP).
  assert (P <= w) by (apply Z.divide_pos_le; [lia|assumption]).
  specialize (Hlarge P HP (Z.divide_trans _ _ _ HPw Hwn)). nia.
Qed.

Lemma powmod_loopB_spec p : 0 < BigZ.to_Z p -> forall y res x,
  powmod_loop y (BigZ.to_Z res) (BigZ.to_Z x) (BigZ.to_Z p) =
    Ok (BigZ.to_Z (powmod_loopB y res x p)).
Proof.
  intros Hp. induction y as [y IH|y IH|]; intros res x; cbn [powmod_loop powmod_loopB].
  - rewrite !euclideanMod_pos by assumption. cbn [bind].
    rewrite <- IH. now rewrite !BigZ.spec_modulo, !BigZ.spec_mul.
  - rewrite !euclideanMod_pos by assumption. cbn [bind].
    rewrite <- IH. now rewrite !BigZ.spec_modulo, !BigZ.spec_mul.
  - rewrite euclideanMod_pos by assumption.
    now rewrite BigZ.spec_modulo, BigZ.spec_mul.
Qed.

Lemma powmod_by_eval x y p : 0 < p -> powmod x y p = Ok (powmod_eval x y p).
Proof.
  intros Hp. unfold powmod, powmod_eval, bigint_rem.
  destruct (Z.eqb_spec p 0); [lia|]. cbn [bind].
  destruct y as [|y|y]; try reflexivity.
  rewrite <- powmod_loopB_spec by (rewrite spec_bz; assumption).
  now rewrite !spec_bz.
Qed.

Lemma powmod_eval_spec x y p : 1 < p -> 0 <= y -> powmod_eval x y p = x ^ y mod p.
Proof.
  intros Hp Hy. pose proof (powmod_by_eval x y p ltac:(lia)) as E.
  rewrite powmod_spec in E by assumption. now injection E.
Qed.

Section Pocklington.

Variables N P : Z.
Hypothesis N_big : 1 < N.
Hypothesis P_prime : Z.prime P.
Hypothesis P_divides : (P | N).

Let P_ge_2 : 2 <= P := Z.prime_ge_2 P P_prime.

Lemma mod_one_divisor x : x mod N = 1 -> x mod P = 1.
Proof.
  intros H. rewrite <- (Z.mod_1_l P) by lia. apply mod_eq_divide; [lia|].
  apply Z.divide_trans with N; [assumption|].
  apply mod_eq_divide; [lia|]. rewrite H. symmetry. apply Z.mod_1_l. lia.
Qed.

Lemma pocklington_prime_power q e a :
  Z.prime q -> 1 <= e -> (q ^ e | N - 1) ->
  a ^ (N - 1) mod N = 1 ->
  Z.gcd (a ^ ((N - 1) / q) mod N - 1) N = 1 ->
  (q ^ e | P - 1).
Proof.
  intros Hq He Hqe Ha Hg.
  pose proof (Z.prime_ge_2 q Hq) as Hq2.
  assert (HaP : a ^ (N - 1) mod P = 1) by now apply mod_one_divisor.
  assert (Hanz : a mod P <> 0).
  { intros E. rewrite <- Z.mod_pow_l, E, Z.pow_0_l, Z.mod_0_l in HaP by lia. discriminate. }
  pose proof (Z.fermat_nz P a P_prime Hanz) as Hf.
  set (g := Z.gcd (N - 1) (P - 1)).
  assert (Hag : a ^ g mod P = 1) by (apply pow_gcd_one; lia || assumption).
  assert (Hgpos : 0 < g).
  { pose proof (Z.gcd_nonneg (N - 1) (P - 1)).
    destruct (Z.eq_dec g 0) as [E|]; [|subst g; lia].
    apply Z.gcd_eq_0_l in E. lia. }
  destruct (Z.gcd_divide_l (N - 1) (P - 1)) as [m Hm]. fold g in Hm.
  assert (Hm0 : 0 < m) by nia.
  assert (Hqm : ~ (q | m)).
  { intros [m' Hm'].
    assert (Hm'0 : 0 < m') by nia.
    assert (Hdiv : (N - 1) / q = g * m').
    { rewrite Hm, Hm'. replace (m' * q * g) with (g * m' * q) by ring. apply Z.div_mul. lia. }
    assert (Hone : a ^ ((N - 1) / q) mod P = 1).
    { rewrite Hdiv, Z.pow_mul_r by lia.
      apply congruent_one_iff_gt1; [lia|].
      assert (E : congruent P (a ^ g) 1) by (apply congruent_one_iff_gt1; [lia|assumption]).
      rewrite E. now rewrite Z.pow_1_l by lia. }
    assert (HPd : (P | a ^ ((N - 1) / q) mod N - 1)).
    { apply mod_eq_divide; [lia|].
      rewrite (Z.mod_mod_divide _ N P) by assumption.
      now rewrite Hone, Z.mod_1_l by lia. }
    assert (HP1 : (P | 1)).
    { rewrite <- Hg. apply Z.gcd_greatest; assumption. }
    apply Z.divide_1_r_nonneg in HP1; lia. }
  assert (Hcop : Z.gcd (q ^ e) m = 1).
  { apply Z.coprime_pow_l; [lia|]. now apply Z.coprime_prime_l. }
  apply Z.divide_trans with g; [|apply Z.gcd_divide_r].
  apply (Z.gauss _ m); [|assumption]. now rewrite <- Hm.
Qed.

End Pocklington.

Lemma divide_mul_coprime a b M : (a | M) -> (b | M) -> Z.gcd a b = 1 -> (a * b | M).
Proof.
  intros Ha [k Hk] Hg. subst M.
  apply (Z.gauss a b k) in Hg; [|now rewrite Z.mul_comm].
  destruct Hg as [k' ->]. exists k'. ring.
Qed.

Lemma increasing_head x rest : increasing (x :: rest) = true ->
  increasing rest = true /\ forall y, In y rest -> x < y.
Proof.
  revert x. induction rest as [|y rest IH]; intros x H.
  - split; [reflexivity|]. intros y [].
  - cbn [increasing] in H. fold (increasing (y :: rest)) in H.
    apply andb_true_iff in H. destruct H as [Hxy Hrest]. apply Z.ltb_lt in Hxy.
    split; [assumption|].
    destruct (IH y Hrest) as [_ Hy].
    intros z [<-|Hz]; [assumption|]. specialize (Hy z Hz). lia.
Qed.

Lemma pock_product_divides M : forall entries,
  (forall q e, In (q, e) entries -> Z.prime q /\ 1 <= e /\ (q ^ e | M)) ->
  increasing (map fst entries) = true ->
  0 < pock_product entries /\ (pock_product entries | M) /\
  (forall P, Z.prime P -> (P | pock_product entries) -> In P (map fst entries)).
Proof.
  induction entries as [|[q e] rest IH]; intros Hall Hinc.
  - cbn. split; [lia|]. split; [apply Z.divide_1_l|].
    intros P HP HP1. pose proof (Z.prime_ge_2 P HP).
    apply Z.divide_1_r_nonneg in HP1; lia.
  - cbn [map fst] in Hinc. apply increasing_head in Hinc. destruct Hinc as [Hinc Hlt].
    destruct (IH (fun q' e' H => Hall q' e' (or_intror H)) Hinc) as (Hpos & Hdiv & Hprimes).
    destruct (Hall q e (or_introl eq_refl)) as (Hq & He & Hqe).
    pose proof (Z.prime_ge_2 q Hq) as Hq2.
    cbn [pock_product fold_right fst snd]. fold (pock_product rest).
    assert (Hqpos : 0 < q ^ e) by (apply Z.pow_pos_nonneg; lia).
    split; [nia|]. split.
    + apply divide_mul_coprime; try assumption.
      apply Z.coprime_pow_l; [lia|]. apply Z.coprime_prime_l; [assumption|].
      intros Hdq. specialize (Hlt q (Hprimes q Hq Hdq)). lia.
    + intros P HP HPd. cbn [map fst].
      apply Z.divide_prime_mul in HPd; [|assumption].
      destruct HPd as [HPq|HPr]; [left|right; now apply Hprimes].
      apply Z.divide_prime_pp in HPq; try assumption; lia.
Qed.

Lemma check_step_sound proved step :
  Forall Z.prime proved -> check_step proved step = true -> Z.prime (fst (fst step)).
Proof.
  intros Hproved. destruct step as [[n a] entries]. cbn [fst].
  unfold check_step. rewrite !andb_true_iff.
  intros [[[[Hn Ha] Hentries] Hinc] Hsize].
  apply Z.ltb_lt in Hn. apply Z.eqb_eq in Ha. apply Z.ltb_lt in Hsize.
  rewrite powmod_eval_spec in Ha by lia.
  rewrite forallb_forall in Hentries.
  assert (Hfacts : forall q e, In (q, e) entries ->
            Z.prime q /\ 1 <= e /\ (q ^ e | n - 1) /\
            Z.gcd (a ^ ((n - 1) / q) mod n - 1) n = 1).
  { intros q e Hin. specialize (Hentries _ Hin). unfold check_entry in Hentries.
    rewrite !andb_true_iff in Hentries. destruct Hentries as [[[Hq He] Hdiv] Hg].
    apply Z.leb_le in He. apply Z.eqb_eq in Hdiv. apply Z.eqb_eq in Hg.
    assert (Hqp : Z.prime q).
    { destruct (existsb (Z.eqb q) proved) eqn:Hex.
      - apply existsb_exists in Hex. destruct Hex as (q' & Hin' & E).
        apply Z.eqb_eq in E. subst q'. rewrite Forall_forall in Hproved. now apply Hproved.
      - now apply trial_prime_sound. }
    pose proof (Z.prime_ge_2 q Hqp).
    assert (0 < q ^ e) by (apply Z.pow_pos_nonneg; lia).
    rewrite powmod_eval_spec in Hg by (try apply Z.div_pos; lia).
    split; [assumption|]. split; [assumption|]. split; [|assumption].
    apply Z.mod_divide; [lia|assumption]. }
  apply prime_by_large_divisors; [assumption|].
  intros P HP HPn. pose proof (Z.prime_ge_2 P HP).
  destruct (pock_product_divides (P - 1) entries) as (Hpos & Hdiv & _); [|assumption|].
  - intros q e Hin. destruct (Hfacts q e Hin) as (Hq & He & Hqe & Hg).
    split; [assumption|]. split; [assumption|].
    now apply (pocklington_prime_power n P Hn HP HPn q e a).
  - apply Z.divide_pos_le in Hdiv; [|lia]. nia.
Qed.

Lemma check_steps_sound : forall steps proved,
  Forall Z.prime proved -> check_steps proved steps = true ->
  Forall Z.prime (map (fun step => fst (fst step)) steps).
Proof.
  induction steps as [|step rest IH]; intros proved Hproved H; cbn [map].
  - constructor.
  - cbn [check_steps] in H. apply andb_true_iff in H. destruct H as [Hstep Hrest].
    pose proof (check_step_sound proved step Hproved Hstep) as Hp.
    constructor; [assumption|]. apply (IH (fst (fst step) :: proved)); [|assumption].
    now constructor.
Qed.

End PrimalityFacts.

(** * Soundness of the check for cubics without a root *)

Module CubicFacts.
Import MathSpec NumberFacts CurveEval CurveEvalFacts Cubic.

Section CubicRoots.

Variables p a b r : Z.
Hypothesis p_pos : 1 < p.
Hypothesis r_root : (r ^ 3 + a * r + b) mod p = 0.

Lemma cubic_mul_value c d :
  congruent p (cubic_value r (cubic_mul (bz p) (bz a) (bz b) c d))
              (cubic_value r c * cubic_value r d).
Proof.
  unfold cubic_value, cubic_mul. cbn [cub0 cub1 cub2].
  bigz_push. rewrite !congruent_mod.
  apply congruent_divide; [lia|].
  set (c0 := BigZ.to_Z (cub0 c)). set (c1 := BigZ.to_Z (cub1 c)). set (c2 := BigZ.to_Z (cub2 c)).
  set (d0 := BigZ.to_Z (cub0 d)). set (d1 := BigZ.to_Z (cub1 d)). set (d2 := BigZ.to_Z (cub2 d)).
  apply Z.mod_divide in r_root; [|lia]. destruct r_root as [k Hk].
  exists (- ((c1 * d2 + c2 * d1) + c2 * d2 * r) * k).
  replace (- ((c1 * d2 + c2 * d1) + c2 * d2 * r) * k * p)
    with (- ((c1 * d2 + c2 * d1) + c2 * d2 * r) * (k * p)) by ring.
  rewrite <- Hk. ring.
Qed.

Lemma cubic_pow_loop_value : forall y res x,
  congruent p (cubic_value r (cubic_pow_loop (bz p) (bz a) (bz b) y res x))
              (cubic_value r res * cubic_value r x ^ Z.pos y).
Proof.
  induction y as [y IH|y IH|]; intros res x; cbn [cubic_pow_loop].
  - rewrite IH, !cubic_mul_value.
    rewrite Pos2Z.inj_xI, Z.pow_add_r, Z.pow_mul_r, Z.pow_1_r, Z.pow_2_r by lia.
    apply eq_refl_congruent. ring.
  - rewrite IH, !cubic_mul_value.
    rewrite Pos2Z.inj_xO, Z.pow_mul_r, Z.pow_2_r by lia. reflexivity.
  - rewrite cubic_mul_value. now rewrite Z.pow_1_r.
Qed.

End CubicRoots.

Lemma no_root_check_sound p a b v :
  Z.prime p -> no_root_check p a b v = true ->
  forall r, (r ^ 3 + a * r + b) mod p <> 0.
Proof.
  intros Hp Hcheck r Hroot. pose proof (Z.prime_ge_2 p Hp) as Hp2.
  unfold no_root_check in Hcheck.
  destruct p as [|p'|p']; try discriminate.
  destruct v as [[v0 v1] v2].
  set (one := mk_cubic (bz 1) (bz 0) (bz 0)) in *.
  set (X := mk_cubic (bz 0) (bz 1) (bz 0)) in *.
  set (h := cubic_pow_loop _ _ _ p' one X) in *.
  set (g := mk_cubic (cub0 h) (BigZ.sub (cub1 h) (bz 1)) (cub2 h)) in *.
  set (v := mk_cubic (bz v0) (bz v1) (bz v2)) in *.
  cbv zeta in Hcheck.
  rewrite !andb_true_iff, !Z.eqb_eq in Hcheck. destruct Hcheck as [[H0 H1] H2].
  pose proof (cubic_mul_value (Z.pos p') a b r ltac:(lia) Hroot v g) as Hvg.
  unfold cubic_value at 1 in Hvg. rewrite H0, H1, H2 in Hvg.
  assert (Hg : congruent (Z.pos p') (cubic_value r g) 0).
  { pose proof (cubic_pow_loop_value (Z.pos p') a b r ltac:(lia) Hroot p' one X) as Hh.
    fold h in Hh.
    assert (E1 : cubic_value r one = 1).
    { unfold cubic_value, one. cbn [cub0 cub1 cub2]. rewrite !spec_bz. ring. }
    assert (EX : cubic_value r X = r).
    { unfold cubic_value, X. cbn [cub0 cub1 cub2]. rewrite !spec_bz. ring. }
    rewrite E1, EX, Z.mul_1_l in Hh.
    assert (Eg : cubic_value r g = cubic_value r h - r).
    { unfold cubic_value, g. cbn [cub0 cub1 cub2]. rewrite BigZ.spec_sub, spec_bz. ring. }
    rewrite Eg, Hh.
    assert (Hf : congruent (Z.pos p') (r ^ Z.pos p') r) by (apply Z.fermat; assumption).
    rewrite Hf. apply eq_refl_congruent. ring. }
  rewrite Hg in Hvg. unfold congruent in Hvg.
  rewrite Z.mul_0_r, Z.mul_0_l, !Z.add_0_r, Z.mod_1_l, Z.mod_0_l in Hvg by lia.
  discriminate.
Qed.

End CubicFacts.

(** * The moduli of the named curves are odd primes *)

Module RegistryFacts.
Import Curve CurveSec Primality PrimalityFacts.

Lemma registry_certificate_checked : check_steps [] registry_certificate = true.
Proof. vm_compute. reflexivity. Qed.

Lemma certified_prime p :
  existsb (Z.eqb p) (map (fun step => fst (fst step)) registry_certificate) = true ->
  Z.prime p.
Proof.
  intros H. apply existsb_exists in H. destruct H as (p' & Hin & E).
  apply Z.eqb_eq in E. subst p'.
  pose proof (check_steps_sound registry_certificate [] (Forall_nil _)
                registry_certificate_checked) as Hall.
  rewrite Forall_forall in Hall. now apply Hall.
Qed.

Lemma registry_prime c : In c registry -> Z.prime (curve_p c).
Proof.
  intros Hin. apply certified_prime.
  cbn [registry In] in Hin.
  repeat (destruct Hin as [<-|Hin]; [vm_compute; reflexivity|]). contradiction.
Qed.

Lemma registry_odd c : In c registry -> curve_p c mod 2 = 1.
Proof.
  intros Hin. cbn [registry In] in Hin.
  repeat (destruct Hin as [<-|Hin]; [vm_compute; reflexivity|]). contradiction.
Qed.

End RegistryFacts.

(** * Facts about [ecdsa/ecdsa.ts] *)

Module EcdsaFacts.
Import Binary MathTs Curve CurveSec Ecdsa.
Import BinarySpec BinaryFacts MathSpec MathFacts.

(** Two runs that agree on their next step: split on its outcome. *)
Ltac step_bind :=
  match goal with
  | |- bind ?x _ = bind ?x _ => destruct x; cbn [bind]; [|reflexivity]
  | |- (if ?b then _ else _) = (if ?b then _ else _) => destruct b; [reflexivity|]
  | |- (if ?b then _ else _) = (if ?b then _ else _) => destruct b; [|reflexivity]
  | |- match ?o with Some _ => _ | None => _ end = match ?o with Some _ => _ | None => _ end =>
      destruct o; [|reflexivity]
  end.

(** The run of [verifyECDSASignature] when every step before the last
    comparison succeeds. *)
Lemma verify_trace publicKey hash signature w u1 u2 u1G u2Q R rn :
  let curve := key_curve publicKey in
  let q := mk_point (key_x publicKey) (key_y publicKey) in
  isOnCurve curve q = Ok true ->
  multiply curve (curve_n curve) q = Ok None ->
  inverseMod (sig_s signature) (curve_n curve) = Ok w ->
  euclideanMod (bigIntFromBytes (slice hash 0 (curve_size curve)) * w) (curve_n curve) = Ok u1 ->
  multiply curve u1 (curve_g curve) = Ok (Some u1G) ->
  euclideanMod (sig_r signature * w) (curve_n curve) = Ok u2 ->
  multiply curve u2 q = Ok (Some u2Q) ->
  add curve u1G u2Q = Ok (Some R) ->
  euclideanMod (sig_r signature) (curve_n curve) = Ok rn ->
  verifyECDSASignature publicKey hash signature = Ok (rn =? point_x R).
Proof.
  intros curve q Hon Hord Hw Hu1 HG Hu2 HQ HR Hrn.
  unfold verifyECDSASignature. cbv zeta. fold curve. fold q.
  rewrite Hon. cbn [bind negb]. rewrite Hord. cbn [bind negb is_null].
  rewrite Hw. cbn [bind]. rewrite Hu1. cbn [bind]. rewrite HG.
  rewrite Hu2. cbn [bind]. rewrite HQ. cbn [bind]. rewrite HR. cbn [bind].
  rewrite Hrn. reflexivity.
Qed.

End EcdsaFacts.

(** * Evaluations at the concrete inputs *)

Module InputFacts.
Import Binary MathTs Curve CurveSec Ecdsa Inputs.
Import MathSpec MathFacts CurveEval CurveEvalFacts CurveFacts EcdsaFacts.

Lemma c1_on_curve : isOnCurve secp256r1 (curve_g secp256r1) = Ok true.
Proof. vm_compute. reflexivity. Qed.

Lemma c1_order : multiply secp256r1 (curve_n secp256r1) (curve_g secp256r1) = Ok None.
Proof. apply registry_order. cbn [registry In]. tauto. Qed.

Lemma c1_not_coprime : Z.gcd (sig_s c1_sig) (curve_n secp256r1) <> 1.
Proof. cbn [sig_s c1_sig]. rewrite Z.gcd_diag. vm_compute. discriminate. Qed.

Lemma c1_inverse : inverseMod (sig_s c1_sig) (curve_n secp256r1) = Throw (Error not_coprime_msg).
Proof.
  exact (proj2 (inverseMod_correct (sig_s c1_sig) (curve_n secp256r1) eq_refl) c1_not_coprime).
Qed.

Lemma c1_verify :
  verifyECDSASignature c1_key c1_hash c1_sig = Throw (Error not_coprime_msg).
Proof.
  unfold verifyECDSASignature. cbv zeta.
  change (mk_point (key_x c1_key) (key_y c1_key)) with (curve_g secp256r1).
  change (key_curve c1_key) with secp256r1.
  rewrite c1_on_curve. cbn [bind negb]. rewrite c1_order. cbn [bind negb is_null].
  rewrite c1_inverse. reflexivity.
Qed.

Lemma c2_on_curve : isOnCurve secp256r1 c2_Q = Ok true.
Proof. vm_compute. reflexivity. Qed.
Lemma c2_order : multiply secp256r1 (curve_n secp256r1) c2_Q = Ok None.
Proof. apply multiply_null_by_eval; vm_compute; reflexivity. Qed.
Lemma c2_inverse : inverseMod (sig_s c2_sig) (curve_n secp256r1) = Ok c2_w.
Proof. vm_compute. reflexivity. Qed.
Lemma c2_u1 : euclideanMod (bigIntFromBytes (slice c2_hash 0 (curve_size secp256r1)) * c2_w) (curve_n secp256r1) = Ok 1.
Proof. vm_compute. reflexivity. Qed.
Lemma c2_u2 : euclideanMod (sig_r c2_sig * c2_w) (curve_n secp256r1) = Ok 1.
Proof. vm_compute. reflexivity. Qed.
Lemma c2_u1G : multiply secp256r1 1 (curve_g secp256r1) = Ok (Some (curve_g secp256r1)).
Proof. vm_compute. reflexivity. Qed.
Lemma c2_u2Q : multiply secp256r1 1 c2_Q = Ok (Some c2_Q).
Proof. vm_compute. reflexivity. Qed.
Lemma c2_sum : add secp256r1 (curve_g secp256r1) c2_Q = Ok (Some c2_R).
Proof. vm_compute. reflexivity. Qed.
Lemma c2_rn : euclideanMod (sig_r c2_sig) (curve_n secp256r1) = Ok 3.
Proof. vm_compute. reflexivity. Qed.

Lemma c2_verify : verifyECDSASignature c2_key c2_hash c2_sig = Ok false.
Proof.
  exact (verify_trace c2_key c2_hash c2_sig c2_w 1 1 (curve_g secp256r1) c2_Q c2_R 3
           c2_on_curve c2_order c2_inverse c2_u1 c2_u1G c2_u2 c2_u2Q c2_sum c2_rn).
Qed.

Lemma c3_no_root y : (y * y) mod 7 <> 3.
Proof.
  rewrite <- Z.mul_mod_idemp_l, <- Z.mul_mod_idemp_r by lia.
  pose proof (Z.mod_pos_bound y 7 eq_refl) as Hy.
  assert (Hc : y mod 7 = 0 \/ y mod 7 = 1 \/ y mod 7 = 2 \/ y mod 7 = 3 \/
               y mod 7 = 4 \/ y mod 7 = 5 \/ y mod 7 = 6) by lia.
  destruct Hc as [->|[->|[->|[->|[->|[->| ->]]]]]]; discriminate.
Qed.

Lemma c3_decode fuel : decodeSEC1PublicKey fuel secp256r1 c3_bytes = Some (Ok c3_key).
Proof. vm_compute. reflexivity. Qed.

Lemma c3_off_curve :
  isOnCurve secp256r1 (mk_point (key_x c3_key) (key_y c3_key)) = Ok false.
Proof. vm_compute. reflexivity. Qed.

End InputFacts.

(** * The SEC1 encodings of the points of the named curves *)

Module Sec1Facts.
Import Binary MathTs Curve CurveSec Ecdsa.
Import BinarySpec BinaryFacts MathSpec MathFacts NumberFacts PowmodFacts TonelliFacts.
Import PowmodEval Primality PrimalityFacts RegistryFacts Cubic CubicFacts.

(** ** The named curves *)

Lemma registry_size c : In c registry ->
  (1 <= curve_size c)%nat /\ curve_p c <= 256 ^ Z.of_nat (curve_size c).
Proof.
  intros Hin. cbn [registry In] in Hin.
  repeat (destruct Hin as [<-|Hin];
          [split; [apply Nat.leb_le|apply Z.leb_le]; vm_compute; reflexivity|]).
  contradiction.
Qed.

Lemma registry_cofactor c : In c registry -> curve_cofactor c = 1.
Proof.
  intros Hin. cbn [registry In] in Hin.
  repeat (destruct Hin as [<-|Hin]; [reflexivity|]). contradiction.
Qed.

Lemma nonresidue_by_eval z p :
  1 < p -> (powmod_eval z ((p - 1) / 2) p =? p - 1) = true ->
  z ^ ((p - 1) / 2) mod p = p - 1.
Proof.
  intros Hp H. apply Z.eqb_eq in H.
  rewrite powmod_eval_spec in H; [assumption|assumption|apply Z.div_pos; lia].
Qed.

Lemma secp224k1_no_root r :
  (r ^ 3 + curve_a secp224k1 * r + curve_b secp224k1) mod curve_p secp224k1 <> 0.
Proof.
  apply (no_root_check_sound _ _ _ secp224k1_inverse).
  - apply registry_prime. cbn [registry In]. tauto.
  - vm_compute. reflexivity.
Qed.

Lemma secp224r1_no_root r :
  (r ^ 3 + curve_a secp224r1 * r + curve_b secp224r1) mod curve_p secp224r1 <> 0.
Proof.
  apply (no_root_check_sound _ _ _ secp224r1_inverse).
  - apply registry_prime. cbn [registry In]. tauto.
  - vm_compute. reflexivity.
Qed.

Lemma secp224k1_nonresidue :
  2 ^ ((curve_p secp224k1 - 1) / 2) mod curve_p secp224k1 = curve_p secp224k1 - 1.
Proof. apply nonresidue_by_eval; [reflexivity|vm_compute; reflexivity]. Qed.

Lemma secp224r1_nonresidue :
  11 ^ ((curve_p secp224r1 - 1) / 2) mod curve_p secp224r1 = curve_p secp224r1 - 1.
Proof. apply nonresidue_by_eval; [reflexivity|vm_compute; reflexivity]. Qed.

Lemma registry_square_roots c : In c registry ->
  curve_p c mod 4 = 3 \/
  (curve_p c mod 4 <> 3 /\ curve_p c < 2 ^ 256 /\
   (exists z, 2 <= z <= 11 /\ z ^ ((curve_p c - 1) / 2) mod curve_p c = curve_p c - 1) /\
   forall r, (r ^ 3 + curve_a c * r + curve_b c) mod curve_p c <> 0).
Proof.
  intros Hin. cbn [registry In] in Hin.
  destruct Hin as [<-|Hin]; [left; reflexivity|].
  destruct Hin as [<-|Hin]; [left; reflexivity|].
  destruct Hin as [<-|Hin].
  { right. split; [|split; [|split]].
    - apply Z.eqb_neq. vm_compute. reflexivity.
    - reflexivity.
    - exists 2. split; [lia|exact secp224k1_nonresidue].
    - exact secp224k1_no_root. }
  destruct Hin as [<-|Hin].
  { right. split; [|split; [|split]].
    - apply Z.eqb_neq. vm_compute. reflexivity.
    - reflexivity.
    - exists 11. split; [lia|exact secp224r1_nonresidue].
    - exact secp224r1_no_root. }
  repeat (destruct Hin as [<-|Hin]; [left; vm_compute; reflexivity|]).
  contradiction.
Qed.

(** ** The encodings *)

Lemma padded_length size l : (List.length l <= size)%nat -> List.length (padded size l) = size.
Proof. intros H. unfold padded. rewrite length_app, repeat_length. lia. Qed.

Lemma padded_value size l : be_value (padded size l) = be_value l.
Proof. apply be_value_padded. Qed.

Lemma firstn_zeros k size : (k <= size)%nat -> firstn k (repeat x00 size) = repeat x00 k.
Proof.
  revert size. induction k as [|k IH]; intros [|size] H; cbn [firstn repeat];
    try reflexivity; try lia.
  f_equal. apply IH. lia.
Qed.

Lemma set_bytes_padded pre post src size offset :
  (List.length src <= size)%nat ->
  offset = Z.of_nat (List.length pre) + Z.of_nat size - Z.of_nat (List.length src) ->
  set_bytes (pre ++ repeat x00 size ++ post) src offset
  = Ok (pre ++ padded size src ++ post).
Proof.
  intros Hlen ->. unfold set_bytes.
  rewrite !length_app, repeat_length.
  destruct (Z.ltb_spec (Z.of_nat (List.length pre) + Z.of_nat size
                        - Z.of_nat (List.length src)) 0); [lia|].
  destruct (Z.ltb_spec
              (Z.of_nat (List.length pre + (size + List.length post)))
              (Z.of_nat (List.length pre) + Z.of_nat size
               - Z.of_nat (List.length src) + Z.of_nat (List.length src))); [lia|].
  cbn [orb]. f_equal.
  replace (Z.to_nat (Z.of_nat (List.length pre) + Z.of_nat size - Z.of_nat (List.length src)))
    with (List.length pre + (size - List.length src))%nat by lia.
  rewrite firstn_app_2.
  rewrite firstn_app, repeat_length.
  replace (size - List.length src - size)%nat with 0%nat by lia.
  rewrite firstn_O, app_nil_r, firstn_zeros by lia.
  replace (List.length pre + (size - List.length src) + List.length src)%nat
    with (List.length pre + size)%nat by lia.
  rewrite skipn_app, (skipn_all2 pre) by lia.
  replace (List.length pre + size - List.length pre)%nat with size by lia.
  rewrite skipn_app, repeat_length, (skipn_all2 (repeat x00 size))
    by (rewrite repeat_length; lia).
  rewrite Nat.sub_diag, skipn_O. cbn [app].
  unfold padded. now rewrite <- !app_assoc.
Qed.

Lemma bigIntBytes_fits v size :
  0 <= v -> v < 256 ^ Z.of_nat size -> (1 <= size)%nat ->
  (List.length (bigIntBytes v) <= size)%nat.
Proof.
  intros Hv Hlt Hsize. rewrite bigIntBytes_length by assumption.
  now apply byteLength_le.
Qed.

Lemma encodeSEC1Uncompressed_bytes pub :
  let size := curve_size (key_curve pub) in
  (List.length (bigIntBytes (key_x pub)) <= size)%nat ->
  (List.length (bigIntBytes (key_y pub)) <= size)%nat ->
  encodeSEC1Uncompressed pub
  = Ok (x04 :: padded size (bigIntBytes (key_x pub))
            ++ padded size (bigIntBytes (key_y pub))).
Proof.
  intros size Hx Hy. unfold encodeSEC1Uncompressed. fold size.
  unfold zeros. cbn [Nat.add repeat set_first].
  replace (size * 2)%nat with (size + size)%nat by lia. rewrite repeat_app.
  rewrite (set_bytes_padded [x04] (repeat x00 size) _ size)
    by (cbn [List.length]; lia).
  cbn [bind].
  pose proof (set_bytes_padded ([x04] ++ padded size (bigIntBytes (key_x pub))) []
                (bigIntBytes (key_y pub)) size
                (1 + Z.of_nat size * 2 - Z.of_nat (List.length (bigIntBytes (key_y pub))))
                Hy) as E.
  rewrite app_nil_r, <- app_assoc in E. rewrite E.
  - cbn [bind app]. now rewrite app_nil_r.
  - rewrite length_app, padded_length by assumption. cbn [List.length]. lia.
Qed.

Lemma encodeSEC1Compressed_bytes pub :
  let size := curve_size (key_curve pub) in
  (List.length (bigIntBytes (key_x pub)) <= size)%nat ->
  encodeSEC1Compressed pub
  = Ok ((if Z.rem (key_y pub) 2 =? 0 then x02 else x03)
          :: padded size (bigIntBytes (key_x pub))).
Proof.
  intros size Hx. unfold encodeSEC1Compressed. fold size.
  unfold zeros. cbn [Nat.add repeat].
  assert (E : forall first,
             set_bytes (first :: repeat x00 size) (bigIntBytes (key_x pub))
               (1 + Z.of_nat size - Z.of_nat (List.length (bigIntBytes (key_x pub))))
             = Ok (first :: padded size (bigIntBytes (key_x pub)))).
  { intros first.
    pose proof (set_bytes_padded [first] [] (bigIntBytes (key_x pub)) size
                  (1 + Z.of_nat size - Z.of_nat (List.length (bigIntBytes (key_x pub))))
                  Hx) as E.
    rewrite !app_nil_r in E. apply E. cbn [List.length]. lia. }
  destruct (Z.rem (key_y pub) 2 =? 0); cbn [set_first]; now rewrite E.
Qed.

Lemma decode_uncompressed fuel c xs ys :
  List.length xs = curve_size c -> List.length ys = curve_size c ->
  decodeSEC1PublicKey fuel c (x04 :: xs ++ ys)
  = Some (Ok (mk_key c (be_value xs) (be_value ys))).
Proof.
  intros Hx Hy. unfold decodeSEC1PublicKey.
  cbn [List.length Nat.ltb Nat.leb nth]. change (Byte.eqb x04 x04) with true. cbv iota.
  rewrite length_app.
  replace (S (List.length xs + List.length ys) =? curve_size c * 2 + 1)%nat with true
    by (symmetry; apply Nat.eqb_eq; lia).
  cbn [negb]. unfold slice.
  replace (curve_size c + 1)%nat with (S (curve_size c)) by lia.
  replace (S (curve_size c) - 1)%nat with (curve_size c) by lia.
  cbn [skipn]. rewrite <- Hx at 1 2.
  rewrite firstn_app, Nat.sub_diag, firstn_O, app_nil_r, firstn_all.
  rewrite skipn_app, skipn_all, Nat.sub_diag, skipn_O. cbn [app].
  now rewrite !bigIntFromBytes_be.
Qed.

Lemma decode_compressed fuel c first xs :
  first = x02 \/ first = x03 -> List.length xs = curve_size c -> 0 < curve_p c ->
  decodeSEC1PublicKey fuel c (first :: xs)
  = (y <~ tonelliShanks fuel
            ((be_value xs ^ 3 + curve_a c * be_value xs + curve_b c) mod curve_p c)
            (curve_p c) ;;
     if Z.rem y 2 =? (if Byte.eqb first x02 then 0 else 1)
     then Some (Ok (mk_key c (be_value xs) y))
     else Some (Ok (mk_key c (be_value xs) (curve_p c - y)))).
Proof.
  intros Hfirst Hx Hp. unfold decodeSEC1PublicKey, curve_rhs.
  cbn [List.length Nat.ltb Nat.leb nth skipn].
  replace (S (List.length xs) =? curve_size c + 1)%nat with true
    by (symmetry; apply Nat.eqb_eq; lia).
  cbn [negb].
  destruct Hfirst as [->| ->].
  - change (Byte.eqb x02 x04) with false. change (Byte.eqb x02 x02) with true.
    cbv iota zeta. rewrite bigIntFromBytes_be, euclideanMod_pos by assumption.
    reflexivity.
  - change (Byte.eqb x03 x04) with false. change (Byte.eqb x03 x02) with false.
    change (Byte.eqb x03 x03) with true.
    cbv iota zeta. rewrite bigIntFromBytes_be, euclideanMod_pos by assumption.
    reflexivity.
Qed.

Lemma isOnCurve_equation c x y :
  curve_cofactor c = 1 -> 0 < curve_p c ->
  isOnCurve c (mk_point x y) = Ok true ->
  (y * y) mod curve_p c = (x ^ 3 + curve_a c * x + curve_b c) mod curve_p c.
Proof.
  intros Hc Hp H. unfold isOnCurve in H. rewrite Hc in H.
  change (negb (1 =? 1)) with false in H. cbn [bind point_x point_y] in H.
  rewrite !euclideanMod_pos in H by assumption. cbn [bind] in H.
  injection H as H. apply Z.eqb_eq in H. now rewrite <- Z.pow_2_r.
Qed.

Section SquareRoot.

Variables (c : ECDSANamedCurve) (x y : Z).
Hypothesis c_named : In c registry.
Hypothesis y_range : 0 <= y < curve_p c.
Hypothesis on_curve :
  (y * y) mod curve_p c = (x ^ 3 + curve_a c * x + curve_b c) mod curve_p c.

Lemma registry_root_recovered fuel :
  (256 <= fuel)%nat ->
  exists r,
    tonelliShanks fuel ((x ^ 3 + curve_a c * x + curve_b c) mod curve_p c) (curve_p c)
    = Some (Ok r) /\ (r = y \/ (y <> 0 /\ r = curve_p c - y)).
Proof.
  intros Hfuel.
  pose proof (registry_prime c c_named) as Hprime.
  pose proof (registry_odd c c_named) as Hodd.
  pose proof (Z.prime_ge_2 _ Hprime) as Hp2.
  destruct (Z.eq_dec y 0) as [Hy0|Hy0].
  - destruct (registry_square_roots c c_named) as [H4|(_ & _ & _ & Hno)].
    + exists 0. split; [|left; congruence].
      rewrite <- on_curve, Hy0. cbn [Z.mul]. rewrite Z.mod_0_l by lia.
      unfold tonelliShanks. rewrite Z.rem_mod_nonneg, H4 by lia.
      change (3 =? 3) with true. cbv iota.
      rewrite Z.quot_div_nonneg by lia.
      assert (He : 0 < (curve_p c + 1) / 4).
      { apply Z.div_str_pos. pose proof (Z.div_mod (curve_p c) 4 ltac:(lia)). lia. }
      rewrite powmod_spec by lia.
      rewrite Z.pow_0_l, Z.mod_0_l by lia. reflexivity.
    + exfalso. apply (Hno x). rewrite <- on_curve, Hy0. cbn [Z.mul].
      apply Z.mod_0_l. lia.
  - assert (Hy : y mod curve_p c = y) by (apply Z.mod_small; lia).
    assert (Hnz : y mod curve_p c <> 0) by lia.
    rewrite <- on_curve.
    destruct (registry_square_roots c c_named)
      as [H4|(H4 & Hsmall & (z & Hz & Hzk) & _)].
    + destruct (tonelliShanks_fast _ Hprime Hodd y fuel H4 Hnz) as (r & Hr & Hcases).
      exists r. split; [exact Hr|]. rewrite Hy in Hcases.
      destruct Hcases; [left|right]; auto.
    + destruct (tonelliShanks_general_fuel _ Hprime Hodd y fuel z H4 Hnz) as (r & Hr & Hcases);
        try lia; try assumption.
      * apply Z.lt_le_trans with (2 ^ 256); [assumption|].
        apply Z.pow_le_mono_r; lia.
      * exists r. split; [exact Hr|]. rewrite Hy in Hcases.
        destruct Hcases; [left|right]; auto.
Qed.

End SquareRoot.

Lemma parity_flip p y : p mod 2 = 1 -> 0 < y < p ->
  Z.rem (p - y) 2 = 1 - Z.rem y 2.
Proof.
  intros Hp Hy. rewrite !Z.rem_mod_nonneg by lia.
  pose proof (Z.div_mod p 2 ltac:(lia)). pose proof (Z.div_mod y 2 ltac:(lia)).
  pose proof (Z.mod_pos_bound y 2 ltac:(lia)).
  pose proof (Z.div_mod (p - y) 2 ltac:(lia)).
  pose proof (Z.mod_pos_bound (p - y) 2 ltac:(lia)). lia.
Qed.

Lemma sec1_round_trip c x y :
  In c registry ->
  0 <= x < curve_p c -> 0 <= y < curve_p c ->
  isOnCurve c (mk_point x y) = Ok true ->
  let pub := mk_key c x y in
  (exists bytes, encodeSEC1Uncompressed pub = Ok bytes /\
     forall fuel, decodeSEC1PublicKey fuel c bytes = Some (Ok pub)) /\
  (exists bytes, encodeSEC1Compressed pub = Ok bytes /\
     nth 0 bytes x00 = (if Z.even y then x02 else x03) /\
     forall fuel, (256 <= fuel)%nat ->
       decodeSEC1PublicKey fuel c bytes = Some (Ok pub)).
Proof.
  intros Hin Hx Hy Hon pub.
  pose proof (registry_size c Hin) as [Hsize Hpsize].
  pose proof (registry_odd c Hin) as Hodd.
  pose proof (Z.prime_ge_2 _ (registry_prime c Hin)) as Hp2.
  assert (Hxfit : (List.length (bigIntBytes x) <= curve_size c)%nat)
    by (apply bigIntBytes_fits; lia).
  assert (Hyfit : (List.length (bigIntBytes y) <= curve_size c)%nat)
    by (apply bigIntBytes_fits; lia).
  split.
  - eexists. split; [apply encodeSEC1Uncompressed_bytes; assumption|].
    intros fuel. cbn [key_curve key_x key_y pub].
    rewrite decode_uncompressed by (apply padded_length; assumption).
    now rewrite !padded_value, !bigIntBytes_value by lia.
  - eexists. split; [apply encodeSEC1Compressed_bytes; assumption|].
    cbn [key_curve key_x key_y pub nth].
    assert (Hpar : Z.rem y 2 = y mod 2) by (apply Z.rem_mod_nonneg; lia).
    assert (Heven : (Z.rem y 2 =? 0) = Z.even y).
    { rewrite Hpar, Zeven_mod. reflexivity. }
    split; [now rewrite Heven|].
    intros fuel Hfuel.
    apply isOnCurve_equation in Hon; [|now apply registry_cofactor|lia].
    destruct (registry_root_recovered c x y Hin Hy Hon fuel Hfuel) as (r & Hr & Hcases).
    rewrite decode_compressed;
      [|destruct (Z.rem y 2 =? 0); auto|now apply padded_length|lia].
    rewrite padded_value, bigIntBytes_value, Hr by lia. cbn [fbind].
    pose proof (Z.mod_pos_bound y 2 ltac:(lia)) as Hb.
    destruct Hcases as [->|[Hy0 ->]].
    + destruct (Z.eqb_spec (Z.rem y 2) 0) as [E|E].
      * change (Byte.eqb x02 x02) with true. cbv iota. rewrite E. reflexivity.
      * change (Byte.eqb x03 x02) with false. cbv iota.
        replace (Z.rem y 2) with 1 by lia. reflexivity.
    + rewrite parity_flip by lia.
      replace (curve_p c - (curve_p c - y)) with y by lia.
      destruct (Z.eqb_spec (Z.rem y 2) 0) as [E|E].
      * change (Byte.eqb x02 x02) with true. cbv iota. rewrite E. reflexivity.
      * change (Byte.eqb x03 x02) with false. cbv iota.
        replace (Z.rem y 2) with 1 by lia. reflexivity.
Qed.

End Sec1Facts.

(** * Edge behaviour of [ecdsa/math.ts] *)

Module MathEdgeFacts.
Import MathTs MathSpec MathFacts NumberFacts PowmodFacts TonelliFacts.

Lemma euclideanMod_residue x y : 0 < y ->
  exists r, euclideanMod x y = Ok r /\ 0 <= r < y /\ (y | x - r).
Proof.
  intros Hy. exists (x mod y). split; [now apply euclideanMod_pos|].
  split; [apply Z.mod_pos_bound; lia|].
  exists (x / y). pose proof (Z.div_mod x y ltac:(lia)). lia.
Qed.

Lemma euclideanMod_zero x : euclideanMod x 0 = Throw (RangeError "Division by zero").
Proof. reflexivity. Qed.

Lemma euclideanMod_negative x y : y < 0 -> x < 0 -> ~ (y | x) ->
  exists r, euclideanMod x y = Ok r /\ 2 * y < r < y /\ (y | x - r).
Proof.
  intros Hy Hx Hnd. unfold euclideanMod, bigint_rem.
  destruct (Z.eqb_spec y 0); [lia|]. cbn [bind].
  pose proof (Z.rem_bound_neg_neg x y ltac:(lia) ltac:(lia)) as Hb.
  pose proof (Z.quot_rem' x y) as Hqr.
  assert (Hnz : Z.rem x y <> 0).
  { intros E. apply Hnd. exists (Z.quot x y). lia. }
  destruct (Z.ltb_spec (Z.rem x y) 0); [|lia].
  eexists. split; [reflexivity|]. split; [lia|].
  exists (Z.quot x y - 1). lia.
Qed.

Lemma powmod_nonpositive x y p : p <> 0 -> y <= 0 -> powmod x y p = Ok 1.
Proof.
  intros Hp Hy. unfold powmod, bigint_rem.
  destruct (Z.eqb_spec p 0); [contradiction|]. cbn [bind].
  destruct y; try reflexivity. lia.
Qed.

Lemma powmod_zero_modulus x y : powmod x y 0 = Throw (RangeError "Division by zero").
Proof. reflexivity. Qed.

Lemma inverseMod_zero_modulus a : inverseMod a 0 = Throw (RangeError "Division by zero").
Proof.
  unfold inverseMod. change (0 <? 0) with false. cbv iota.
  destruct (a <? 0); reflexivity.
Qed.

Lemma inverseMod_unit_modulus a n : Z.abs n = 1 -> inverseMod a n = Ok 0.
Proof.
  intros Hn. rewrite inverseMod_neg_modulus, Hn.
  unfold inverseMod. change (1 <? 0) with false. cbv iota.
  assert (E : (if a <? 0 then euclideanMod a 1 else Ok a) = Ok (if a <? 0 then 0 else a)).
  { destruct (a <? 0); [|reflexivity].
    rewrite euclideanMod_pos by lia. now rewrite Z.mod_1_r. }
  rewrite E. cbn [bind]. unfold bigint_rem, bigint_div.
  change (1 =? 0) with false. cbv iota. cbn [bind].
  rewrite Z.rem_1_r. reflexivity.
Qed.

Section ZeroRoot.

Variables p n : Z.
Hypothesis p_prime : Z.prime p.
Hypothesis n_zero : n mod p = 0.

Let p_ge_2 : 2 <= p := Z.prime_ge_2 p p_prime.

Lemma pow_zero_mod e : 0 < e -> n ^ e mod p = 0.
Proof.
  intros He.
  assert (H : congruent p (n ^ e) (0 ^ e)).
  { apply pow_mod_congr. unfold congruent in *. rewrite n_zero. symmetry. apply Z.mod_0_l. lia. }
  unfold congruent in H. rewrite H, Z.pow_0_l by lia. apply Z.mod_0_l. lia.
Qed.

Lemma tonelliShanks_zero_fast fuel : p mod 4 = 3 -> tonelliShanks fuel n p = Some (Ok 0).
Proof.
  intros H4. unfold tonelliShanks. rewrite Z.rem_mod_nonneg, H4 by lia.
  change (3 =? 3) with true. cbv iota.
  rewrite Z.quot_div_nonneg by lia.
  assert (He : 0 < (p + 1) / 4).
  { apply Z.div_str_pos. pose proof (Z.div_mod p 4 ltac:(lia)). lia. }
  rewrite powmod_spec by lia. now rewrite pow_zero_mod.
Qed.

Lemma order_loop_zero m : forall gap fuel i,
  1 <= i <= m -> Z.to_nat (m - i) = gap -> (gap <= fuel)%nat ->
  order_loop fuel i 0 m p = Some (Throw (Error no_root_msg)).
Proof.
  induction gap as [|gap IH]; intros fuel i Hi Hgap Hfuel.
  - assert (i = m) by lia. subst i.
    destruct fuel; cbn [order_loop]; rewrite Z.leb_refl, Z.eqb_refl; reflexivity.
  - destruct fuel as [|fuel]; [lia|]. cbn [order_loop].
    destruct (Z.leb_spec i m); [|lia]. destruct (Z.eqb_spec i m); [lia|].
    unfold lift, bigint_pow. destruct (Z.ltb_spec i 0); [lia|]. cbn [fbind].
    assert (H2 : 0 < 2 ^ i) by (apply Z.pow_pos_nonneg; lia).
    rewrite powmod_spec by lia. cbn [fbind].
    rewrite Z.pow_0_l, Z.mod_0_l by lia. change (0 =? 1) with false. cbv iota.
    apply IH; lia.
Qed.

Lemma tonelliShanks_zero_general fuel :
  p mod 4 = 1 -> (Z.to_nat p <= fuel)%nat ->
  tonelliShanks fuel n p = Some (Throw (Error no_root_msg)).
Proof.
  intros H4 Hfuel.
  assert (p_odd : p mod 2 = 1).
  { pose proof (Z.div_mod p 4 ltac:(lia)) as E. rewrite H4 in E.
    rewrite E. replace (4 * (p / 4) + 1) with (1 + (2 * (p / 4)) * 2) by ring.
    now rewrite Z.mod_add by lia. }
  pose proof (NumberFacts.p_ge_3 p p_prime p_odd) as H3.
  pose proof (half_double p p_odd) as Hh.
  unfold tonelliShanks. rewrite Z.rem_mod_nonneg, H4 by lia.
  change (1 =? 3) with false. cbv iota.
  unfold lift at 1. rewrite (half_quot p p_prime p_odd), powmod_spec by lia.
  cbn [fbind]. rewrite pow_zero_mod by lia.
  destruct (Z.eqb_spec 0 (p - 1)); [lia|].
  assert (Hpow : p < 2 ^ Z.of_nat fuel).
  { apply Z.lt_le_trans with (2 ^ p); [apply Z.pow_gt_lin_r; lia|].
    apply Z.pow_le_mono_r; lia. }
  destruct (factor_loop_spec fuel (p - 1) 0 ltac:(lia) ltac:(lia))
    as (q & s & -> & Hs & Hq & Hqpos & Hqodd).
  cbn [fbind]. rewrite Z.sub_0_r in Hq.
  assert (Hs2 : 2 <= s).
  { pose proof (Z.div_mod p 4 ltac:(lia)). pose proof (Z.div_mod q 2 ltac:(lia)).
    destruct (Z.eq_dec s 0) as [->|]; [rewrite Z.pow_0_r in Hq; lia|].
    destruct (Z.eq_dec s 1) as [->|]; [|lia].
    rewrite Z.pow_1_r in Hq. lia. }
  assert (Hslt : s < p).
  { assert (0 < 2 ^ s) by (apply Z.pow_pos_nonneg; lia).
    assert (2 ^ s <= p - 1) by (rewrite Hq; nia).
    pose proof (Z.pow_gt_lin_r 2 s ltac:(lia) ltac:(lia)). lia. }
  destruct (nonresidue_exists p p_prime p_odd) as (z & Hz & Hzk).
  destruct (nonresidue_loop_spec p p_prime p_odd (Z.to_nat (z - 2)) fuel 2 z)
    as (z' & -> & _); try lia; try assumption.
  cbn [fbind]. unfold lift.
  rewrite Z.quot_div_nonneg by lia.
  assert (Hq2 : 0 < (q + 1) / 2) by (apply Z.div_str_pos; lia).
  rewrite !powmod_spec by lia. cbn [fbind].
  rewrite !pow_zero_mod by lia.
  destruct fuel as [|fuel]; [lia|]. cbn [main_loop]. change (0 =? 1) with false. cbv iota.
  rewrite (order_loop_zero s (Z.to_nat (s - 1))) by lia. reflexivity.
Qed.

End ZeroRoot.

Section EulerConverse.

Variable p : Z.
Hypothesis p_prime : Z.prime p.
Hypothesis p_odd : p mod 2 = 1.

Let p_ge_3 : 3 <= p := NumberFacts.p_ge_3 p p_prime p_odd.
Let k := (p - 1) / 2.

Lemma square_of_euler a : a mod p <> 0 -> a ^ k mod p = 1 ->
  exists y, (y * y) mod p = a mod p.
Proof.
  intros Ha Hak. pose proof (half_double p p_odd) as Hh. fold k in Hh.
  set (squares := map (fun i => (i * i) mod p) (map Z.of_nat (seq 1 (Z.to_nat k)))).
  destruct (in_dec Z.eq_dec (a mod p) squares) as [Hin|Hout].
  - apply in_map_iff in Hin. destruct Hin as (i & Hi & _). now exists i.
  - exfalso.
    assert (Hnd : NoDup squares).
    { apply NoDup_map_NoDup_ForallPairs; [|apply range_NoDup].
      intros i j Hi Hj E. apply range_In in Hi, Hj.
      assert (Hjp : j mod p <> 0) by (rewrite Z.mod_small; lia).
      destruct (sqrt_unique p p_prime i j ltac:(lia) Hjp E) as [E'|E'];
        rewrite Z.mod_small in E' by lia; lia. }
    pose proof (roots_bound p p_prime (power_minus_one (Z.to_nat (k - 1)))
                  (a mod p :: squares)) as Hb.
    assert (Hroot : forall r, 0 <= r < p -> r ^ k mod p = 1 ->
              root_mod p (power_minus_one (Z.to_nat (k - 1))) r).
    { intros r Hr Hrk. split; [assumption|].
      rewrite power_minus_one_eval.
      replace (Z.of_nat (Z.to_nat (k - 1)) + 1) with k by lia.
      apply Z.mod_divide; [lia|]. apply mod_eq_divide; [lia|].
      rewrite Hrk. symmetry. apply Z.mod_1_l. lia. }
    assert (Hlen : (List.length ((a mod p)%Z :: squares)
                    < List.length (power_minus_one (Z.to_nat (k - 1))))%nat).
    { apply Hb.
      - cbn [power_minus_one hd]. rewrite Z.mod_1_l by lia. discriminate.
      - constructor; assumption.
      - intros r [<-|Hin].
        + apply Hroot; [apply Z.mod_pos_bound; lia|].
          rewrite <- Hak. apply pow_mod_congr. apply congruent_mod.
        + apply in_map_iff in Hin. destruct Hin as (i & <- & Hi).
          apply range_In in Hi.
          apply Hroot; [apply Z.mod_pos_bound; lia|].
          assert (E : congruent p (((i * i) mod p) ^ k) ((i * i) ^ k))
            by (apply pow_mod_congr, congruent_mod).
          unfold congruent in E. rewrite E.
          rewrite <- Z.pow_2_r, <- Z.pow_mul_r by lia.
          rewrite Hh. apply Z.fermat_nz; [assumption|].
          rewrite Z.mod_small; lia. }
    unfold squares, power_minus_one in Hlen.
    cbn [List.length] in Hlen.
    rewrite !length_map, length_seq, length_app, repeat_length in Hlen.
    cbn [List.length] in Hlen. lia.
Qed.

Lemma tonelliShanks_nonresidue n fuel :
  p mod 4 <> 3 -> n mod p <> 0 -> (forall y, (y * y) mod p <> n mod p) ->
  tonelliShanks fuel n p = Some (Throw (Error no_root_msg)).
Proof.
  intros H4 Hn Hns. unfold tonelliShanks. rewrite Z.rem_mod_nonneg by lia.
  destruct (Z.eqb_spec (p mod 4) 3); [contradiction|].
  unfold lift. rewrite (half_quot p p_prime p_odd), powmod_spec
    by (try apply Z.div_pos; lia).
  cbn [fbind]. fold k.
  destruct (fermat_half p p_prime p_odd n Hn) as [E|E]; fold k in E.
  - destruct (square_of_euler n Hn E) as (y & Hy). now apply Hns in Hy.
  - rewrite E, Z.eqb_refl. reflexivity.
Qed.

End EulerConverse.

End MathEdgeFacts.

(** * The group operations keep points on the curve *)

Module JacobianFacts.
Import Binary MathTs Curve.
Import MathSpec MathFacts NumberFacts CurveSpec CurveFacts.

Lemma double_identity X Y Z a b :
  let S := 4 * X * Y ^ 2 in
  let M := 3 * X ^ 2 + a * Z ^ 4 in
  let X3 := M ^ 2 - 2 * S in
  let Y3 := M * (S - X3) - 8 * Y ^ 4 in
  let Z3 := 2 * Y * Z in
  Y3 ^ 2 - (X3 ^ 3 + a * X3 * Z3 ^ 4 + b * Z3 ^ 6)
  = 64 * Y ^ 6 * (Y ^ 2 - (X ^ 3 + a * X * Z ^ 4 + b * Z ^ 6)).
Proof. cbv zeta. ring. Qed.

Lemma add_identity U1 S1 U2 S2 W a b :
  let H := U2 - U1 in
  let R := S2 - S1 in
  let X3 := R ^ 2 - H ^ 3 - 2 * U1 * H ^ 2 in
  let Y3 := R * (U1 * H ^ 2 - X3) - S1 * H ^ 3 in
  let Z3 := H * W in
  Y3 ^ 2 - (X3 ^ 3 + a * X3 * Z3 ^ 4 + b * Z3 ^ 6)
  = (- U1 ^ 6 + 3 * U1 ^ 5 * U2 + U1 ^ 3 * S1 ^ 2 - 2 * U1 ^ 3 * S1 * S2 - 9 * U1 ^ 3 * U2 ^ 3 + U1 ^ 3 * U2 * W ^ 4 * a + U1 ^ 3 * W ^ 6 * b - 3 * U1 ^ 2 * S1 ^ 2 * U2 + 6 * U1 ^ 2 * S1 * U2 * S2 + 12 * U1 ^ 2 * U2 ^ 4 - 3 * U1 ^ 2 * U2 ^ 2 * W ^ 4 * a - 3 * U1 ^ 2 * U2 * W ^ 6 * b + 3 * U1 * S1 ^ 2 * U2 ^ 2 - 6 * U1 * S1 * U2 ^ 2 * S2 - 6 * U1 * U2 ^ 5 + 3 * U1 * U2 ^ 3 * W ^ 4 * a + 3 * U1 * U2 ^ 2 * W ^ 6 * b - S1 ^ 2 * U2 ^ 3 + 2 * S1 * U2 ^ 3 * S2 + U2 ^ 6 - U2 ^ 4 * W ^ 4 * a - U2 ^ 3 * W ^ 6 * b)
    * (S1 ^ 2 - (U1 ^ 3 + a * U1 * W ^ 4 + b * W ^ 6))
  + (U1 ^ 6 - 6 * U1 ^ 5 * U2 + 12 * U1 ^ 4 * U2 ^ 2 - U1 ^ 4 * W ^ 4 * a + 2 * U1 ^ 3 * S1 * S2 - 9 * U1 ^ 3 * U2 ^ 3 + 3 * U1 ^ 3 * U2 * W ^ 4 * a - U1 ^ 3 * S2 ^ 2 - U1 ^ 3 * W ^ 6 * b - 6 * U1 ^ 2 * S1 * U2 * S2 - 3 * U1 ^ 2 * U2 ^ 2 * W ^ 4 * a + 3 * U1 ^ 2 * U2 * S2 ^ 2 + 3 * U1 ^ 2 * U2 * W ^ 6 * b + 6 * U1 * S1 * U2 ^ 2 * S2 + 3 * U1 * U2 ^ 5 + U1 * U2 ^ 3 * W ^ 4 * a - 3 * U1 * U2 ^ 2 * S2 ^ 2 - 3 * U1 * U2 ^ 2 * W ^ 6 * b - 2 * S1 * U2 ^ 3 * S2 - U2 ^ 6 + U2 ^ 3 * S2 ^ 2 + U2 ^ 3 * W ^ 6 * b)
    * (S2 ^ 2 - (U2 ^ 3 + a * U2 * W ^ 4 + b * W ^ 6)).
Proof. cbv zeta. ring. Qed.


Lemma congruent_zero_sub p x y : congruent p x y -> congruent p (x - y) 0.
Proof. intros H. rewrite H. apply eq_refl_congruent. ring. Qed.

Lemma congruent_of_difference p x y k e :
  x - y = k * e -> congruent p e 0 -> congruent p x y.
Proof.
  intros E He. replace x with (y + k * e) by lia.
  rewrite He. apply eq_refl_congruent. ring.
Qed.

Lemma congruent_of_difference2 p x y k1 e1 k2 e2 :
  x - y = k1 * e1 + k2 * e2 -> congruent p e1 0 -> congruent p e2 0 ->
  congruent p x y.
Proof.
  intros E He1 He2. replace x with (y + (k1 * e1 + k2 * e2)) by lia.
  rewrite He1, He2. apply eq_refl_congruent. ring.
Qed.

Section PrimeModulus.

Variable p : Z.
Hypothesis p_prime : Z.prime p.

Let p_ge_2 : 2 <= p := Z.prime_ge_2 p p_prime.

Lemma mul_mod_nonzero x y : x mod p <> 0 -> y mod p <> 0 -> (x * y) mod p <> 0.
Proof.
  intros Hx Hy H. apply Z.mod_divide in H; [|lia].
  apply Z.divide_prime_mul in H; [|assumption].
  destruct H as [H|H]; apply Z.mod_divide in H; lia.
Qed.

Lemma small_mod_nonzero x : 0 < Z.abs x < p -> x mod p <> 0.
Proof.
  intros Hx H. apply Z.mod_divide in H; [|lia]. now apply small_not_divide in H.
Qed.

Lemma inverse_of_nonzero z : 0 < z < p ->
  exists w, inverseMod z p = Ok w /\ 0 <= w < p /\ congruent p (z * w) 1.
Proof.
  intros Hz.
  assert (Hgcd : Z.gcd z p = 1).
  { rewrite Z.gcd_comm. apply Z.coprime_prime_small; [assumption|lia]. }
  destruct (proj1 (inverseMod_correct z p ltac:(lia)) Hgcd) as (w & Hw & Hr & Hd).
  exists w. split; [assumption|]. split; [lia|].
  apply congruent_divide; [lia|assumption].
Qed.

End PrimeModulus.

Section Invariant.

Variable c : ECDSANamedCurve.
Hypothesis p_prime : Z.prime (curve_p c).
Hypothesis p_odd : curve_p c mod 2 = 1.

Local Abbreviation p := (curve_p c).
Local Abbreviation a := (curve_a c).
Local Abbreviation b := (curve_b c).

Let p_ge_3 : 3 <= p := NumberFacts.p_ge_3 p p_prime p_odd.

Lemma pointAtInfinity_valid : jacobian_on_curve c pointAtInfinity.
Proof. now left. Qed.

Lemma isAtInfinity_proper J :
  0 < jac_z J -> isAtInfinity J = false.
Proof.
  intros Hz. unfold isAtInfinity.
  destruct (Z.eqb_spec (jac_z J) 0); [lia|]. now rewrite andb_false_r.
Qed.

Lemma fromAffine_valid P : on_curve c P -> jacobian_on_curve c (fromAffine P).
Proof.
  intros (Hx & Hy & E). right. unfold fromAffine. cbn [jac_x jac_y jac_z].
  repeat split; try lia.
  rewrite E. apply eq_refl_congruent. ring.
Qed.

Lemma doubleJacobian_valid J :
  jacobian_on_curve c J ->
  exists J', doubleJacobian c J = Ok J' /\ jacobian_on_curve c J'.
Proof.
  intros [->|(Hx & Hy & Hz & E)].
  - exists pointAtInfinity. split; [reflexivity|apply pointAtInfinity_valid].
  - unfold doubleJacobian. rewrite isAtInfinity_proper by lia.
    destruct (Z.eqb_spec (jac_y J) 0) as [Hy0|Hy0].
    + exists pointAtInfinity. split; [reflexivity|apply pointAtInfinity_valid].
    + destruct J as [X Y Z]. cbn [jac_x jac_y jac_z] in *.
      repeat (rewrite euclideanMod_pos by lia; cbn [bind]).
      eexists. split; [reflexivity|]. right. cbn [jac_x jac_y jac_z].
      set (s := (4 * X * Y ^ 2) mod p).
      set (m := (3 * X ^ 2 + a * Z ^ 4) mod p).
      set (x3 := (m ^ 2 - 2 * s) mod p).
      set (y3 := (m * (s - x3) - 8 * Y ^ 4) mod p).
      set (z3 := (2 * Y * Z) mod p).
      assert (Hz3 : z3 <> 0).
      { unfold z3. repeat apply (mul_mod_nonzero p p_prime);
          apply (small_mod_nonzero p p_prime); lia. }
      pose proof (Z.mod_pos_bound (m ^ 2 - 2 * s) p ltac:(lia)).
      pose proof (Z.mod_pos_bound (m * (s - x3) - 8 * Y ^ 4) p ltac:(lia)).
      pose proof (Z.mod_pos_bound (2 * Y * Z) p ltac:(lia)).
      split; [assumption|]. split; [assumption|]. split; [fold z3 in H1; lia|].
      assert (Es : congruent p s (4 * X * Y ^ 2)) by apply congruent_mod.
      assert (Em : congruent p m (3 * X ^ 2 + a * Z ^ 4)) by apply congruent_mod.
      assert (Ex : congruent p x3 ((3 * X ^ 2 + a * Z ^ 4) ^ 2 - 2 * (4 * X * Y ^ 2))).
      { unfold x3. rewrite congruent_mod, Es, Em. reflexivity. }
      assert (Ey : congruent p y3
                ((3 * X ^ 2 + a * Z ^ 4)
                 * (4 * X * Y ^ 2 - ((3 * X ^ 2 + a * Z ^ 4) ^ 2 - 2 * (4 * X * Y ^ 2)))
                 - 8 * Y ^ 4)).
      { unfold y3. rewrite congruent_mod, Es, Em, Ex. reflexivity. }
      assert (Ez : congruent p z3 (2 * Y * Z)) by apply congruent_mod.
      rewrite Ex, Ey, Ez.
      eapply congruent_of_difference; [apply double_identity|].
      now apply congruent_zero_sub.
Qed.

Lemma addJacobian_valid J1 J2 :
  jacobian_on_curve c J1 -> jacobian_on_curve c J2 ->
  exists J', addJacobian c J1 J2 = Ok J' /\ jacobian_on_curve c J'.
Proof.
  intros H1 H2. pose proof H1 as H1'. pose proof H2 as H2'.
  destruct H1 as [->|(Hx1 & Hy1 & Hz1 & E1)].
  { exists J2. split; [reflexivity|assumption]. }
  destruct H2 as [->|(Hx2 & Hy2 & Hz2 & E2)].
  { exists J1. split; [|assumption].
    unfold addJacobian. now rewrite isAtInfinity_proper by lia. }
  unfold addJacobian. rewrite !isAtInfinity_proper by lia.
  cbv zeta.
  repeat (rewrite euclideanMod_pos by lia; cbn [bind]).
  destruct J1 as [X1 Y1 Z1]. destruct J2 as [X2 Y2 Z2]. cbn [jac_x jac_y jac_z] in *.
  set (u1 := (X1 * Z2 ^ 2) mod p).
  set (u2 := (X2 * Z1 ^ 2) mod p).
  set (s1 := (Y1 * Z2 ^ 2 * Z2) mod p).
  set (s2 := (Y2 * Z1 ^ 2 * Z1) mod p).
  pose proof (Z.mod_pos_bound (X1 * Z2 ^ 2) p ltac:(lia)) as Hu1. fold u1 in Hu1.
  pose proof (Z.mod_pos_bound (X2 * Z1 ^ 2) p ltac:(lia)) as Hu2. fold u2 in Hu2.
  destruct (Z.eqb_spec u1 u2) as [Hu|Hu].
  { destruct (s1 =? s2); cbn [negb].
    - apply (doubleJacobian_valid (mk_jacobian X1 Y1 Z1) H1').
    - exists pointAtInfinity. split; [reflexivity|apply pointAtInfinity_valid]. }
  repeat (rewrite euclideanMod_pos by lia; cbn [bind]).
  eexists. split; [reflexivity|]. right. cbn [jac_x jac_y jac_z].
  set (h := u2 - u1). set (r := s2 - s1).
  set (x3 := (r ^ 2 - h ^ 3 - 2 * u1 * h ^ 2) mod p).
  set (y3 := (r * (u1 * h ^ 2 - x3) - s1 * h ^ 3) mod p).
  set (z3 := (h * Z1 * Z2) mod p).
  assert (Hz3 : z3 <> 0).
  { unfold z3. repeat apply (mul_mod_nonzero p p_prime);
      apply (small_mod_nonzero p p_prime); unfold h; lia. }
  pose proof (Z.mod_pos_bound (r ^ 2 - h ^ 3 - 2 * u1 * h ^ 2) p ltac:(lia)).
  pose proof (Z.mod_pos_bound (r * (u1 * h ^ 2 - x3) - s1 * h ^ 3) p ltac:(lia)).
  pose proof (Z.mod_pos_bound (h * Z1 * Z2) p ltac:(lia)) as Hb3. fold z3 in Hb3.
  split; [assumption|]. split; [assumption|]. split; [lia|].
  set (W := Z1 * Z2).
  assert (F1 : congruent p (s1 ^ 2 - (u1 ^ 3 + a * u1 * W ^ 4 + b * W ^ 6)) 0).
  { unfold s1, u1. rewrite !congruent_mod.
    replace ((Y1 * Z2 ^ 2 * Z2) ^ 2) with (Y1 ^ 2 * Z2 ^ 6) by ring.
    rewrite E1. apply eq_refl_congruent. unfold W. ring. }
  assert (F2 : congruent p (s2 ^ 2 - (u2 ^ 3 + a * u2 * W ^ 4 + b * W ^ 6)) 0).
  { unfold s2, u2. rewrite !congruent_mod.
    replace ((Y2 * Z1 ^ 2 * Z1) ^ 2) with (Y2 ^ 2 * Z1 ^ 6) by ring.
    rewrite E2. apply eq_refl_congruent. unfold W. ring. }
  assert (Ex : congruent p x3 (r ^ 2 - h ^ 3 - 2 * u1 * h ^ 2)) by apply congruent_mod.
  assert (Ey : congruent p y3
            (r * (u1 * h ^ 2 - (r ^ 2 - h ^ 3 - 2 * u1 * h ^ 2)) - s1 * h ^ 3)).
  { unfold y3. rewrite congruent_mod, Ex. reflexivity. }
  assert (Ez : congruent p z3 (h * W)).
  { unfold z3. rewrite congruent_mod. apply eq_refl_congruent. unfold W. ring. }
  rewrite Ex, Ey, Ez.
  eapply congruent_of_difference2; [apply add_identity|exact F1|exact F2].
Qed.

Lemma toAffine_valid J :
  jacobian_on_curve c J ->
  exists P, toAffine c J = Ok P /\ on_curve_or_null c P /\
    (P = None <-> J = pointAtInfinity).
Proof.
  intros [->|(Hx & Hy & Hz & E)].
  - exists None. split; [reflexivity|]. split; [exact I|tauto].
  - unfold toAffine. rewrite isAtInfinity_proper by lia.
    destruct (inverse_of_nonzero p p_prime (jac_z J) Hz) as (w & -> & Hw & Hzw).
    cbn [bind]. repeat (rewrite euclideanMod_pos by lia; cbn [bind]).
    eexists. split; [reflexivity|]. split.
    + cbn [on_curve_or_null]. unfold on_curve. cbn [point_x point_y].
      split; [apply Z.mod_pos_bound; lia|]. split; [apply Z.mod_pos_bound; lia|].
      destruct J as [X Y Z]. cbn [jac_x jac_y jac_z] in *.
      rewrite !congruent_mod.
      replace ((Y * w ^ 2 * w) ^ 2) with (Y ^ 2 * w ^ 6) by ring.
      rewrite E.
      replace ((X ^ 3 + a * X * Z ^ 4 + b * Z ^ 6) * w ^ 6)
        with ((X * w ^ 2) ^ 3 + a * (X * w ^ 2) * (Z * w) ^ 4 + b * (Z * w) ^ 6) by ring.
      rewrite Hzw. apply eq_refl_congruent. ring.
    + split; [discriminate|]. intros ->. cbn [jac_z pointAtInfinity] in Hz. lia.
Qed.

Lemma multiply_loop_valid kBytes : forall todo i res temp,
  jacobian_on_curve c res -> jacobian_on_curve c temp ->
  exists res', multiply_loop c kBytes todo i res temp = Ok res' /\
    jacobian_on_curve c res'.
Proof.
  induction todo as [|todo IH]; intros i res temp Hres Htemp; cbn [multiply_loop].
  - exists res. split; [reflexivity|assumption].
  - destruct (doubleJacobian_valid temp Htemp) as (temp' & Et & Htemp').
    destruct (multiply_bit kBytes i).
    + destruct (addJacobian_valid res temp Hres Htemp) as (res' & Er & Hres').
      rewrite Er, Et. cbn [bind]. now apply IH.
    + rewrite Et. cbn [bind]. now apply IH.
Qed.

Lemma multiply_valid k P :
  on_curve c P ->
  exists Q, multiply c k P = Ok Q /\ on_curve_or_null c Q.
Proof.
  intros HP. unfold multiply. cbv zeta.
  destruct (multiply_loop_valid (bigIntBytes k) (bitLength k) 0 pointAtInfinity
              (mk_jacobian (point_x P) (point_y P) 1)
              pointAtInfinity_valid (fromAffine_valid P HP)) as (res & -> & Hres).
  cbn [bind]. destruct (toAffine_valid res Hres) as (Q & HQ & Hon & _).
  exists Q. now split.
Qed.

Lemma add_valid P Q :
  on_curve c P -> on_curve c Q ->
  exists R, add c P Q = Ok R /\ on_curve_or_null c R.
Proof.
  intros HP HQ. unfold add. cbv zeta.
  destruct (addJacobian_valid _ _ (fromAffine_valid P HP) (fromAffine_valid Q HQ))
    as (J & -> & HJ).
  cbn [bind]. destruct (toAffine_valid J HJ) as (R & HR & Hon & _).
  exists R. now split.
Qed.

Lemma double_valid P :
  on_curve c P ->
  exists R, double c P = Ok R /\ on_curve_or_null c R.
Proof.
  intros HP. unfold double. cbv zeta.
  destruct (doubleJacobian_valid _ (fromAffine_valid P HP)) as (J & -> & HJ).
  cbn [bind]. destruct (toAffine_valid J HJ) as (R & HR & Hon & _).
  exists R. now split.
Qed.

End Invariant.

End JacobianFacts.

(** * The group law in affine coordinates *)

Module CurveLawFacts.
Import Binary MathTs Curve.
Import MathSpec MathFacts NumberFacts CurveSpec CurveFacts JacobianFacts.

Section Laws.

Variable c : ECDSANamedCurve.

Local Abbreviation p := (curve_p c).
Local Abbreviation a := (curve_a c).

Lemma isAtInfinity_fromAffine P : isAtInfinity (fromAffine P) = false.
Proof.
  unfold isAtInfinity, fromAffine. cbn [jac_x jac_y jac_z].
  change (1 =? 0) with false. now rewrite andb_false_r.
Qed.

Lemma euclideanMod_defined x : p <> 0 -> exists r, euclideanMod x p = Ok r.
Proof.
  intros Hp. unfold euclideanMod, bigint_rem.
  destruct (Z.eqb_spec p 0); [contradiction|]. cbn [bind].
  destruct (Z.rem x p <? 0); eauto.
Qed.

Lemma add_same P : p <> 0 -> add c P P = double c P.
Proof.
  intros Hp. unfold add, double, addJacobian. cbv zeta.
  rewrite isAtInfinity_fromAffine.
  destruct (euclideanMod_defined (jac_x (fromAffine P) * jac_z (fromAffine P) ^ 2) Hp)
    as [u ->].
  destruct (euclideanMod_defined
              (jac_y (fromAffine P) * jac_z (fromAffine P) ^ 2 * jac_z (fromAffine P)) Hp)
    as [s ->].
  cbn [bind]. rewrite !Z.eqb_refl. cbn [negb]. reflexivity.
Qed.

Lemma add_opposite x y :
  p mod 2 = 1 -> 0 < y < p ->
  add c (mk_point x y) (mk_point x (p - y)) = Ok None.
Proof.
  intros Hodd Hy. assert (Hp : 1 < p) by lia. unfold add, addJacobian. cbv zeta.
  rewrite !isAtInfinity_fromAffine. unfold fromAffine. cbn [jac_x jac_y jac_z point_x point_y].
  repeat (rewrite euclideanMod_pos by lia; cbn [bind]).
  rewrite Z.eqb_refl.
  change (1 ^ 2) with 1. rewrite !Z.mul_1_r.
  rewrite (Z.mod_small y), (Z.mod_small (p - y)) by lia.
  destruct (Z.eqb_spec y (p - y)) as [E|E].
  - exfalso. pose proof (Z.div_mod p 2 ltac:(lia)). lia.
  - reflexivity.
Qed.

Lemma double_order_two x : double c (mk_point x 0) = Ok None.
Proof.
  unfold double, doubleJacobian. cbv zeta. now rewrite isAtInfinity_fromAffine.
Qed.

Lemma toAffine_improper J :
  1 < p -> isAtInfinity J = false -> (p | jac_z J) ->
  toAffine c J = Throw (Error not_coprime_msg).
Proof.
  intros Hp Hinf Hdiv. unfold toAffine. rewrite Hinf.
  assert (Hgcd : Z.gcd (jac_z J) p <> 1).
  { intros E. assert (Hd : (p | Z.gcd (jac_z J) p))
      by (apply Z.gcd_greatest; [assumption|apply Z.divide_refl]).
    rewrite E in Hd. apply Z.divide_1_r_nonneg in Hd; lia. }
  now rewrite (proj2 (inverseMod_correct (jac_z J) p ltac:(lia)) Hgcd).
Qed.

Hypothesis p_prime : Z.prime p.

Let p_ge_2 : 2 <= p := Z.prime_ge_2 p p_prime.

Lemma add_chord x1 y1 x2 y2 :
  x1 mod p <> x2 mod p ->
  exists x3 y3 l,
    add c (mk_point x1 y1) (mk_point x2 y2) = Ok (Some (mk_point x3 y3)) /\
    0 <= x3 < p /\ 0 <= y3 < p /\
    congruent p (l * (x2 - x1)) (y2 - y1) /\
    congruent p x3 (l ^ 2 - x1 - x2) /\
    congruent p y3 (l * (x1 - x3) - y1).
Proof.
  intros Hx. unfold add, addJacobian. cbv zeta.
  rewrite !isAtInfinity_fromAffine. unfold fromAffine. cbn [jac_x jac_y jac_z point_x point_y].
  repeat (rewrite euclideanMod_pos by lia; cbn [bind]).
  change (1 ^ 2) with 1. rewrite !Z.mul_1_r.
  destruct (Z.eqb_spec (x1 mod p) (x2 mod p)) as [|_]; [contradiction|].
  repeat (rewrite euclideanMod_pos by lia; cbn [bind]).
  set (u1 := x1 mod p) in *. set (u2 := x2 mod p) in *.
  set (s1 := y1 mod p). set (s2 := y2 mod p).
  set (h := u2 - u1). set (r := s2 - s1).
  set (X3 := (r ^ 2 - h ^ 3 - 2 * u1 * h ^ 2) mod p).
  set (Y3 := (r * (u1 * h ^ 2 - X3) - s1 * h ^ 3) mod p).
  set (Z3 := h mod p).
  pose proof (Z.mod_pos_bound x1 p ltac:(lia)) as Hu1. fold u1 in Hu1.
  pose proof (Z.mod_pos_bound x2 p ltac:(lia)) as Hu2. fold u2 in Hu2.
  assert (Hz3 : Z3 <> 0).
  { apply (small_mod_nonzero p p_prime). unfold h. lia. }
  pose proof (Z.mod_pos_bound h p ltac:(lia)) as Hb3. fold Z3 in Hb3.
  cbn [bind]. unfold toAffine. rewrite isAtInfinity_proper by (cbn [jac_z]; lia).
  cbn [jac_x jac_y jac_z].
  destruct (inverse_of_nonzero p p_prime Z3 ltac:(lia)) as (w & -> & Hw & Hzw).
  cbn [bind]. repeat (rewrite euclideanMod_pos by lia; cbn [bind]).
  exists ((X3 * w ^ 2) mod p), ((Y3 * w ^ 2 * w) mod p), (r * w).
  split; [reflexivity|].
  split; [apply Z.mod_pos_bound; lia|]. split; [apply Z.mod_pos_bound; lia|].
  assert (Hhw : congruent p (h * w) 1).
  { rewrite <- Hzw. unfold Z3. now rewrite congruent_mod. }
  assert (Eh : congruent p h (x2 - x1)).
  { unfold h, u1, u2. now rewrite !congruent_mod. }
  assert (Er : congruent p r (y2 - y1)).
  { unfold r, s1, s2. now rewrite !congruent_mod. }
  assert (Eu1 : congruent p u1 x1) by apply congruent_mod.
  assert (Es1 : congruent p s1 y1) by apply congruent_mod.
  assert (EX : congruent p (X3 * w ^ 2) ((r * w) ^ 2 - x1 - x2)).
  { unfold X3. rewrite congruent_mod.
    replace ((r ^ 2 - h ^ 3 - 2 * u1 * h ^ 2) * w ^ 2)
      with ((r * w) ^ 2 - h * (h * w) ^ 2 - 2 * u1 * (h * w) ^ 2) by ring.
    rewrite Hhw, Eh, Eu1. apply eq_refl_congruent. ring. }
  split; [|split].
  - rewrite <- Eh, <- Er.
    replace (r * w * h) with (r * (h * w)) by ring.
    rewrite Hhw. apply eq_refl_congruent. ring.
  - now rewrite congruent_mod.
  - rewrite !congruent_mod. unfold Y3. rewrite congruent_mod.
    replace ((r * (u1 * h ^ 2 - X3) - s1 * h ^ 3) * w ^ 2 * w)
      with (r * w * (u1 * (h * w) ^ 2 - X3 * w ^ 2) - s1 * (h * w) ^ 3) by ring.
    rewrite Hhw, Eu1, Es1. apply eq_refl_congruent. ring.
Qed.

Lemma double_tangent x y :
  p mod 2 = 1 -> y mod p <> 0 ->
  exists x3 y3 l,
    double c (mk_point x y) = Ok (Some (mk_point x3 y3)) /\
    0 <= x3 < p /\ 0 <= y3 < p /\
    congruent p (l * (2 * y)) (3 * x ^ 2 + a) /\
    congruent p x3 (l ^ 2 - 2 * x) /\
    congruent p y3 (l * (x - x3) - y).
Proof.
  intros Hodd Hy.
  pose proof (NumberFacts.p_ge_3 p p_prime Hodd) as H3.
  unfold double, doubleJacobian. cbv zeta.
  rewrite !isAtInfinity_fromAffine. unfold fromAffine. cbn [jac_x jac_y jac_z point_x point_y].
  destruct (Z.eqb_spec y 0) as [->|_]; [rewrite Z.mod_0_l in Hy by lia; contradiction|].
  repeat (rewrite euclideanMod_pos by lia; cbn [bind]).
  change (1 ^ 4) with 1. rewrite !Z.mul_1_r.
  set (s := (4 * x * y ^ 2) mod p).
  set (m := (3 * x ^ 2 + a) mod p).
  set (X3 := (m ^ 2 - 2 * s) mod p).
  set (Y3 := (m * (s - X3) - 8 * y ^ 4) mod p).
  set (Z3 := (2 * y) mod p).
  assert (Hz3 : Z3 <> 0).
  { unfold Z3. apply (mul_mod_nonzero p p_prime); [|assumption].
    apply (small_mod_nonzero p p_prime). lia. }
  pose proof (Z.mod_pos_bound (2 * y) p ltac:(lia)) as Hb3. fold Z3 in Hb3.
  cbn [bind]. unfold toAffine. rewrite isAtInfinity_proper by (cbn [jac_z]; lia).
  cbn [jac_x jac_y jac_z].
  destruct (inverse_of_nonzero p p_prime Z3 ltac:(lia)) as (w & -> & Hw & Hzw).
  cbn [bind]. repeat (rewrite euclideanMod_pos by lia; cbn [bind]).
  exists ((X3 * w ^ 2) mod p), ((Y3 * w ^ 2 * w) mod p), (m * w).
  split; [reflexivity|].
  split; [apply Z.mod_pos_bound; lia|]. split; [apply Z.mod_pos_bound; lia|].
  assert (Hyw : congruent p (2 * y * w) 1).
  { rewrite <- Hzw. unfold Z3. now rewrite congruent_mod. }
  assert (Em : congruent p m (3 * x ^ 2 + a)) by apply congruent_mod.
  assert (Es : congruent p s (4 * x * y ^ 2)) by apply congruent_mod.
  assert (EX : congruent p (X3 * w ^ 2) ((m * w) ^ 2 - 2 * x)).
  { unfold X3. rewrite congruent_mod, Es.
    replace ((m ^ 2 - 2 * (4 * x * y ^ 2)) * w ^ 2)
      with ((m * w) ^ 2 - 2 * x * (2 * y * w) ^ 2) by ring.
    rewrite Hyw. apply eq_refl_congruent. ring. }
  split; [|split].
  - rewrite <- Em.
    replace (m * w * (2 * y)) with (m * (2 * y * w)) by ring.
    rewrite Hyw. apply eq_refl_congruent. ring.
  - now rewrite congruent_mod.
  - rewrite !congruent_mod. unfold Y3. rewrite congruent_mod, Es.
    replace ((m * (4 * x * y ^ 2 - X3) - 8 * y ^ 4) * w ^ 2 * w)
      with (m * w * (x * (2 * y * w) ^ 2 - X3 * w ^ 2) - y * (2 * y * w) ^ 3) by ring.
    rewrite Hyw, EX. apply eq_refl_congruent. ring.
Qed.

End Laws.

End CurveLawFacts.

(** * Small scalars of [multiply] *)

Module MultiplyFacts.
Import Binary MathTs Curve.
Import BinarySpec BinaryFacts CurveFacts.

Lemma multiply_two c P : 1 < curve_p c -> multiply c 2 P = double c P.
Proof.
  intros Hp. unfold multiply, double. cbv zeta.
  change (bigIntBytes 2) with [x02]. change (bitLength 2) with 2%nat.
  cbn [multiply_loop].
  change (multiply_bit [x02] 0) with false. change (multiply_bit [x02] 1) with true.
  cbv iota. cbn [bind]. unfold fromAffine.
  destruct (doubleJacobian_total c Hp (mk_jacobian (point_x P) (point_y P) 1)) as [j ->].
  cbn [bind]. change (addJacobian c pointAtInfinity j) with (Ok j). cbn [bind].
  destruct (doubleJacobian_total c Hp j) as [j' ->]. reflexivity.
Qed.

End MultiplyFacts.

(** * The outcomes of [verifyECDSASignature] *)

Module VerifyFacts.
Import Binary MathTs Curve CurveSec Ecdsa.
Import MathSpec MathFacts CurveSpec CurveFacts RegistryFacts Sec1Facts JacobianFacts.

Lemma registry_generator c : In c registry -> on_curve c (curve_g c).
Proof.
  intros Hin. cbn [registry In] in Hin. unfold on_curve, congruent.
  repeat (destruct Hin as [<-|Hin];
          [split; [split; [apply Z.leb_le|apply Z.ltb_lt]; vm_compute; reflexivity|];
           split; [split; [apply Z.leb_le|apply Z.ltb_lt]; vm_compute; reflexivity|];
           vm_compute; reflexivity|]).
  contradiction.
Qed.

Lemma registry_order_big c : In c registry -> 1 < curve_n c.
Proof.
  intros Hin. cbn [registry In] in Hin.
  repeat (destruct Hin as [<-|Hin]; [reflexivity|]). contradiction.
Qed.

Lemma isOnCurve_cofactor_one c P :
  curve_cofactor c = 1 -> 0 < curve_p c ->
  isOnCurve c P
  = Ok ((point_y P ^ 2) mod curve_p c
        =? (point_x P ^ 3 + curve_a c * point_x P + curve_b c) mod curve_p c).
Proof.
  intros Hc Hp. unfold isOnCurve. rewrite Hc.
  change (negb (1 =? 1)) with false. cbn [bind].
  now rewrite !euclideanMod_pos by assumption.
Qed.

Lemma registry_size_exact c : In c registry ->
  256 ^ Z.of_nat (curve_size c - 1) <= curve_p c < 256 ^ Z.of_nat (curve_size c).
Proof.
  intros Hin. cbn [registry In] in Hin.
  repeat (destruct Hin as [<-|Hin];
          [split; [apply Z.leb_le|apply Z.ltb_lt]; vm_compute; reflexivity|]).
  contradiction.
Qed.

Lemma verify_off_curve c x y hash sig :
  curve_cofactor c = 1 -> 0 < curve_p c ->
  ~ congruent (curve_p c) (y ^ 2) (x ^ 3 + curve_a c * x + curve_b c) ->
  verifyECDSASignature (mk_key c x y) hash sig = Ok false.
Proof.
  intros Hc Hp Hoff. unfold verifyECDSASignature. cbn [key_curve key_x key_y]. cbv zeta.
  rewrite isOnCurve_cofactor_one by assumption. cbn [bind point_x point_y].
  destruct (Z.eqb_spec ((y ^ 2) mod curve_p c)
              ((x ^ 3 + curve_a c * x + curve_b c) mod curve_p c)) as [E|E];
    [contradiction|reflexivity].
Qed.

Section Verify.

Variable c : ECDSANamedCurve.
Hypothesis c_named : In c registry.

Variables (x y : Z) (hash : list byte) (r s : Z).
Hypothesis x_range : 0 <= x < curve_p c.
Hypothesis y_range : 0 <= y < curve_p c.

Lemma verify_outcomes :
  (Z.gcd s (curve_n c) = 1 ->
   exists b, verifyECDSASignature (mk_key c x y) hash (mk_signature r s) = Ok b) /\
  (Z.gcd s (curve_n c) <> 1 ->
   verifyECDSASignature (mk_key c x y) hash (mk_signature r s) = Ok false \/
   verifyECDSASignature (mk_key c x y) hash (mk_signature r s)
   = Throw (Error not_coprime_msg)).
Proof.
  pose proof (registry_prime c c_named) as Hprime.
  pose proof (registry_odd c c_named) as Hodd.
  pose proof (registry_modulus c c_named) as Hp.
  pose proof (registry_order_big c c_named) as Hn.
  pose proof (registry_generator c c_named) as HG.
  unfold verifyECDSASignature. cbn [key_curve key_x key_y sig_r sig_s]. cbv zeta.
  rewrite isOnCurve_cofactor_one by (try apply registry_cofactor; try assumption; lia).
  cbn [bind point_x point_y].
  destruct (Z.eqb_spec ((y ^ 2) mod curve_p c)
              ((x ^ 3 + curve_a c * x + curve_b c) mod curve_p c)) as [E|E];
    cbn [negb]; [|split; eauto].
  assert (HQ : on_curve c (mk_point x y)) by (repeat split; cbn [point_x point_y]; lia || exact E).
  destruct (multiply_valid c Hprime Hodd (curve_n c) _ HQ) as (nq & -> & _).
  cbn [bind]. destruct (is_null nq); cbn [negb]; [|split; eauto].
  split.
  - intros Hgcd.
    destruct (proj1 (inverseMod_correct s (curve_n c) ltac:(lia)) Hgcd) as (w & -> & _).
    cbn [bind]. rewrite euclideanMod_pos by lia. cbn [bind].
    destruct (multiply_valid c Hprime Hodd
                ((bigIntFromBytes (slice hash 0 (curve_size c)) * w) mod curve_n c)
                _ HG) as ([u1G|] & -> & Hu1G); cbn [bind]; [|eauto].
    rewrite euclideanMod_pos by lia. cbn [bind].
    destruct (multiply_valid c Hprime Hodd ((r * w) mod curve_n c) _ HQ)
      as ([u2Q|] & -> & Hu2Q); cbn [bind]; [|eauto].
    destruct (add_valid c Hprime Hodd u1G u2Q Hu1G Hu2Q) as ([R|] & -> & _);
      cbn [bind]; [|eauto].
    rewrite euclideanMod_pos by lia. cbn [bind]. eauto.
  - intros Hgcd. right.
    now rewrite (proj2 (inverseMod_correct s (curve_n c) ltac:(lia)) Hgcd).
Qed.

End Verify.

End VerifyFacts.

(** * The byte encodings of signatures and keys *)

Module EncodingFacts.
Import Binary MathTs Curve Ecdsa.
Import BinarySpec BinaryFacts MathSpec MathFacts PowmodFacts Sec1Facts MathEdgeFacts.

Lemma byte_to_Z_inj b1 b2 : byte_to_Z b1 = byte_to_Z b2 -> b1 = b2.
Proof.
  unfold byte_to_Z. intros H. apply N2Z.inj in H.
  pose proof (Byte.of_to_N b1) as H1. pose proof (Byte.of_to_N b2) as H2.
  rewrite H in H1. congruence.
Qed.

Lemma be_value_bound l : 0 <= be_value l < 256 ^ Z.of_nat (List.length l).
Proof.
  induction l as [|b l IH]; cbn [be_value List.length].
  - change (256 ^ Z.of_nat 0) with 1. lia.
  - pose proof (byte_to_Z_range b).
    rewrite Nat2Z.inj_succ, Z.pow_succ_r by lia. nia.
Qed.

Lemma be_value_inj l1 : forall l2,
  List.length l1 = List.length l2 -> be_value l1 = be_value l2 -> l1 = l2.
Proof.
  induction l1 as [|b1 l1 IH]; intros [|b2 l2] Hlen Hv; try discriminate; [reflexivity|].
  cbn [List.length] in Hlen. injection Hlen as Hlen.
  cbn [be_value] in Hv. rewrite Hlen in Hv.
  pose proof (be_value_bound l1) as B1. pose proof (be_value_bound l2) as B2.
  rewrite Hlen in B1.
  set (m := 256 ^ Z.of_nat (List.length l2)) in *.
  assert (Hb : byte_to_Z b1 = byte_to_Z b2) by nia.
  f_equal; [now apply byte_to_Z_inj|].
  apply IH; [assumption|]. rewrite Hb in Hv. lia.
Qed.

Lemma byteLength_gt v size : 256 ^ Z.of_nat size <= v -> (size < byteLength v)%nat.
Proof.
  intros Hle.
  assert (Hpos : 0 < 256 ^ Z.of_nat size) by (apply Z.pow_pos_nonneg; lia).
  pose proof (byteLength_bound v ltac:(lia)) as Hb.
  assert (H : 256 ^ Z.of_nat size < 256 ^ Z.of_nat (byteLength v)) by lia.
  apply Z.pow_lt_mono_r_iff in H; lia.
Qed.

Lemma padded_canonical size xs :
  List.length xs = size -> (1 <= size)%nat ->
  padded size (bigIntBytes (be_value xs)) = xs.
Proof.
  intros Hlen Hsize. pose proof (be_value_bound xs) as Hb. rewrite Hlen in Hb.
  assert (Hfit : (List.length (bigIntBytes (be_value xs)) <= size)%nat)
    by (apply bigIntBytes_fits; lia).
  apply be_value_inj.
  - rewrite padded_length by assumption. now symmetry.
  - rewrite padded_value. apply bigIntBytes_value. lia.
Qed.

(** ** IEEE P1363 signatures *)

Lemma encodeIEEEP1363_bytes sig c :
  (List.length (bigIntBytes (sig_r sig)) <= curve_size c)%nat ->
  (List.length (bigIntBytes (sig_s sig)) <= curve_size c)%nat ->
  encodeIEEEP1363 sig c
  = Ok (padded (curve_size c) (bigIntBytes (sig_r sig))
        ++ padded (curve_size c) (bigIntBytes (sig_s sig))).
Proof.
  intros Hr Hs. unfold encodeIEEEP1363. set (size := curve_size c) in *.
  destruct (Nat.ltb_spec size (List.length (bigIntBytes (sig_r sig)))); [lia|].
  destruct (Nat.ltb_spec size (List.length (bigIntBytes (sig_s sig)))); [lia|].
  unfold zeros. replace (size * 2)%nat with (size + size)%nat by lia. rewrite repeat_app.
  rewrite (set_bytes_padded [] (repeat x00 size) _ size) by (cbn [List.length]; lia).
  cbn [bind app].
  pose proof (set_bytes_padded (padded size (bigIntBytes (sig_r sig))) []
                (bigIntBytes (sig_s sig)) size
                (Z.of_nat size * 2 - Z.of_nat (List.length (bigIntBytes (sig_s sig))))
                Hs) as E.
  rewrite app_nil_r in E. rewrite E.
  - cbn [bind]. now rewrite app_nil_r.
  - rewrite padded_length by assumption. lia.
Qed.

Lemma decodeIEEEP1363_halves c xs ys :
  List.length xs = curve_size c -> List.length ys = curve_size c ->
  decodeIEEEP1363ECDSASignature c (xs ++ ys) = new_signature (be_value xs) (be_value ys).
Proof.
  intros Hx Hy. unfold decodeIEEEP1363ECDSASignature.
  rewrite length_app.
  replace (List.length xs + List.length ys =? curve_size c * 2)%nat with true
    by (symmetry; apply Nat.eqb_eq; lia).
  cbn [negb]. unfold slice. cbn [skipn]. rewrite Nat.sub_0_r, <- Hx.
  rewrite firstn_app, Nat.sub_diag, firstn_O, app_nil_r, firstn_all.
  rewrite skipn_app, skipn_all, Nat.sub_diag, skipn_O. cbn [app].
  now rewrite !bigIntFromBytes_be.
Qed.

Lemma new_signature_ok r s : 1 <= r -> 1 <= s -> new_signature r s = Ok (mk_signature r s).
Proof.
  intros Hr Hs. unfold new_signature.
  destruct (Z.ltb_spec r 1); [lia|]. destruct (Z.ltb_spec s 1); [lia|]. reflexivity.
Qed.

Lemma new_signature_inv r s sig : new_signature r s = Ok sig ->
  sig = mk_signature r s /\ 1 <= r /\ 1 <= s.
Proof.
  unfold new_signature.
  destruct (Z.ltb_spec r 1); [discriminate|]. destruct (Z.ltb_spec s 1); [discriminate|].
  cbn [orb]. intros [= <-]. auto.
Qed.

Lemma size_positive v size : 1 <= v < 256 ^ Z.of_nat size -> (1 <= size)%nat.
Proof.
  intros Hv. destruct size; [|lia]. change (256 ^ Z.of_nat 0) with 1 in Hv. lia.
Qed.

Lemma ieee_round_trip c r s :
  1 <= r < 256 ^ Z.of_nat (curve_size c) ->
  1 <= s < 256 ^ Z.of_nat (curve_size c) ->
  exists bytes,
    encodeIEEEP1363 (mk_signature r s) c = Ok bytes /\
    List.length bytes = (2 * curve_size c)%nat /\
    decodeIEEEP1363ECDSASignature c bytes = Ok (mk_signature r s).
Proof.
  intros Hr Hs. pose proof (size_positive r _ Hr) as Hsize.
  assert (Hrfit : (List.length (bigIntBytes r) <= curve_size c)%nat)
    by (apply bigIntBytes_fits; lia).
  assert (Hsfit : (List.length (bigIntBytes s) <= curve_size c)%nat)
    by (apply bigIntBytes_fits; lia).
  eexists. split; [now apply encodeIEEEP1363_bytes|]. cbn [sig_r sig_s].
  split.
  - rewrite length_app, !padded_length by assumption. lia.
  - rewrite decodeIEEEP1363_halves by (apply padded_length; assumption).
    rewrite !padded_value, !bigIntBytes_value by lia.
    apply new_signature_ok; lia.
Qed.

Lemma ieee_too_large c r s :
  0 <= r -> 0 <= s ->
  (256 ^ Z.of_nat (curve_size c) <= r ->
   encodeIEEEP1363 (mk_signature r s) c = Throw (Error "'r' is too large")) /\
  (1 <= r < 256 ^ Z.of_nat (curve_size c) -> 256 ^ Z.of_nat (curve_size c) <= s ->
   encodeIEEEP1363 (mk_signature r s) c = Throw (Error "'s' is too large")).
Proof.
  intros Hr0 Hs0. unfold encodeIEEEP1363. cbn [sig_r sig_s].
  rewrite !bigIntBytes_length by assumption. split.
  - intros Hr. apply byteLength_gt in Hr.
    destruct (Nat.ltb_spec (curve_size c) (byteLength r)); [reflexivity|lia].
  - intros Hr Hs. pose proof (size_positive r _ Hr) as Hsize.
    pose proof (byteLength_le r (curve_size c) ltac:(lia) ltac:(lia) Hsize).
    apply byteLength_gt in Hs.
    destruct (Nat.ltb_spec (curve_size c) (byteLength r)); [lia|].
    destruct (Nat.ltb_spec (curve_size c) (byteLength s)); [reflexivity|lia].
Qed.

Lemma ieee_decode_encode c bytes sig :
  decodeIEEEP1363ECDSASignature c bytes = Ok sig ->
  1 <= sig_r sig < 256 ^ Z.of_nat (curve_size c) /\
  1 <= sig_s sig < 256 ^ Z.of_nat (curve_size c) /\
  encodeIEEEP1363 sig c = Ok bytes.
Proof.
  intros Hdec.
  assert (Hlen : List.length bytes = (curve_size c * 2)%nat).
  { unfold decodeIEEEP1363ECDSASignature in Hdec.
    destruct (Nat.eqb_spec (List.length bytes) (curve_size c * 2)); [assumption|discriminate]. }
  rewrite <- (firstn_skipn (curve_size c) bytes) in Hdec |- *.
  set (xs := firstn (curve_size c) bytes) in *.
  set (ys := skipn (curve_size c) bytes) in *.
  assert (Hx : List.length xs = curve_size c) by (unfold xs; rewrite length_firstn; lia).
  assert (Hy : List.length ys = curve_size c) by (unfold ys; rewrite length_skipn; lia).
  rewrite decodeIEEEP1363_halves in Hdec by assumption.
  apply new_signature_inv in Hdec. destruct Hdec as (-> & Hr & Hs). cbn [sig_r sig_s].
  pose proof (be_value_bound xs) as Bx. pose proof (be_value_bound ys) as By.
  rewrite Hx in Bx. rewrite Hy in By.
  pose proof (size_positive (be_value xs) (curve_size c) ltac:(lia)) as Hsize.
  split; [lia|]. split; [lia|].
  rewrite encodeIEEEP1363_bytes
    by (cbn [sig_r sig_s]; apply bigIntBytes_fits; lia).
  cbn [sig_r sig_s]. now rewrite !padded_canonical by assumption.
Qed.

Lemma ieee_zero_component c bytes :
  List.length bytes = (2 * curve_size c)%nat ->
  firstn (curve_size c) bytes = repeat x00 (curve_size c) \/
  skipn (curve_size c) bytes = repeat x00 (curve_size c) ->
  decodeIEEEP1363ECDSASignature c bytes = Throw (TypeError "Invalid signature").
Proof.
  intros Hlen Hzero.
  rewrite <- (firstn_skipn (curve_size c) bytes).
  rewrite decodeIEEEP1363_halves
    by (rewrite ?length_firstn, ?length_skipn; lia).
  unfold new_signature.
  destruct Hzero as [-> | ->]; rewrite be_value_zeros.
  - reflexivity.
  - change (0 <? 1) with true. now rewrite orb_true_r.
Qed.

(** ** SEC1 public keys *)

Lemma sec1_errors fuel c bytes :
  (bytes = [] -> decodeSEC1PublicKey fuel c bytes = Some (Throw (Error invalid_key_msg))) /\
  (forall first rest, bytes = first :: rest ->
     first <> x02 -> first <> x03 -> first <> x04 ->
     decodeSEC1PublicKey fuel c bytes = Some (Throw (Error "Unknown encoding format"))) /\
  (forall rest, bytes = x04 :: rest -> List.length rest <> (2 * curve_size c)%nat ->
     decodeSEC1PublicKey fuel c bytes = Some (Throw (Error invalid_key_msg))) /\
  (forall first rest, bytes = first :: rest -> first = x02 \/ first = x03 ->
     List.length rest <> curve_size c ->
     decodeSEC1PublicKey fuel c bytes = Some (Throw (Error invalid_key_msg))).
Proof.
  split; [intros ->; reflexivity|]. split; [|split].
  - intros first rest -> H2 H3 H4. unfold decodeSEC1PublicKey.
    cbn [List.length Nat.ltb Nat.leb nth].
    destruct (Byte.eqb first x04) eqn:E4; [apply Byte.byte_dec_bl in E4; contradiction|].
    destruct (Byte.eqb first x02) eqn:E2; [apply Byte.byte_dec_bl in E2; contradiction|].
    destruct (Byte.eqb first x03) eqn:E3; [apply Byte.byte_dec_bl in E3; contradiction|].
    reflexivity.
  - intros rest -> Hlen. unfold decodeSEC1PublicKey.
    cbn [List.length Nat.ltb Nat.leb nth]. change (Byte.eqb x04 x04) with true. cbv iota.
    destruct (Nat.eqb_spec (S (List.length rest)) (curve_size c * 2 + 1)); [lia|].
    reflexivity.
  - intros first rest -> Hfirst Hlen. unfold decodeSEC1PublicKey.
    cbn [List.length Nat.ltb Nat.leb nth].
    destruct (Nat.eqb_spec (S (List.length rest)) (curve_size c + 1)); [lia|].
    destruct Hfirst as [->| ->]; reflexivity.
Qed.

Lemma sec1_decode_encode c bytes :
  (1 <= curve_size c)%nat ->
  List.length bytes = (curve_size c * 2 + 1)%nat -> nth 0 bytes x00 = x04 ->
  exists key,
    (forall fuel, decodeSEC1PublicKey fuel c bytes = Some (Ok key)) /\
    key_curve key = c /\
    0 <= key_x key < 256 ^ Z.of_nat (curve_size c) /\
    0 <= key_y key < 256 ^ Z.of_nat (curve_size c) /\
    encodeSEC1Uncompressed key = Ok bytes.
Proof.
  intros Hsize Hlen Hfirst.
  destruct bytes as [|first rest]; [cbn in Hlen; lia|].
  cbn [nth] in Hfirst. subst first. cbn [List.length] in Hlen.
  rewrite <- (firstn_skipn (curve_size c) rest).
  set (xs := firstn (curve_size c) rest).
  set (ys := skipn (curve_size c) rest).
  assert (Hx : List.length xs = curve_size c) by (unfold xs; rewrite length_firstn; lia).
  assert (Hy : List.length ys = curve_size c) by (unfold ys; rewrite length_skipn; lia).
  pose proof (be_value_bound xs) as Bx. pose proof (be_value_bound ys) as By.
  rewrite Hx in Bx. rewrite Hy in By.
  exists (mk_key c (be_value xs) (be_value ys)).
  split; [intros fuel; now apply decode_uncompressed|].
  cbn [key_curve key_x key_y]. split; [reflexivity|]. split; [lia|]. split; [lia|].
  rewrite encodeSEC1Uncompressed_bytes
    by (cbn [key_curve key_x key_y]; apply bigIntBytes_fits; lia).
  cbn [key_curve key_x key_y]. now rewrite !padded_canonical by assumption.
Qed.

Lemma sec1_oversized_abscissa c x y :
  (1 <= curve_size c)%nat ->
  0 <= y < 256 ^ Z.of_nat (curve_size c) ->
  (256 ^ Z.of_nat (curve_size c) <= x < 256 ^ Z.of_nat (curve_size c + 1) ->
   encodeSEC1Uncompressed (mk_key c x y)
   = Ok (bigIntBytes x ++ padded (curve_size c) (bigIntBytes y))) /\
  (256 ^ Z.of_nat (curve_size c + 1) <= x ->
   encodeSEC1Uncompressed (mk_key c x y) = Throw (RangeError "offset is out of bounds")).
Proof.
  intros Hsize Hy.
  assert (Hpos : 0 < 256 ^ Z.of_nat (curve_size c)) by (apply Z.pow_pos_nonneg; lia).
  assert (Hyfit : (List.length (bigIntBytes y) <= curve_size c)%nat)
    by (apply bigIntBytes_fits; lia).
  unfold encodeSEC1Uncompressed. cbn [key_curve key_x key_y].
  set (size := curve_size c) in *.
  unfold zeros. cbn [Nat.add repeat set_first]. split.
  - intros Hx.
    assert (Hlx : List.length (bigIntBytes x) = S size).
    { rewrite bigIntBytes_length by lia.
      pose proof (byteLength_gt x size ltac:(lia)).
      pose proof (byteLength_le x (size + 1) ltac:(lia) ltac:(lia) ltac:(lia)). lia. }
    assert (E1 : set_bytes (x04 :: repeat x00 (size * 2)) (bigIntBytes x)
                   (1 + Z.of_nat size - Z.of_nat (List.length (bigIntBytes x)))
                 = Ok (bigIntBytes x ++ repeat x00 size)).
    { unfold set_bytes. rewrite Hlx. cbn [List.length]. rewrite repeat_length.
      replace (1 + Z.of_nat size - Z.of_nat (S size)) with 0 by lia.
      change (0 <? 0) with false.
      destruct (Z.ltb_spec (Z.of_nat (S (size * 2))) (0 + Z.of_nat (S size))); [lia|].
      cbn [orb Z.to_nat firstn app Nat.add skipn]. f_equal. f_equal.
      replace (size * 2)%nat with (size + size)%nat by lia.
      rewrite repeat_app, skipn_app, repeat_length, Nat.sub_diag, skipn_O.
      now rewrite skipn_all2 by (rewrite repeat_length; lia). }
    rewrite E1. cbn [bind].
    pose proof (set_bytes_padded (bigIntBytes x) [] (bigIntBytes y) size
                  (1 + Z.of_nat size * 2 - Z.of_nat (List.length (bigIntBytes y)))
                  Hyfit) as E2.
    rewrite app_nil_r in E2. rewrite E2 by lia. cbn [bind]. now rewrite app_nil_r.
  - intros Hx.
    pose proof (byteLength_gt x (size + 1) Hx) as Hgt.
    unfold set_bytes at 1. rewrite bigIntBytes_length by lia.
    destruct (Z.ltb_spec (1 + Z.of_nat size - Z.of_nat (byteLength x)) 0); [|lia].
    reflexivity.
Qed.

(** ** Compressed keys: the parity of the decoded ordinate *)

Lemma fbind_ok {A B} (r : fueled A) (k : A -> fueled B) b :
  fbind r k = Some (Ok b) -> exists a, r = Some (Ok a) /\ k a = Some (Ok b).
Proof.
  destruct r as [[a|e]|]; cbn [fbind]; try discriminate. eauto.
Qed.

Lemma powmod_range x y p r : 1 < p -> powmod x y p = Ok r -> 0 <= r < p.
Proof.
  intros Hp H. destruct (Z.le_gt_cases y 0) as [Hy|Hy].
  - rewrite powmod_nonpositive in H by lia. injection H as <-. lia.
  - rewrite powmod_spec in H by lia. injection H as <-. apply Z.mod_pos_bound. lia.
Qed.

Lemma main_loop_range p : 1 < p -> forall fuel r t c m r',
  0 <= r < p -> main_loop fuel r t c m p = Some (Ok r') -> 0 <= r' < p.
Proof.
  intros Hp. induction fuel as [|fuel IH]; intros r t c m r' Hr H; cbn [main_loop] in H.
  - destruct (t =? 1); [|discriminate]. now injection H as <-.
  - destruct (t =? 1); [now injection H as <-|].
    apply fbind_ok in H. destruct H as (i & _ & H).
    apply fbind_ok in H. destruct H as (e & _ & H).
    apply fbind_ok in H. destruct H as (b & _ & H).
    apply fbind_ok in H. destruct H as (c' & _ & H).
    apply fbind_ok in H. destruct H as (b2 & _ & H).
    apply fbind_ok in H. destruct H as (t' & _ & H).
    apply fbind_ok in H. destruct H as (r2 & Hr2 & H).
    unfold lift in Hr2. rewrite euclideanMod_pos in Hr2 by lia.
    injection Hr2 as <-.
    eapply IH; [|exact H]. apply Z.mod_pos_bound. lia.
Qed.

Lemma tonelliShanks_range fuel n p r :
  1 < p -> tonelliShanks fuel n p = Some (Ok r) -> 0 <= r < p.
Proof.
  intros Hp H. unfold tonelliShanks in H.
  destruct (Z.rem p 4 =? 3).
  - unfold lift in H. injection H as H. now apply powmod_range in H.
  - apply fbind_ok in H. destruct H as (e & _ & H).
    destruct (e =? p - 1); [discriminate|].
    apply fbind_ok in H. destruct H as ([q s] & _ & H).
    apply fbind_ok in H. destruct H as (z & _ & H).
    apply fbind_ok in H. destruct H as (r0 & Hr0 & H).
    apply fbind_ok in H. destruct H as (t & _ & H).
    apply fbind_ok in H. destruct H as (c & _ & H).
    unfold lift in Hr0. injection Hr0 as Hr0. apply powmod_range in Hr0; [|assumption].
    now apply (main_loop_range p Hp fuel r0 t c s r).
Qed.

Lemma sec1_compressed_parity fuel c first xs key :
  1 < curve_p c -> curve_p c mod 2 = 1 ->
  first = x02 \/ first = x03 ->
  decodeSEC1PublicKey fuel c (first :: xs) = Some (Ok key) ->
  key_curve key = c /\ key_x key = be_value xs /\
  0 <= key_y key <= curve_p c /\
  key_y key mod 2 = (if Byte.eqb first x02 then 0 else 1).
Proof.
  intros Hp Hodd Hfirst H.
  assert (Hlen : List.length xs = curve_size c).
  { destruct (Nat.eq_dec (List.length xs) (curve_size c)) as [|Hne]; [assumption|].
    pose proof (proj2 (proj2 (proj2 (sec1_errors fuel c (first :: xs))))
                  first xs eq_refl Hfirst Hne) as E.
    rewrite E in H. discriminate. }
  rewrite decode_compressed in H by (assumption || lia).
  apply fbind_ok in H. destruct H as (r & Hr & H).
  apply tonelliShanks_range in Hr; [|assumption].
  pose proof (Z.div_mod (curve_p c) 2 ltac:(lia)) as Hp2.
  pose proof (Z.div_mod r 2 ltac:(lia)) as Hr2.
  pose proof (Z.mod_pos_bound r 2 ltac:(lia)) as Hrb.
  pose proof (Z.div_mod (curve_p c - r) 2 ltac:(lia)) as Hc2.
  pose proof (Z.mod_pos_bound (curve_p c - r) 2 ltac:(lia)) as Hcb.
  rewrite Z.rem_mod_nonneg in H by lia.
  destruct (Z.eqb_spec (r mod 2) (if Byte.eqb first x02 then 0 else 1)) as [E|E];
    injection H as <-; cbn [key_curve key_x key_y];
    (split; [reflexivity|]); (split; [reflexivity|]); (split; [lia|]).
  - exact E.
  - destruct (Byte.eqb first x02); lia.
Qed.

End EncodingFacts.

(** * No point of order two on the named curves *)

Module TorsionFacts.
Import Binary MathTs Curve CurveSec Ecdsa.
Import BinarySpec BinaryFacts MathSpec MathFacts NumberFacts PowmodFacts TonelliFacts.
Import CurveSpec CurveFacts RegistryFacts Cubic CubicFacts CubicRegistry Sec1Facts.
Import MathEdgeFacts JacobianFacts CurveLawFacts EncodingFacts.

Lemma registry_no_root c : In c registry ->
  forall r, (r ^ 3 + curve_a c * r + curve_b c) mod curve_p c <> 0.
Proof.
  intros Hin. pose proof (registry_prime c Hin) as Hprime.
  cbn [registry In] in Hin.
  destruct Hin as [<-|Hin];
    [apply (no_root_check_sound _ _ _ secp192k1_inverse Hprime); vm_compute; reflexivity|].
  destruct Hin as [<-|Hin];
    [apply (no_root_check_sound _ _ _ secp192r1_inverse Hprime); vm_compute; reflexivity|].
  destruct Hin as [<-|Hin]; [exact secp224k1_no_root|].
  destruct Hin as [<-|Hin]; [exact secp224r1_no_root|].
  destruct Hin as [<-|Hin];
    [apply (no_root_check_sound _ _ _ secp256k1_inverse Hprime); vm_compute; reflexivity|].
  destruct Hin as [<-|Hin];
    [apply (no_root_check_sound _ _ _ secp256r1_inverse Hprime); vm_compute; reflexivity|].
  destruct Hin as [<-|Hin];
    [apply (no_root_check_sound _ _ _ secp384r1_inverse Hprime); vm_compute; reflexivity|].
  destruct Hin as [<-|Hin];
    [apply (no_root_check_sound _ _ _ secp521r1_inverse Hprime); vm_compute; reflexivity|].
  contradiction.
Qed.

Lemma on_curve_ordinate c P : In c registry -> on_curve c P -> 0 < point_y P < curve_p c.
Proof.
  intros Hin (Hx & Hy & E).
  destruct (Z.eq_dec (point_y P) 0) as [Hy0|Hy0]; [|lia].
  exfalso. apply (registry_no_root c Hin (point_x P)).
  unfold congruent in E. rewrite <- E, Hy0.
  pose proof (registry_modulus c Hin). apply Z.mod_0_l. lia.
Qed.

Lemma registry_double c P : In c registry -> on_curve c P ->
  exists Q, double c P = Ok (Some Q) /\ on_curve c Q.
Proof.
  intros Hin HP.
  pose proof (registry_prime c Hin) as Hprime. pose proof (registry_odd c Hin) as Hodd.
  pose proof (on_curve_ordinate c P Hin HP) as Hy.
  destruct (double_valid c Hprime Hodd P HP) as (R & HR & Hon).
  destruct P as [x y]. cbn [point_y] in Hy.
  destruct (double_tangent c Hprime x y Hodd) as (x3 & y3 & l & Hd & _).
  { rewrite Z.mod_small; lia. }
  rewrite Hd in HR. injection HR as <-. exists (mk_point x3 y3). now split.
Qed.

Section Ordinate.

Variable c : ECDSANamedCurve.
Hypothesis c_named : In c registry.

Let p_prime : Z.prime (curve_p c) := registry_prime c c_named.
Let p_odd : curve_p c mod 2 = 1 := registry_odd c c_named.
Let p_big : 1 < curve_p c := registry_modulus c c_named.

Lemma pow_mod_nonzero n e : 0 <= e -> n mod curve_p c <> 0 -> n ^ e mod curve_p c <> 0.
Proof.
  intros He Hn. pattern e. apply natlike_ind; [| |assumption].
  - rewrite Z.pow_0_r, Z.mod_1_l by lia. discriminate.
  - intros k Hk IH. rewrite Z.pow_succ_r by assumption.
    now apply (mul_mod_nonzero (curve_p c) p_prime).
Qed.

Lemma registry_root_nonzero fuel n r :
  (256 <= fuel)%nat -> 0 < n < curve_p c ->
  tonelliShanks fuel n (curve_p c) = Some (Ok r) -> 0 < r < curve_p c.
Proof.
  intros Hfuel Hn Hr.
  assert (Hnz : n mod curve_p c <> 0) by (rewrite Z.mod_small; lia).
  pose proof (tonelliShanks_range fuel n (curve_p c) r p_big Hr) as Hrange.
  enough (r <> 0) by lia. intros ->.
  destruct (registry_square_roots c c_named)
    as [H4|(H4 & Hsmall & (z & Hz & Hzk) & _)].
  - unfold tonelliShanks in Hr. rewrite Z.rem_mod_nonneg, H4 in Hr by lia.
    change (3 =? 3) with true in Hr. cbv iota in Hr.
    rewrite Z.quot_div_nonneg in Hr by lia.
    assert (He : 0 <= (curve_p c + 1) / 4) by (apply Z.div_pos; lia).
    unfold lift in Hr. rewrite powmod_spec in Hr by lia.
    injection Hr as Hr. now apply (pow_mod_nonzero n _ He Hnz).
  - destruct (fermat_half (curve_p c) p_prime p_odd n Hnz) as [E|E].
    + destruct (square_of_euler (curve_p c) p_prime p_odd n Hnz E) as (x & Hx).
      rewrite (Z.mod_small n) in Hx by lia.
      assert (Hxnz : x mod curve_p c <> 0).
      { intros Hx0. rewrite Z.mul_mod, Hx0 in Hx by lia.
        rewrite Z.mod_0_l in Hx by lia. lia. }
      destruct (tonelliShanks_general_fuel (curve_p c) p_prime p_odd x fuel z H4 Hxnz)
        as (r' & Hr' & Hcases); try lia; try assumption.
      * apply Z.lt_le_trans with (2 ^ 256); [assumption|].
        apply Z.pow_le_mono_r; lia.
      * rewrite Hx, Hr in Hr'. injection Hr' as <-.
        pose proof (Z.mod_pos_bound x (curve_p c) ltac:(lia)). lia.
    + unfold tonelliShanks in Hr. rewrite Z.rem_mod_nonneg in Hr by lia.
      destruct (Z.eqb_spec (curve_p c mod 4) 3); [contradiction|].
      unfold lift in Hr. rewrite (half_quot (curve_p c) p_prime p_odd), powmod_spec in Hr
        by (try apply Z.div_pos; lia).
      cbn [fbind] in Hr. rewrite E, Z.eqb_refl in Hr. discriminate.
Qed.

Lemma registry_decoded_ordinate fuel first xs key :
  (256 <= fuel)%nat -> first = x02 \/ first = x03 ->
  decodeSEC1PublicKey fuel c (first :: xs) = Some (Ok key) ->
  0 < key_y key < curve_p c.
Proof.
  intros Hfuel Hfirst H.
  assert (Hlen : List.length xs = curve_size c).
  { destruct (Nat.eq_dec (List.length xs) (curve_size c)) as [|Hne]; [assumption|].
    pose proof (proj2 (proj2 (proj2 (sec1_errors fuel c (first :: xs))))
                  first xs eq_refl Hfirst Hne) as E.
    rewrite E in H. discriminate. }
  rewrite decode_compressed in H by (assumption || lia).
  apply fbind_ok in H. destruct H as (r & Hr & H).
  set (n := (be_value xs ^ 3 + curve_a c * be_value xs + curve_b c) mod curve_p c) in *.
  assert (Hn : 0 < n < curve_p c).
  { pose proof (Z.mod_pos_bound (be_value xs ^ 3 + curve_a c * be_value xs + curve_b c)
                  (curve_p c) ltac:(lia)) as Hb. fold n in Hb.
    pose proof (registry_no_root c c_named (be_value xs)) as Hroot. fold n in Hroot. lia. }
  pose proof (registry_root_nonzero fuel n r Hfuel Hn Hr) as Hrange.
  destruct (Z.rem r 2 =? (if Byte.eqb first x02 then 0 else 1));
    injection H as <-; cbn [key_y]; lia.
Qed.

End Ordinate.

End TorsionFacts.

(** * Two runs of [verifyECDSASignature] that reach the final comparison *)

Module SignatureFacts.
Import Binary MathTs Curve CurveSec Ecdsa Signatures.
Import CurveFacts EcdsaFacts.

Lemma sig2_on_curve : isOnCurve secp256r1 sig2_Q = Ok true.
Proof. vm_compute. reflexivity. Qed.
Lemma sig2_order : multiply secp256r1 (curve_n secp256r1) sig2_Q = Ok None.
Proof. apply multiply_null_by_eval; vm_compute; reflexivity. Qed.
Lemma sig2_inverse : inverseMod sig2_r (curve_n secp256r1) = Ok sig2_w.
Proof. vm_compute. reflexivity. Qed.
Lemma sig2_u1 :
  euclideanMod (bigIntFromBytes (slice sig2_hash 0 (curve_size secp256r1)) * sig2_w)
    (curve_n secp256r1) = Ok 1.
Proof. vm_compute. reflexivity. Qed.
Lemma sig2_u2 : euclideanMod (sig2_r * sig2_w) (curve_n secp256r1) = Ok 1.
Proof. vm_compute. reflexivity. Qed.
Lemma sig2_u1G : multiply secp256r1 1 (curve_g secp256r1) = Ok (Some (curve_g secp256r1)).
Proof. vm_compute. reflexivity. Qed.
Lemma sig2_u2Q : multiply secp256r1 1 sig2_Q = Ok (Some sig2_Q).
Proof. vm_compute. reflexivity. Qed.
Lemma sig2_sum : add secp256r1 (curve_g secp256r1) sig2_Q = Ok (Some sig2_R).
Proof. vm_compute. reflexivity. Qed.
Lemma sig2_rn : euclideanMod sig2_r (curve_n secp256r1) = Ok sig2_r.
Proof. vm_compute. reflexivity. Qed.

(** The signature [(r, s)] on the digest is accepted: the run passes every
    step and the final comparison of [r mod n] with the abscissa of [R]
    succeeds. *)
Lemma sig2_verify :
  verifyECDSASignature sig2_key sig2_hash (mk_signature sig2_r sig2_r) = Ok true.
Proof.
  rewrite (verify_trace sig2_key sig2_hash (mk_signature sig2_r sig2_r) sig2_w 1 1
             (curve_g secp256r1) sig2_Q sig2_R sig2_r
             sig2_on_curve sig2_order sig2_inverse sig2_u1 sig2_u1G sig2_u2 sig2_u2Q
             sig2_sum sig2_rn).
  unfold sig2_r. now rewrite Z.eqb_refl.
Qed.

Lemma sig1_on_curve : isOnCurve secp256r1 (curve_g secp256r1) = Ok true.
Proof. vm_compute. reflexivity. Qed.
Lemma sig1_order :
  multiply secp256r1 (curve_n secp256r1) (curve_g secp256r1) = Ok None.
Proof. apply registry_order. cbn [registry In]. tauto. Qed.
Lemma sig1_inverse : inverseMod sig1_r (curve_n secp256r1) = Ok sig1_w.
Proof. vm_compute. reflexivity. Qed.
Lemma sig1_u1 :
  euclideanMod (bigIntFromBytes (slice sig1_hash 0 (curve_size secp256r1)) * sig1_w)
    (curve_n secp256r1) = Ok 1.
Proof. vm_compute. reflexivity. Qed.
Lemma sig1_u2 : euclideanMod (sig1_r * sig1_w) (curve_n secp256r1) = Ok 1.
Proof. vm_compute. reflexivity. Qed.
Lemma sig1_u1G : multiply secp256r1 1 (curve_g secp256r1) = Ok (Some (curve_g secp256r1)).
Proof. vm_compute. reflexivity. Qed.
Lemma sig1_sum :
  add secp256r1 (curve_g secp256r1) (curve_g secp256r1) = Ok (Some sig1_R).
Proof. vm_compute. reflexivity. Qed.
Lemma sig1_rn : euclideanMod sig1_r (curve_n secp256r1) = Ok sig1_r.
Proof. vm_compute. reflexivity. Qed.

Lemma sig1_verify :
  verifyECDSASignature sig1_key sig1_hash (mk_signature sig1_r sig1_r) = Ok true.
Proof.
  rewrite (verify_trace sig1_key sig1_hash (mk_signature sig1_r sig1_r) sig1_w 1 1
             (curve_g secp256r1) (curve_g secp256r1) sig1_R sig1_r
             sig1_on_curve sig1_order sig1_inverse sig1_u1 sig1_u1G sig1_u2 sig1_u1G
             sig1_sum sig1_rn).
  unfold sig1_r. now rewrite Z.eqb_refl.
Qed.

End SignatureFacts.

(** * The claims *)

Module Claims.
Import Binary MathTs Curve CurveSec Ecdsa Inputs.
Import BinarySpec BinaryFacts MathSpec MathFacts NumberFacts PowmodFacts TonelliFacts CurveEval CurveEvalFacts CurveFacts EcdsaFacts InputFacts.
Import PowmodEval Primality PrimalityFacts RegistryFacts Cubic CubicFacts Sec1Facts.
Import Signatures SignatureFacts.
(** C1 (evaluation at the failing input).  The claim says that
    [verifyECDSASignature] answers [false] when [signature.s] has no inverse
    modulo [curve.n].  On secp256r1, with the base point as public key (it is
    on the curve and [n * G] is the identity) and the signature [(1, n)],
    which the constructor accepts, [gcd(s, n) = n <> 1] and the call does not
    return: the error of [inverseMod] leaves [verifyECDSASignature]. *)
Theorem C1_inverse_error_escapes :
  new_signature 1 (curve_n secp256r1) = Ok c1_sig /\
  isOnCurve secp256r1 (curve_g secp256r1) = Ok true /\
  multiply secp256r1 (curve_n secp256r1) (curve_g secp256r1) = Ok None /\
  Z.gcd (sig_s c1_sig) (curve_n secp256r1) <> 1 /\
  verifyECDSASignature c1_key c1_hash c1_sig = Throw (Error not_coprime_msg).
Proof.
  split; [reflexivity|]. split; [exact c1_on_curve|]. split; [exact c1_order|].
  split; [exact c1_not_coprime|]. exact c1_verify.
Qed.

(** C2 (evaluation at the failing input).  The claim says that, once steps
    1 to 8 succeed, the answer is [true] exactly when [r = R.x (mod n)].  On
    secp256r1 take the key [Q], the digest [3] and the signature [(3, 3)]
    above: [Q] is on the curve, [n * Q] is the identity, [u1 = u2 = 1],
    [u1 * G], [u2 * Q] and their sum [R] are not the identity, [R.x = n + 3]
    lies in [[n, p)] and [r = 3] is congruent to it modulo [n]; yet the
    call answers [false], because [R.x] is compared without being reduced
    modulo [n]. *)
Theorem C2_abscissa_not_reduced :
  let curve := secp256r1 in
  isOnCurve curve c2_Q = Ok true /\
  multiply curve (curve_n curve) c2_Q = Ok None /\
  inverseMod (sig_s c2_sig) (curve_n curve) = Ok c2_w /\
  euclideanMod (bigIntFromBytes (slice c2_hash 0 (curve_size curve)) * c2_w)
    (curve_n curve) = Ok 1 /\
  euclideanMod (sig_r c2_sig * c2_w) (curve_n curve) = Ok 1 /\
  multiply curve 1 (curve_g curve) = Ok (Some (curve_g curve)) /\
  multiply curve 1 c2_Q = Ok (Some c2_Q) /\
  add curve (curve_g curve) c2_Q = Ok (Some c2_R) /\
  curve_n curve <= point_x c2_R < curve_p curve /\
  (sig_r c2_sig - point_x c2_R) mod curve_n curve = 0 /\
  verifyECDSASignature c2_key c2_hash c2_sig = Ok false.
Proof.
  cbv zeta.
  split; [exact c2_on_curve|]. split; [exact c2_order|]. split; [exact c2_inverse|].
  split; [exact c2_u1|]. split; [exact c2_u2|]. split; [exact c2_u1G|].
  split; [exact c2_u2Q|]. split; [exact c2_sum|].
  split; [vm_compute; split; [discriminate|reflexivity]|].
  split; [vm_compute; reflexivity|]. exact c2_verify.
Qed.

(** C3 (evaluation at the failing inputs).  The claim says that
    [tonelliShanks] fails on a non-residue.  [3] is not a square modulo the
    odd prime [7], yet [tonelliShanks 3 7] returns [2], whose square is [4]:
    when [p % 4 = 3] the function returns [n ** ((p + 1) / 4)] without any
    test.  In the same way [decodeSEC1PublicKey] on secp256r1 and the
    compressed encoding of the abscissa [1] returns a key, and that key is
    not on the curve. *)
Theorem C3_fast_path_returns_non_root (fuel : nat) :
  (forall y, (y * y) mod 7 <> 3) /\
  tonelliShanks fuel 3 7 = Some (Ok 2) /\
  (2 * 2) mod 7 <> 3 mod 7 /\
  decodeSEC1PublicKey fuel secp256r1 c3_bytes = Some (Ok c3_key) /\
  isOnCurve secp256r1 (mk_point (key_x c3_key) (key_y c3_key)) = Ok false.
Proof.
  split; [exact c3_no_root|]. split; [reflexivity|]. split; [discriminate|].
  split; [exact (c3_decode fuel)|exact c3_off_curve].
Qed.

(** C4. For every odd prime [p] and every integer [x] such that
    [x * x mod p] is a quadratic residue (a non-zero square) modulo [p], the
    call [tonelliShanks (x * x mod p) p] returns, and the value [r] it
    returns is [x mod p] or [p - x mod p].  A fuel of [p] turns is enough for
    the loops of the function. *)
Theorem C4_tonelliShanks_root (p x : Z) (fuel : nat) :
  Z.prime p -> p mod 2 = 1 ->
  quadratic_residue ((x * x) mod p) p ->
  (Z.to_nat p <= fuel)%nat ->
  exists r, tonelliShanks fuel ((x * x) mod p) p = Some (Ok r) /\
    (r = x mod p \/ r = p - x mod p).
Proof.
  intros Hp Hodd [Hnz _] Hfuel.
  apply tonelliShanks_root; try assumption.
  intros Hx. apply Hnz.
  pose proof (Z.prime_ge_2 p Hp).
  rewrite Z.mod_mod, Z.mul_mod, Hx by lia. reflexivity.
Qed.

Lemma C4_tonelliShanks_root_witness :
  exists r, tonelliShanks 17 ((5 * 5) mod 17) 17 = Some (Ok r) /\
    (r = 5 mod 17 \/ r = 17 - 5 mod 17).
Proof.
  apply (C4_tonelliShanks_root 17 5 17 prime_17).
  - reflexivity.
  - split; [vm_compute; discriminate|]. exists 5. reflexivity.
  - vm_compute. lia.
Defined.


(** C5. For every curve [c] of the registry and every public key [pub] on
    it (coordinates in [[0, p)], [isOnCurve] accepts the point):
    [encodeSEC1Uncompressed pub] returns bytes that [decodeSEC1PublicKey c]
    decodes to [pub] itself (same curve, [x], [y]); [encodeSEC1Compressed pub]
    returns bytes whose prefix is [0x02] for an even [y] and [0x03] for an
    odd one, and [decodeSEC1PublicKey c] decodes them to [pub] as well, so
    the square root it selects is the one of the parity the prefix names.
    A fuel of 256 turns is enough for the loops of [tonelliShanks]. *)
Theorem C5_sec1_round_trip (c : ECDSANamedCurve) (x y : Z) :
  In c registry ->
  0 <= x < curve_p c -> 0 <= y < curve_p c ->
  isOnCurve c (mk_point x y) = Ok true ->
  let pub := mk_key c x y in
  (exists bytes, encodeSEC1Uncompressed pub = Ok bytes /\
     forall fuel, decodeSEC1PublicKey fuel c bytes = Some (Ok pub)) /\
  (exists bytes, encodeSEC1Compressed pub = Ok bytes /\
     nth 0 bytes x00 = (if Z.even y then x02 else x03) /\
     forall fuel, (256 <= fuel)%nat ->
       decodeSEC1PublicKey fuel c bytes = Some (Ok pub)).
Proof. exact (sec1_round_trip c x y). Qed.

Lemma C5_sec1_round_trip_witness :
  let c := secp224r1 in
  let x := point_x (curve_g c) in
  let y := point_y (curve_g c) in
  let pub := mk_key c x y in
  (exists bytes, encodeSEC1Uncompressed pub = Ok bytes /\
     forall fuel, decodeSEC1PublicKey fuel c bytes = Some (Ok pub)) /\
  (exists bytes, encodeSEC1Compressed pub = Ok bytes /\
     nth 0 bytes x00 = (if Z.even y then x02 else x03) /\
     forall fuel, (256 <= fuel)%nat ->
       decodeSEC1PublicKey fuel c bytes = Some (Ok pub)).
Proof.
  apply (C5_sec1_round_trip secp224r1).
  - cbn [registry In]. tauto.
  - split; [apply Z.leb_le|apply Z.ltb_lt]; vm_compute; reflexivity.
  - split; [apply Z.leb_le|apply Z.ltb_lt]; vm_compute; reflexivity.
  - vm_compute. reflexivity.
Defined.
(** C6. For every integer [a] and every modulus [n] with [|n| > 1]: when
    [gcd(a, n) = 1], [inverseMod a n] returns some [s] in [[0, |n|)] with
    [a * s = 1 (mod n)]; when [gcd(a, n) <> 1] (which includes [a = 0 (mod n)])
    it throws the error "a and n is not relatively prime". *)
Theorem C6_inverseMod_spec (a n : Z) :
  1 < Z.abs n ->
  (Z.gcd a n = 1 ->
     exists s, inverseMod a n = Ok s /\ 0 <= s < Z.abs n /\ (n | a * s - 1)) /\
  (Z.gcd a n <> 1 -> inverseMod a n = Throw (Error not_coprime_msg)).
Proof. exact (inverseMod_correct a n). Qed.

Lemma C6_inverseMod_spec_witness :
  (exists s, inverseMod 3 (-7) = Ok s /\ 0 <= s < Z.abs (-7) /\ (-7 | 3 * s - 1)) /\
  inverseMod 14 (-7) = Throw (Error not_coprime_msg).
Proof.
  split.
  - apply (proj1 (C6_inverseMod_spec 3 (-7) eq_refl)). reflexivity.
  - apply (proj2 (C6_inverseMod_spec 14 (-7) eq_refl)). discriminate.
Defined.

(** C8. For every curve and every byte buffer: when the length of the
    buffer is not exactly [2 * curve.size], [decodeIEEEP1363ECDSASignature]
    throws the decode error "Failed to decode signature: Invalid signature
    size"; when it is, the signature is built from the big-endian value of
    the first [curve.size] bytes as [r] and the big-endian value of the
    remaining [curve.size] bytes as [s]: no byte is dropped and none is
    added. *)
Theorem C8_decodeIEEEP1363_exact_length (curve : ECDSANamedCurve) (bytes : list byte) :
  decodeIEEEP1363ECDSASignature curve bytes =
    if (List.length bytes =? 2 * curve_size curve)%nat
    then new_signature (be_value (firstn (curve_size curve) bytes))
                       (be_value (skipn (curve_size curve) bytes))
    else Throw (Error invalid_size_msg).
Proof.
  unfold decodeIEEEP1363ECDSASignature, slice.
  rewrite (Nat.mul_comm (curve_size curve) 2).
  destruct (Nat.eqb_spec (List.length bytes) (2 * curve_size curve)) as [Hlen|Hlen];
    cbn [negb]; [|reflexivity].
  cbn [skipn]. rewrite Nat.sub_0_r, !bigIntFromBytes_be. reflexivity.
Qed.

(** C9. [verifyECDSASignature] reads the component [r] of the signature
    only through its residue modulo [curve.n]: for every public key and hash
    and all integers [r >= 1], [s >= 1] with [r + n >= 1], the two signatures
    [(r, s)] and [(r + n, s)] are accepted by the constructor and verifying
    one gives the same outcome as verifying the other. *)
Theorem C9_verify_residue_of_r (publicKey : ECDSAPublicKey) (hash : list byte) (r s : Z) :
  1 <= r -> 1 <= s -> 1 <= r + curve_n (key_curve publicKey) ->
  new_signature r s = Ok (mk_signature r s) /\
  new_signature (r + curve_n (key_curve publicKey)) s =
    Ok (mk_signature (r + curve_n (key_curve publicKey)) s) /\
  verifyECDSASignature publicKey hash (mk_signature (r + curve_n (key_curve publicKey)) s) =
  verifyECDSASignature publicKey hash (mk_signature r s).
Proof.
  intros Hr Hs Hrn.
  assert (Hnew : forall r', 1 <= r' -> new_signature r' s = Ok (mk_signature r' s)).
  { intros r' Hr'. unfold new_signature.
    destruct (Z.ltb_spec r' 1); [lia|]. destruct (Z.ltb_spec s 1); [lia|]. reflexivity. }
  split; [now apply Hnew|]. split; [now apply Hnew|].
  unfold verifyECDSASignature. cbn [sig_r sig_s]. cbv zeta.
  repeat step_bind.
  rewrite euclideanMod_add_modulus by assumption.
  repeat step_bind.
  rewrite euclideanMod_add_modulus_1 by assumption.
  reflexivity.
Qed.

(** On secp256r1 with the key [2 * G], the digest and the signature
    [(r, s)] of [Signatures]: the run of [verifyECDSASignature] passes every
    step, computes [R = G + Q] and reaches the final comparison, which
    succeeds for [r] and, by the theorem, for [r + n] as well. *)
Lemma C9_verify_residue_of_r_witness :
  new_signature sig2_r sig2_r = Ok (mk_signature sig2_r sig2_r) /\
  new_signature (sig2_r + curve_n secp256r1) sig2_r =
    Ok (mk_signature (sig2_r + curve_n secp256r1) sig2_r) /\
  verifyECDSASignature sig2_key sig2_hash
    (mk_signature (sig2_r + curve_n secp256r1) sig2_r) =
  verifyECDSASignature sig2_key sig2_hash (mk_signature sig2_r sig2_r) /\
  verifyECDSASignature sig2_key sig2_hash (mk_signature sig2_r sig2_r) = Ok true.
Proof.
  refine (let H := C9_verify_residue_of_r sig2_key sig2_hash sig2_r sig2_r _ _ _ in
          conj (proj1 H) (conj (proj1 (proj2 H)) (conj (proj2 (proj2 H)) sig2_verify))).
  - vm_compute. discriminate.
  - vm_compute. discriminate.
  - vm_compute. discriminate.
Defined.
(** C10. For every curve and every byte buffer of length
    [2 * curve.size + 1] whose first byte is [0x04], [decodeSEC1PublicKey]
    returns the key whose coordinates are the big-endian values of the two
    halves that follow the first byte; no test on the pair is made, so the
    call succeeds whether or not the pair satisfies the curve equation. *)
Theorem C10_decodeSEC1_uncompressed_unchecked (fuel : nat) (curve : ECDSANamedCurve)
    (bytes : list byte) :
  List.length bytes = (2 * curve_size curve + 1)%nat ->
  nth_error bytes 0 = Some x04 ->
  decodeSEC1PublicKey fuel curve bytes =
    Some (Ok (mk_key curve
                (be_value (firstn (curve_size curve) (skipn 1 bytes)))
                (be_value (skipn (curve_size curve + 1) bytes)))).
Proof.
  intros Hlen Hfirst. unfold decodeSEC1PublicKey, slice.
  destruct bytes as [|b rest]; [discriminate|].
  cbn [nth_error] in Hfirst. injection Hfirst as ->.
  cbn [nth]. rewrite Hlen.
  replace (2 * curve_size curve + 1 <? 1)%nat with false
    by (symmetry; apply Nat.ltb_ge; lia).
  change (Byte.eqb x04 x04) with true. cbv iota.
  replace (2 * curve_size curve + 1 =? curve_size curve * 2 + 1)%nat with true
    by (symmetry; apply Nat.eqb_eq; lia).
  cbn [negb]. rewrite !bigIntFromBytes_be.
  replace (curve_size curve + 1 - 1)%nat with (curve_size curve) by lia.
  reflexivity.
Qed.

(** The buffer [04 00 ... 00] of 65 bytes decodes on secp256r1 to the pair
    [(0, 0)], which is not on the curve. *)
Lemma C10_decodeSEC1_uncompressed_unchecked_witness :
  decodeSEC1PublicKey 0 secp256r1 (x04 :: repeat x00 64) =
    Some (Ok (mk_key secp256r1 0 0)) /\
  isOnCurve secp256r1 (mk_point 0 0) = Ok false.
Proof.
  split.
  - exact (C10_decodeSEC1_uncompressed_unchecked 0 secp256r1
             (x04 :: repeat x00 64) eq_refl eq_refl).
  - vm_compute. reflexivity.
Defined.

(** C7. On every curve of the table and for every affine point [P] on it
    (coordinates in [[0, p)], accepted by [isOnCurve]): [multiply 0 P] is the
    identity ([null]), [multiply 1 P] is [P], and [multiply curve.n curve.g]
    is the identity. *)
Theorem C7_multiply_laws (curve : ECDSANamedCurve) (P : ECDSAPoint) :
  In curve registry ->
  isOnCurve curve P = Ok true ->
  0 <= point_x P < curve_p curve ->
  0 <= point_y P < curve_p curve ->
  multiply curve 0 P = Ok None /\
  multiply curve 1 P = Ok (Some P) /\
  multiply curve (curve_n curve) (curve_g curve) = Ok None.
Proof.
  intros Hin _ Hx Hy. pose proof (registry_modulus curve Hin) as Hp.
  split; [|split].
  - now apply multiply_zero.
  - now apply multiply_one.
  - now apply registry_order.
Qed.

Lemma C7_multiply_laws_witness :
  multiply secp384r1 0 (curve_g secp384r1) = Ok None /\
  multiply secp384r1 1 (curve_g secp384r1) = Ok (Some (curve_g secp384r1)) /\
  multiply secp384r1 (curve_n secp384r1) (curve_g secp384r1) = Ok None.
Proof.
  apply (C7_multiply_laws secp384r1 (curve_g secp384r1)).
  - cbn [registry In]. tauto.
  - vm_compute. reflexivity.
  - vm_compute. split; [discriminate|reflexivity].
  - vm_compute. split; [discriminate|reflexivity].
Defined.

End Claims.

(** * Further properties of the ECDSA engine *)

Module Properties.
Import Binary MathTs Curve CurveSec Ecdsa Inputs.
Import BinarySpec BinaryFacts MathSpec MathFacts NumberFacts PowmodFacts TonelliFacts.
Import CurveSpec CurveFacts RegistryFacts Sec1Facts InputFacts.
Import MathEdgeFacts JacobianFacts CurveLawFacts MultiplyFacts VerifyFacts EncodingFacts.
Import TorsionFacts Signatures SignatureFacts.

Lemma secp256r1_named : In secp256r1 registry.
Proof. cbn [registry In]. tauto. Qed.

Lemma secp256r1_prime : Z.prime (curve_p secp256r1).
Proof. exact (registry_prime secp256r1 secp256r1_named). Qed.

Lemma secp256r1_odd : curve_p secp256r1 mod 2 = 1.
Proof. exact (registry_odd secp256r1 secp256r1_named). Qed.

Lemma secp256r1_modulus : 1 < curve_p secp256r1.
Proof. reflexivity. Qed.

(** ** [ecdsa/math.ts] *)

(** X1. For a positive modulus [y], [euclideanMod x y] returns the residue
    of [x] in [[0, y)]: a value [r] of that range with [y] dividing
    [x - r], for negative [x] as well. *)
Theorem X1_euclideanMod_residue (x y : Z) :
  0 < y ->
  exists r, euclideanMod x y = Ok r /\ 0 <= r < y /\ (y | x - r).
Proof. exact (euclideanMod_residue x y). Qed.

Lemma X1_euclideanMod_residue_witness :
  exists r, euclideanMod (-7) 5 = Ok r /\ 0 <= r < 5 /\ (5 | -7 - r).
Proof. apply (X1_euclideanMod_residue (-7) 5). lia. Defined.

(** X2. With a negative modulus [y] and a negative [x] that [y] does not
    divide, [euclideanMod x y] returns a value congruent to [x] that is
    negative and lies outside [[0, |y|)]: the correction [r + y] moves the
    negative remainder further down, into [(2 * y, y)]. *)
Theorem X2_euclideanMod_negative_modulus (x y : Z) :
  y < 0 -> x < 0 -> ~ (y | x) ->
  exists r, euclideanMod x y = Ok r /\ 2 * y < r < y /\ (y | x - r).
Proof. exact (euclideanMod_negative x y). Qed.

Lemma X2_euclideanMod_negative_modulus_witness :
  exists r, euclideanMod (-7) (-5) = Ok r /\ 2 * -5 < r < -5 /\ (-5 | -7 - r).
Proof.
  apply (X2_euclideanMod_negative_modulus (-7) (-5)); try lia.
  intros [k Hk]. lia.
Defined.

(** X3. For a modulus [p > 1] and an exponent [y >= 0], [powmod x y p]
    returns [x ^ y mod p]. *)
Theorem X3_powmod_power (x y p : Z) :
  1 < p -> 0 <= y -> powmod x y p = Ok (x ^ y mod p).
Proof. exact (powmod_spec x y p). Qed.

Lemma X3_powmod_power_witness : powmod 3 5 7 = Ok (3 ^ 5 mod 7).
Proof. apply (X3_powmod_power 3 5 7); lia. Defined.

(** X4. [powmod] at the edges: an exponent [y <= 0] gives [1] for every
    non-zero modulus, so [powmod x 0 1] is [1] and not the residue [0], and a
    negative exponent is not an error; the modulus [0] raises the division
    error of [x % p]. *)
Theorem X4_powmod_edges (x y p : Z) :
  (p <> 0 -> y <= 0 -> powmod x y p = Ok 1) /\
  powmod x y 0 = Throw (RangeError "Division by zero").
Proof.
  split; [apply powmod_nonpositive|apply powmod_zero_modulus].
Qed.

Lemma X4_powmod_edges_witness : powmod 5 0 1 = Ok 1.
Proof. apply (proj1 (X4_powmod_edges 5 0 1)); lia. Defined.

(** X5. [inverseMod] at the moduli its contract leaves out: the modulus
    [0] raises the division error, and the moduli [1] and [-1] give [0] for
    every [a]. *)
Theorem X5_inverseMod_small_moduli (a n : Z) :
  inverseMod a 0 = Throw (RangeError "Division by zero") /\
  (Z.abs n = 1 -> inverseMod a n = Ok 0).
Proof.
  split; [apply inverseMod_zero_modulus|apply inverseMod_unit_modulus].
Qed.

Lemma X5_inverseMod_small_moduli_witness : inverseMod 5 (-1) = Ok 0.
Proof. apply (proj2 (X5_inverseMod_small_moduli 5 (-1))). reflexivity. Defined.

(** X6. The square root of zero: for a prime [p] and [n = 0 (mod p)],
    [tonelliShanks n p] returns [0] when [p = 3 (mod 4)], and throws "Cannot
    find square root" when [p = 1 (mod 4)], although [0 * 0 = n (mod p)]: the
    search for the order of [t = 0] never finds a power equal to [1]. *)
Theorem X6_tonelliShanks_zero (p n : Z) :
  Z.prime p -> n mod p = 0 ->
  (p mod 4 = 3 -> forall fuel, tonelliShanks fuel n p = Some (Ok 0)) /\
  (p mod 4 = 1 -> forall fuel, (Z.to_nat p <= fuel)%nat ->
     tonelliShanks fuel n p = Some (Throw (Error no_root_msg))).
Proof.
  intros Hp Hn. split.
  - intros H4 fuel. now apply tonelliShanks_zero_fast.
  - intros H4 fuel Hfuel. now apply tonelliShanks_zero_general.
Qed.

Lemma X6_tonelliShanks_zero_witness :
  tonelliShanks 17 34 17 = Some (Throw (Error no_root_msg)).
Proof.
  apply (proj2 (X6_tonelliShanks_zero 17 34 prime_17 eq_refl) eq_refl 17%nat).
  vm_compute. lia.
Defined.

(** X7. Euler's test of the general path: for an odd prime [p] that is
    not [3 (mod 4)] and an [n] that is not a square modulo [p],
    [tonelliShanks n p] throws "Cannot find square root", before any loop
    runs. *)
Theorem X7_tonelliShanks_rejects_non_squares (p n : Z) (fuel : nat) :
  Z.prime p -> p mod 2 = 1 -> p mod 4 <> 3 ->
  n mod p <> 0 -> (forall y, (y * y) mod p <> n mod p) ->
  tonelliShanks fuel n p = Some (Throw (Error no_root_msg)).
Proof.
  intros Hp Hodd H4 Hn Hns. now apply tonelliShanks_nonresidue.
Qed.

Lemma X7_tonelliShanks_rejects_non_squares_witness :
  tonelliShanks 0 3 17 = Some (Throw (Error no_root_msg)).
Proof.
  apply (X7_tonelliShanks_rejects_non_squares 17 3 0 prime_17); try discriminate.
  - reflexivity.
  - intros y. rewrite <- Z.mul_mod_idemp_l, <- Z.mul_mod_idemp_r by lia.
    pose proof (Z.mod_pos_bound y 17 eq_refl) as Hy.
    assert (Hc : y mod 17 = 0 \/ y mod 17 = 1 \/ y mod 17 = 2 \/ y mod 17 = 3 \/
                 y mod 17 = 4 \/ y mod 17 = 5 \/ y mod 17 = 6 \/ y mod 17 = 7 \/
                 y mod 17 = 8 \/ y mod 17 = 9 \/ y mod 17 = 10 \/ y mod 17 = 11 \/
                 y mod 17 = 12 \/ y mod 17 = 13 \/ y mod 17 = 14 \/ y mod 17 = 15 \/
                 y mod 17 = 16) by lia.
    repeat (destruct Hc as [->|Hc]; [discriminate|]). rewrite Hc. discriminate.
Defined.

(** ** [ecdsa/curve.ts] *)

(** X8. Affine to Jacobian and back: for a modulus [p > 1] and a point
    with coordinates in [[0, p)], [toAffine (fromAffine P)] returns [P]. *)
Theorem X8_toAffine_fromAffine (c : ECDSANamedCurve) (P : ECDSAPoint) :
  1 < curve_p c ->
  0 <= point_x P < curve_p c -> 0 <= point_y P < curve_p c ->
  toAffine c (fromAffine P) = Ok (Some P).
Proof. intros Hp Hx Hy. now apply toAffine_fromAffine. Qed.

Lemma X8_toAffine_fromAffine_witness :
  toAffine secp256r1 (fromAffine (curve_g secp256r1)) = Ok (Some (curve_g secp256r1)).
Proof.
  apply (X8_toAffine_fromAffine secp256r1 (curve_g secp256r1) secp256r1_modulus).
  - split; [apply Z.leb_le|apply Z.ltb_lt]; vm_compute; reflexivity.
  - split; [apply Z.leb_le|apply Z.ltb_lt]; vm_compute; reflexivity.
Defined.

(** X9. Adding a point to itself is doubling it: for a non-zero modulus,
    [add P P] and [double P] are the same computation, with the same result
    or the same error. *)
Theorem X9_add_same_point (c : ECDSANamedCurve) (P : ECDSAPoint) :
  curve_p c <> 0 -> add c P P = double c P.
Proof. exact (add_same c P). Qed.

Lemma X9_add_same_point_witness :
  add secp256r1 (curve_g secp256r1) (curve_g secp256r1)
  = double secp256r1 (curve_g secp256r1).
Proof.
  apply (X9_add_same_point secp256r1 (curve_g secp256r1)). vm_compute. discriminate.
Defined.

(** X10. Opposite points: for an odd modulus [p] and [0 < y < p],
    [add (x, y) (x, p - y)] is [null], the point at infinity; and a point
    [(x, 0)], which is its own opposite, doubles to [null]. *)
Theorem X10_add_opposite_points (c : ECDSANamedCurve) (x y : Z) :
  curve_p c mod 2 = 1 -> 0 < y < curve_p c ->
  add c (mk_point x y) (mk_point x (curve_p c - y)) = Ok None /\
  double c (mk_point x 0) = Ok None.
Proof.
  intros Hodd Hy. split; [now apply add_opposite|apply double_order_two].
Qed.

Lemma X10_add_opposite_points_witness :
  add secp256r1 (mk_point 5 1) (mk_point 5 (curve_p secp256r1 - 1)) = Ok None /\
  double secp256r1 (mk_point 5 0) = Ok None.
Proof.
  apply (X10_add_opposite_points secp256r1 5 1 secp256r1_odd).
  split; [apply Z.ltb_lt|apply Z.ltb_lt]; vm_compute; reflexivity.
Defined.

(** X11. The chord law: for a prime modulus [p] and two points whose
    abscissas differ modulo [p], [add] returns a point [(x3, y3)] with
    coordinates in [[0, p)] such that, for a slope [l] with
    [l * (x2 - x1) = y2 - y1], [x3 = l^2 - x1 - x2] and
    [y3 = l * (x1 - x3) - y1] modulo [p]. *)
Theorem X11_add_chord_law (c : ECDSANamedCurve) (x1 y1 x2 y2 : Z) :
  Z.prime (curve_p c) ->
  x1 mod curve_p c <> x2 mod curve_p c ->
  exists x3 y3 l,
    add c (mk_point x1 y1) (mk_point x2 y2) = Ok (Some (mk_point x3 y3)) /\
    0 <= x3 < curve_p c /\ 0 <= y3 < curve_p c /\
    congruent (curve_p c) (l * (x2 - x1)) (y2 - y1) /\
    congruent (curve_p c) x3 (l ^ 2 - x1 - x2) /\
    congruent (curve_p c) y3 (l * (x1 - x3) - y1).
Proof. intros Hp Hx. now apply add_chord. Qed.

Lemma X11_add_chord_law_witness :
  exists x3 y3 l,
    add secp256r1 (mk_point 1 2) (mk_point 3 4) = Ok (Some (mk_point x3 y3)) /\
    0 <= x3 < curve_p secp256r1 /\ 0 <= y3 < curve_p secp256r1 /\
    congruent (curve_p secp256r1) (l * (3 - 1)) (4 - 2) /\
    congruent (curve_p secp256r1) x3 (l ^ 2 - 1 - 3) /\
    congruent (curve_p secp256r1) y3 (l * (1 - x3) - 2).
Proof.
  apply (X11_add_chord_law secp256r1 1 2 3 4 secp256r1_prime).
  vm_compute. discriminate.
Defined.

(** X12. The tangent law: for an odd prime modulus [p] and a point with
    [y <> 0 (mod p)], [double] returns a point [(x3, y3)] with coordinates in
    [[0, p)] such that, for a slope [l] with [l * (2 * y) = 3 * x^2 + a],
    [x3 = l^2 - 2 * x] and [y3 = l * (x - x3) - y] modulo [p]. *)
Theorem X12_double_tangent_law (c : ECDSANamedCurve) (x y : Z) :
  Z.prime (curve_p c) -> curve_p c mod 2 = 1 ->
  y mod curve_p c <> 0 ->
  exists x3 y3 l,
    double c (mk_point x y) = Ok (Some (mk_point x3 y3)) /\
    0 <= x3 < curve_p c /\ 0 <= y3 < curve_p c /\
    congruent (curve_p c) (l * (2 * y)) (3 * x ^ 2 + curve_a c) /\
    congruent (curve_p c) x3 (l ^ 2 - 2 * x) /\
    congruent (curve_p c) y3 (l * (x - x3) - y).
Proof. intros Hp Hodd Hy. now apply double_tangent. Qed.

Lemma X12_double_tangent_law_witness :
  exists x3 y3 l,
    double secp256r1 (mk_point 1 2) = Ok (Some (mk_point x3 y3)) /\
    0 <= x3 < curve_p secp256r1 /\ 0 <= y3 < curve_p secp256r1 /\
    congruent (curve_p secp256r1) (l * (2 * 2)) (3 * 1 ^ 2 + curve_a secp256r1) /\
    congruent (curve_p secp256r1) x3 (l ^ 2 - 2 * 1) /\
    congruent (curve_p secp256r1) y3 (l * (1 - x3) - 2).
Proof.
  apply (X12_double_tangent_law secp256r1 1 2 secp256r1_prime secp256r1_odd).
  vm_compute. discriminate.
Defined.

(** X13. Scalar multiplication stays on the curve and does not throw:
    for an odd prime modulus and a point [P] on the curve (coordinates in
    [[0, p)], [y^2 = x^3 + a x + b] modulo [p]), [multiply k P] returns for
    every scalar [k >= 0], and what it returns is [null] or a point on the
    curve. *)
Theorem X13_multiply_on_curve (c : ECDSANamedCurve) (k : Z) (P : ECDSAPoint) :
  Z.prime (curve_p c) -> curve_p c mod 2 = 1 ->
  0 <= k -> on_curve c P ->
  exists Q, multiply c k P = Ok Q /\ on_curve_or_null c Q.
Proof. intros Hp Hodd _ HP. now apply multiply_valid. Qed.

Lemma X13_multiply_on_curve_witness :
  exists Q, multiply secp256r1 5 (curve_g secp256r1) = Ok Q /\
    on_curve_or_null secp256r1 Q.
Proof.
  apply (X13_multiply_on_curve secp256r1 5 (curve_g secp256r1)
           secp256r1_prime secp256r1_odd).
  - lia.
  - exact (registry_generator secp256r1 secp256r1_named).
Defined.

(** X14. Addition and doubling stay on the curve and do not throw: for
    an odd prime modulus and points [P], [Q] on the curve, [add P Q] and
    [double P] return, and what they return is [null] or a point on the
    curve. *)
Theorem X14_add_double_on_curve (c : ECDSANamedCurve) (P Q : ECDSAPoint) :
  Z.prime (curve_p c) -> curve_p c mod 2 = 1 ->
  on_curve c P -> on_curve c Q ->
  (exists R, add c P Q = Ok R /\ on_curve_or_null c R) /\
  (exists R, double c P = Ok R /\ on_curve_or_null c R).
Proof.
  intros Hp Hodd HP HQ. split; [now apply add_valid|now apply double_valid].
Qed.

Lemma X14_add_double_on_curve_witness :
  (exists R, add secp256r1 (curve_g secp256r1) (curve_g secp256r1) = Ok R /\
     on_curve_or_null secp256r1 R) /\
  (exists R, double secp256r1 (curve_g secp256r1) = Ok R /\
     on_curve_or_null secp256r1 R).
Proof.
  apply (X14_add_double_on_curve secp256r1 (curve_g secp256r1) (curve_g secp256r1)
           secp256r1_prime secp256r1_odd);
    exact (registry_generator secp256r1 secp256r1_named).
Defined.

(** X15. Multiplying by two is doubling: for a modulus [p > 1],
    [multiply 2 P] and [double P] are the same computation, with the same
    result or the same error. *)
Theorem X15_multiply_two_doubles (c : ECDSANamedCurve) (P : ECDSAPoint) :
  1 < curve_p c -> multiply c 2 P = double c P.
Proof. exact (multiply_two c P). Qed.

Lemma X15_multiply_two_doubles_witness :
  multiply secp256r1 2 (curve_g secp256r1) = double secp256r1 (curve_g secp256r1).
Proof.
  apply (X15_multiply_two_doubles secp256r1 (curve_g secp256r1)). reflexivity.
Defined.

(** X16. Only [(0, 1, 0)] is read as the point at infinity: for a
    modulus [p > 1], [toAffine] of any other Jacobian point whose [z] is a
    multiple of [p] throws the error of [inverseMod], "a and n is not
    relatively prime". *)
Theorem X16_toAffine_improper_infinity (c : ECDSANamedCurve) (J : JacobianPoint) :
  1 < curve_p c -> isAtInfinity J = false -> (curve_p c | jac_z J) ->
  toAffine c J = Throw (Error not_coprime_msg).
Proof. intros Hp Hinf Hz. now apply toAffine_improper. Qed.

Lemma X16_toAffine_improper_infinity_witness :
  toAffine secp256r1 (mk_jacobian 1 1 0) = Throw (Error not_coprime_msg).
Proof.
  apply (X16_toAffine_improper_infinity secp256r1 (mk_jacobian 1 1 0) secp256r1_modulus).
  - reflexivity.
  - exists 0. reflexivity.
Defined.

(** ** [ecdsa/curve-sec.ts] *)

(** X17. The modulus [p] of each of the eight named curves is an odd
    prime. *)
Theorem X17_registry_moduli_prime (c : ECDSANamedCurve) :
  In c registry -> Z.prime (curve_p c) /\ curve_p c mod 2 = 1.
Proof.
  intros Hin. split; [now apply registry_prime|now apply registry_odd].
Qed.

Lemma X17_registry_moduli_prime_witness :
  Z.prime (curve_p secp521r1) /\ curve_p secp521r1 mod 2 = 1.
Proof.
  apply (X17_registry_moduli_prime secp521r1). cbn [registry In]. tauto.
Defined.

(** X18. Each named curve is well formed: its base point lies on it
    (coordinates in [[0, p)], curve equation modulo [p]), its cofactor is [1],
    its order is above [1], and [size] is the number of bytes of [p]:
    [256^(size - 1) <= p < 256^size]. *)
Theorem X18_registry_well_formed (c : ECDSANamedCurve) :
  In c registry ->
  on_curve c (curve_g c) /\ curve_cofactor c = 1 /\ 1 < curve_n c /\
  256 ^ Z.of_nat (curve_size c - 1) <= curve_p c < 256 ^ Z.of_nat (curve_size c).
Proof.
  intros Hin. split; [now apply registry_generator|].
  split; [now apply registry_cofactor|].
  split; [now apply registry_order_big|now apply registry_size_exact].
Qed.

Lemma X18_registry_well_formed_witness :
  on_curve secp224k1 (curve_g secp224k1) /\ curve_cofactor secp224k1 = 1 /\
  1 < curve_n secp224k1 /\
  256 ^ Z.of_nat (curve_size secp224k1 - 1) <= curve_p secp224k1
    < 256 ^ Z.of_nat (curve_size secp224k1).
Proof.
  apply (X18_registry_well_formed secp224k1). cbn [registry In]. tauto.
Defined.

(** X29. No point of order two on the named curves: on each of them a
    point on the curve has [0 < y < p] (the cubic [x^3 + a x + b] has no root
    modulo [p]), and [double] of it returns a point on the curve, never
    [null]. *)
Theorem X29_registry_double_not_null (c : ECDSANamedCurve) (P : ECDSAPoint) :
  In c registry -> on_curve c P ->
  0 < point_y P < curve_p c /\
  exists Q, double c P = Ok (Some Q) /\ on_curve c Q.
Proof.
  intros Hin HP. split; [now apply on_curve_ordinate|now apply registry_double].
Qed.

Lemma X29_registry_double_not_null_witness :
  0 < point_y (curve_g secp384r1) < curve_p secp384r1 /\
  exists Q, double secp384r1 (curve_g secp384r1) = Ok (Some Q) /\ on_curve secp384r1 Q.
Proof.
  apply (X29_registry_double_not_null secp384r1 (curve_g secp384r1)).
  - cbn [registry In]. tauto.
  - apply registry_generator. cbn [registry In]. tauto.
Defined.

(** ** [ecdsa/ecdsa.ts] *)

(** X19. The outcomes of a verification: on a named curve, for a key
    with coordinates in [[0, p)], any non-empty hash and any signature
    [(r, s)], [verifyECDSASignature] returns a boolean whenever [s] is
    invertible modulo the order [n]; when it is not, the call returns [false]
    or throws the error of [inverseMod], and nothing else. *)
Theorem X19_verify_outcomes (c : ECDSANamedCurve) (x y : Z) (hash : list byte) (r s : Z) :
  In c registry -> hash <> [] ->
  0 <= x < curve_p c -> 0 <= y < curve_p c ->
  (Z.gcd s (curve_n c) = 1 ->
   exists b, verifyECDSASignature (mk_key c x y) hash (mk_signature r s) = Ok b) /\
  (Z.gcd s (curve_n c) <> 1 ->
   verifyECDSASignature (mk_key c x y) hash (mk_signature r s) = Ok false \/
   verifyECDSASignature (mk_key c x y) hash (mk_signature r s)
   = Throw (Error not_coprime_msg)).
Proof. intros Hin _ Hx Hy. now apply verify_outcomes. Qed.

(** On secp256r1 with the base point as the key and the digest and
    signature [(r, s)] of [Signatures], where [s] is invertible modulo [n]:
    the run passes the two checks of the key, inverts [s], computes
    [u1 * G], [u2 * Q] and their sum, and the final comparison succeeds. *)
Lemma X19_verify_outcomes_witness :
  (exists b, verifyECDSASignature sig1_key sig1_hash (mk_signature sig1_r sig1_r) = Ok b) /\
  verifyECDSASignature sig1_key sig1_hash (mk_signature sig1_r sig1_r) = Ok true.
Proof.
  refine (conj (proj1 (X19_verify_outcomes secp256r1
                         (point_x (curve_g secp256r1)) (point_y (curve_g secp256r1))
                         sig1_hash sig1_r sig1_r secp256r1_named _ _ _) _)
               sig1_verify).
  - discriminate.
  - split; [apply Z.leb_le|apply Z.ltb_lt]; vm_compute; reflexivity.
  - split; [apply Z.leb_le|apply Z.ltb_lt]; vm_compute; reflexivity.
  - vm_compute. reflexivity.
Defined.

(** X20. A key off the curve is rejected: on a curve of cofactor [1] with
    a positive modulus, when the coordinates of the key do not satisfy
    [y^2 = x^3 + a x + b] modulo [p], [verifyECDSASignature] returns [false]
    for every hash and signature. *)
Theorem X20_verify_rejects_off_curve (c : ECDSANamedCurve) (x y : Z)
    (hash : list byte) (sig : ECDSASignature) :
  curve_cofactor c = 1 -> 0 < curve_p c ->
  ~ congruent (curve_p c) (y ^ 2) (x ^ 3 + curve_a c * x + curve_b c) ->
  verifyECDSASignature (mk_key c x y) hash sig = Ok false.
Proof. intros Hc Hp Hoff. now apply verify_off_curve. Qed.

Lemma X20_verify_rejects_off_curve_witness :
  verifyECDSASignature (mk_key secp256r1 0 0) [] (mk_signature 1 1) = Ok false.
Proof.
  apply (X20_verify_rejects_off_curve secp256r1 0 0 [] (mk_signature 1 1)).
  - reflexivity.
  - reflexivity.
  - unfold congruent. vm_compute. discriminate.
Defined.

(** X21. IEEE P1363 round trip: for a curve and a signature [(r, s)] with
    [1 <= r, s < 256^size], [encodeIEEEP1363] returns [2 * size] bytes, and
    [decodeIEEEP1363ECDSASignature] reads them back as [(r, s)]. *)
Theorem X21_ieee_encode_decode (c : ECDSANamedCurve) (r s : Z) :
  1 <= r < 256 ^ Z.of_nat (curve_size c) ->
  1 <= s < 256 ^ Z.of_nat (curve_size c) ->
  exists bytes,
    encodeIEEEP1363 (mk_signature r s) c = Ok bytes /\
    List.length bytes = (2 * curve_size c)%nat /\
    decodeIEEEP1363ECDSASignature c bytes = Ok (mk_signature r s).
Proof. intros Hr Hs. now apply ieee_round_trip. Qed.

Lemma X21_ieee_encode_decode_witness :
  exists bytes,
    encodeIEEEP1363 (mk_signature 258 3) secp256r1 = Ok bytes /\
    List.length bytes = (2 * curve_size secp256r1)%nat /\
    decodeIEEEP1363ECDSASignature secp256r1 bytes = Ok (mk_signature 258 3).
Proof.
  apply (X21_ieee_encode_decode secp256r1 258 3).
  - split; [apply Z.leb_le|apply Z.ltb_lt]; vm_compute; reflexivity.
  - split; [apply Z.leb_le|apply Z.ltb_lt]; vm_compute; reflexivity.
Defined.

(** X22. The size errors of [encodeIEEEP1363]: for [r, s >= 0], a
    component [r >= 256^size] throws "'r' is too large"; with [r] in range
    ([1 <= r < 256^size]) a component [s >= 256^size] throws "'s' is too
    large". *)
Theorem X22_ieee_encode_too_large (c : ECDSANamedCurve) (r s : Z) :
  0 <= r -> 0 <= s ->
  (256 ^ Z.of_nat (curve_size c) <= r ->
   encodeIEEEP1363 (mk_signature r s) c = Throw (Error "'r' is too large")) /\
  (1 <= r < 256 ^ Z.of_nat (curve_size c) -> 256 ^ Z.of_nat (curve_size c) <= s ->
   encodeIEEEP1363 (mk_signature r s) c = Throw (Error "'s' is too large")).
Proof. intros Hr Hs. now apply ieee_too_large. Qed.

Lemma X22_ieee_encode_too_large_witness :
  encodeIEEEP1363 (mk_signature 1 (256 ^ 32)) secp256r1 = Throw (Error "'s' is too large").
Proof.
  refine (proj2 (X22_ieee_encode_too_large secp256r1 1 (256 ^ 32) _ _) _ _).
  - lia.
  - apply Z.leb_le. vm_compute. reflexivity.
  - split; [apply Z.leb_le|apply Z.ltb_lt]; vm_compute; reflexivity.
  - apply Z.leb_le. vm_compute. reflexivity.
Defined.

(** X23. What [decodeIEEEP1363ECDSASignature] accepts is canonical: when
    it returns a signature, both components lie in [[1, 256^size)], and
    [encodeIEEEP1363] of that signature gives back the very bytes that were
    decoded. *)
Theorem X23_ieee_decode_encode (c : ECDSANamedCurve) (bytes : list byte)
    (sig : ECDSASignature) :
  decodeIEEEP1363ECDSASignature c bytes = Ok sig ->
  1 <= sig_r sig < 256 ^ Z.of_nat (curve_size c) /\
  1 <= sig_s sig < 256 ^ Z.of_nat (curve_size c) /\
  encodeIEEEP1363 sig c = Ok bytes.
Proof. exact (ieee_decode_encode c bytes sig). Qed.

Lemma X23_ieee_decode_encode_witness :
  let bytes := repeat x00 31 ++ [x07] ++ repeat x00 30 ++ [x01; x02] in
  let sig := mk_signature 7 258 in
  1 <= sig_r sig < 256 ^ Z.of_nat (curve_size secp256r1) /\
  1 <= sig_s sig < 256 ^ Z.of_nat (curve_size secp256r1) /\
  encodeIEEEP1363 sig secp256r1 = Ok bytes.
Proof.
  apply (X23_ieee_decode_encode secp256r1). vm_compute. reflexivity.
Defined.

(** X24. The errors of [decodeSEC1PublicKey]: the empty buffer throws
    "Invalid public key"; a first byte other than [0x02], [0x03], [0x04]
    throws "Unknown encoding format"; a first byte [0x04] with a length other
    than [2 * size + 1], or a first byte [0x02] or [0x03] with a length other
    than [size + 1], throws "Invalid public key". *)
Theorem X24_decodeSEC1_errors (fuel : nat) (c : ECDSANamedCurve) (first : byte)
    (rest : list byte) :
  decodeSEC1PublicKey fuel c [] = Some (Throw (Error invalid_key_msg)) /\
  (first <> x02 -> first <> x03 -> first <> x04 ->
   decodeSEC1PublicKey fuel c (first :: rest)
   = Some (Throw (Error "Unknown encoding format"))) /\
  (List.length rest <> (2 * curve_size c)%nat ->
   decodeSEC1PublicKey fuel c (x04 :: rest) = Some (Throw (Error invalid_key_msg))) /\
  (first = x02 \/ first = x03 -> List.length rest <> curve_size c ->
   decodeSEC1PublicKey fuel c (first :: rest) = Some (Throw (Error invalid_key_msg))).
Proof.
  split; [reflexivity|]. split; [|split].
  - intros H2 H3 H4.
    now apply (proj1 (proj2 (sec1_errors fuel c (first :: rest))) first rest).
  - intros Hlen.
    now apply (proj1 (proj2 (proj2 (sec1_errors fuel c (x04 :: rest)))) rest).
  - intros Hfirst Hlen.
    now apply (proj2 (proj2 (proj2 (sec1_errors fuel c (first :: rest)))) first rest).
Qed.

Lemma X24_decodeSEC1_errors_witness :
  decodeSEC1PublicKey 0 secp256r1 [x05; x01]
  = Some (Throw (Error "Unknown encoding format")).
Proof.
  apply (proj1 (proj2 (X24_decodeSEC1_errors 0 secp256r1 x05 [x01]))); discriminate.
Defined.

(** X25. Uncompressed SEC1 bytes are canonical: on a curve with
    [size >= 1], every buffer of [2 * size + 1] bytes that starts with [0x04]
    decodes, with no fuel needed, to a key of that curve with coordinates in
    [[0, 256^size)], and [encodeSEC1Uncompressed] of that key gives back the
    buffer. *)
Theorem X25_sec1_decode_encode (c : ECDSANamedCurve) (bytes : list byte) :
  (1 <= curve_size c)%nat ->
  List.length bytes = (curve_size c * 2 + 1)%nat -> nth 0 bytes x00 = x04 ->
  exists key,
    (forall fuel, decodeSEC1PublicKey fuel c bytes = Some (Ok key)) /\
    key_curve key = c /\
    0 <= key_x key < 256 ^ Z.of_nat (curve_size c) /\
    0 <= key_y key < 256 ^ Z.of_nat (curve_size c) /\
    encodeSEC1Uncompressed key = Ok bytes.
Proof. intros Hsize Hlen Hfirst. now apply sec1_decode_encode. Qed.

Lemma X25_sec1_decode_encode_witness :
  let bytes := x04 :: repeat xff 64 in
  exists key,
    (forall fuel, decodeSEC1PublicKey fuel secp256r1 bytes = Some (Ok key)) /\
    key_curve key = secp256r1 /\
    0 <= key_x key < 256 ^ Z.of_nat (curve_size secp256r1) /\
    0 <= key_y key < 256 ^ Z.of_nat (curve_size secp256r1) /\
    encodeSEC1Uncompressed key = Ok bytes.
Proof.
  apply (X25_sec1_decode_encode secp256r1 (x04 :: repeat xff 64)).
  - apply Nat.leb_le. reflexivity.
  - reflexivity.
  - reflexivity.
Defined.

(** X26. An abscissa one byte too long is not rejected by
    [encodeSEC1Uncompressed]: on a curve with [size >= 1] and for
    [0 <= y < 256^size], when [256^size <= x < 256^(size + 1)] the call
    returns the [size + 1] bytes of [x] followed by the padded bytes of [y],
    the first byte of [x] standing where the format byte [0x04] was written;
    only from [x >= 256^(size + 1)] on does the call throw, with the range
    error of [bytes.set]. *)
Theorem X26_sec1_encode_oversized (c : ECDSANamedCurve) (x y : Z) :
  (1 <= curve_size c)%nat ->
  0 <= y < 256 ^ Z.of_nat (curve_size c) ->
  (256 ^ Z.of_nat (curve_size c) <= x < 256 ^ Z.of_nat (curve_size c + 1) ->
   encodeSEC1Uncompressed (mk_key c x y)
   = Ok (bigIntBytes x ++ padded (curve_size c) (bigIntBytes y))) /\
  (256 ^ Z.of_nat (curve_size c + 1) <= x ->
   encodeSEC1Uncompressed (mk_key c x y) = Throw (RangeError "offset is out of bounds")).
Proof. intros Hsize Hy. now apply sec1_oversized_abscissa. Qed.

Lemma X26_sec1_encode_oversized_witness :
  encodeSEC1Uncompressed (mk_key secp256r1 (256 ^ 32) 1)
  = Ok (bigIntBytes (256 ^ 32) ++ padded (curve_size secp256r1) (bigIntBytes 1)).
Proof.
  refine (proj1 (X26_sec1_encode_oversized secp256r1 (256 ^ 32) 1 _ _) _).
  - apply Nat.leb_le. reflexivity.
  - split; [apply Z.leb_le|apply Z.ltb_lt]; vm_compute; reflexivity.
  - split; [apply Z.leb_le|apply Z.ltb_lt]; vm_compute; reflexivity.
Defined.

(** X27. The parity of a decompressed key: for an odd modulus [p > 1]
    and [size >= 1], whenever [decodeSEC1PublicKey] returns a key for a buffer
    that starts with [0x02] or [0x03], the key is of the given curve, its [x]
    is the big-endian value of the bytes after the first, its [y] lies in
    [[0, p]] ([p] itself is possible, for the prefix [0x03] and the root [0])
    and is even for the prefix [0x02], odd for [0x03]. *)
Theorem X27_sec1_compressed_parity (fuel : nat) (c : ECDSANamedCurve) (first : byte)
    (xs : list byte) (key : ECDSAPublicKey) :
  1 < curve_p c -> curve_p c mod 2 = 1 -> (1 <= curve_size c)%nat ->
  first = x02 \/ first = x03 ->
  decodeSEC1PublicKey fuel c (first :: xs) = Some (Ok key) ->
  key_curve key = c /\ key_x key = be_value xs /\
  0 <= key_y key <= curve_p c /\
  key_y key mod 2 = (if Byte.eqb first x02 then 0 else 1).
Proof. intros Hp Hodd _ Hfirst H. now apply (sec1_compressed_parity fuel c first xs key). Qed.

Lemma X27_sec1_compressed_parity_witness :
  key_curve c3_key = secp256r1 /\ key_x c3_key = be_value (repeat x00 31 ++ [x01]) /\
  0 <= key_y c3_key <= curve_p secp256r1 /\
  key_y c3_key mod 2 = (if Byte.eqb x02 x02 then 0 else 1).
Proof.
  refine (X27_sec1_compressed_parity 0 secp256r1 x02 (repeat x00 31 ++ [x01]) c3_key
            secp256r1_modulus secp256r1_odd _ (or_introl eq_refl) _).
  - apply Nat.leb_le. reflexivity.
  - exact (c3_decode 0).
Defined.

(** X28. A zero component is rejected at decoding: on a curve with
    [size >= 1], a buffer of [2 * size] bytes whose first [size] bytes, or
    whose last [size] bytes, are all zero makes
    [decodeIEEEP1363ECDSASignature] throw the type error "Invalid signature"
    of the constructor. *)
Theorem X28_ieee_decode_zero_component (c : ECDSANamedCurve) (bytes : list byte) :
  (1 <= curve_size c)%nat ->
  List.length bytes = (2 * curve_size c)%nat ->
  firstn (curve_size c) bytes = repeat x00 (curve_size c) \/
  skipn (curve_size c) bytes = repeat x00 (curve_size c) ->
  decodeIEEEP1363ECDSASignature c bytes = Throw (TypeError "Invalid signature").
Proof. intros _. exact (ieee_zero_component c bytes). Qed.

Lemma X28_ieee_decode_zero_component_witness :
  decodeIEEEP1363ECDSASignature secp256r1 (repeat x01 32 ++ repeat x00 32)
  = Throw (TypeError "Invalid signature").
Proof.
  apply (X28_ieee_decode_zero_component secp256r1 (repeat x01 32 ++ repeat x00 32)).
  - apply Nat.leb_le. reflexivity.
  - reflexivity.
  - right. reflexivity.
Defined.

(** X30. The ordinate of a decompressed key on a named curve: with fuel
    for 256 turns of the loops of [tonelliShanks], every key that
    [decodeSEC1PublicKey] returns for a buffer starting with [0x02] or [0x03]
    has [0 < y < p]; the values [0] and [p] that the subtraction [p - y] could
    give do not occur, since [x^3 + a x + b] has no root modulo [p]. *)
Theorem X30_sec1_compressed_ordinate (fuel : nat) (c : ECDSANamedCurve) (first : byte)
    (xs : list byte) (key : ECDSAPublicKey) :
  In c registry -> (256 <= fuel)%nat ->
  first = x02 \/ first = x03 ->
  decodeSEC1PublicKey fuel c (first :: xs) = Some (Ok key) ->
  0 < key_y key < curve_p c.
Proof.
  intros Hin Hfuel Hfirst H.
  now apply (registry_decoded_ordinate c Hin fuel first xs key).
Qed.

Lemma X30_sec1_compressed_ordinate_witness :
  0 < key_y c3_key < curve_p secp256r1.
Proof.
  refine (X30_sec1_compressed_ordinate 256 secp256r1 x02 (repeat x00 31 ++ [x01]) c3_key
            secp256r1_named _ (or_introl eq_refl) _).
  - apply Nat.leb_le. reflexivity.
  - exact (c3_decode 256).
Defined.

End Properties.
